(** * txmempool.h: comparators of the mempool indices, the sanity-check
      frequency and the buffer of disconnected-block transactions

    A shallow embedding of the inline code of [src/txmempool.h] and the
    properties it is expected to have.

    - Fixed-width integers are [Z] with the wrap-around written out.
    - [double] is IEEE-754 binary64 as specified by the Standard Library's
      [SpecFloat] (precision 53, [emax] 1024, round to nearest even): the
      comparators and [setSanityCheck] compute in [double], and the
      embedding computes the same bits.
    - What the header uses but does not define ([CTransaction] and its
      [GetHash], the order of [uint256], [CTxMemPoolEntry::GetTxSize],
      [RecursiveDynamicUsage]) is a parameter of the development.
    - The entry point of the daemon ([bitcoind.cpp]) is embedded as well:
      the calls it makes are recorded in a trace, and what they return is
      a parameter. *)

From Stdlib Require Import ZArith Lia List Bool QArith Qminmax.
From Stdlib Require Import SpecFloat.
From Stdlib Require String Ascii.
Import ListNotations.
Local Open Scope Z_scope.

(* ===================================================================== *)
(** * Part I: the embedding                                               *)
(* ===================================================================== *)

(** ** Machine integers *)

Definition to_uint64 (z : Z) : Z := z mod 2 ^ 64.
(** Two's-complement reading of the low 64 bits. *)
Definition to_int64 (z : Z) : Z := (z + 2 ^ 63) mod 2 ^ 64 - 2 ^ 63.

Definition in_uint64 (z : Z) : Prop := 0 <= z < 2 ^ 64.
Definition in_int64 (z : Z) : Prop := - 2 ^ 63 <= z < 2 ^ 63.

(** [uint256] is a 256-bit blob; its [operator<] is declared in uint256.h
    and enters the comparators as a parameter. *)
Definition uint256 : Type := Z.
Definition CAmount : Type := Z.

(** ** IEEE-754 binary64 *)

Definition prec : Z := 53.
Definition emax : Z := 1024.
Definition double : Type := spec_float.

(** Conversion of an integer to [double] (round to nearest, ties to even);
    used for [int64_t], [uint64_t] and [size_t] operands alike. *)
Definition double_of_Z (z : Z) : double := binary_normalize prec emax z 0 false.

Definition dmul : double -> double -> double := SFmul prec emax.
Definition deqb : double -> double -> bool := SFeqb.
Definition dltb : double -> double -> bool := SFltb.
Definition dleb : double -> double -> bool := SFleb.
(** [x > y] in C++ is [y < x]. *)
Definition dgtb (x y : double) : bool := SFltb y x.

(** [2^1074] times the value of a finite double: always an integer, as no
    finite double has an exponent below [-1074]. *)
Definition scaled (x : double) : Z :=
  match x with
  | S754_finite s m e => cond_Zopp s (Zpos m * 2 ^ (e + 1074))
  | _ => 0
  end.

Definition is_finite (x : double) : bool :=
  match x with
  | S754_zero _ | S754_finite _ _ _ => true
  | _ => false
  end.

(** The rational value of a finite double. *)
Definition SF2Q (x : double) : Q := Qmake (scaled x) (Z.to_pos (2 ^ 1074)).

(** A finite double in canonical form: every value a C++ [double] that is
    neither an infinity nor a NaN can hold. *)
Definition wf_double (x : double) : Prop :=
  valid_binary prec emax x = true /\ is_finite x = true.

(** A double that stands for the integer [z] exactly. *)
Definition represents (x : double) (z : Z) : Prop :=
  wf_double x /\ scaled x = z * 2 ^ 1074.

(** [m / 2^n] rounded to the nearest integer, ties to even: what the
    rounding of [SpecFloat] amounts to on an exact mantissa. *)
Definition rne (m n : Z) : Z :=
  if n <=? 0 then m
  else
    let q := m / 2 ^ n in
    match m mod 2 ^ n ?= 2 ^ (n - 1) with
    | Lt => q
    | Gt => q + 1
    | Eq => if Z.even q then q else q + 1
    end.

(** [static_cast<uint32_t>(x)]: the fractional part is discarded; the
    conversion is undefined ([None]) when the truncated value does not fit. *)
Definition double_trunc (x : double) : option Z :=
  match x with
  | S754_zero _ => Some 0
  | S754_finite s m e => Some (cond_Zopp s (Z.shiftl (Zpos m) e))
  | _ => None
  end.

Definition double_to_uint32 (x : double) : option Z :=
  match double_trunc x with
  | Some z => if (0 <=? z) && (z <? 2 ^ 32) then Some z else None
  | None => None
  end.

(** ** Constants *)

(** [static const uint32_t MEMPOOL_HEIGHT = 0x7FFFFFFF;] *)
Definition MEMPOOL_HEIGHT : Z := 0x7FFFFFFF.

(** [static const int ROLLING_FEE_HALFLIFE = 60 * 60 * 12;] *)
Definition ROLLING_FEE_HALFLIFE : Z := 60 * 60 * 12.

(** ** LockPoints *)

Record LockPoints := {
  height : Z;
  time : Z;
  maxInputBlock : option Z   (* CBlockIndex*, [None] for nullptr *)
}.

(** [LockPoints() : height(0), time(0), maxInputBlock(nullptr)] *)
Definition LockPoints_default : LockPoints :=
  {| height := 0; time := 0; maxInputBlock := None |}.

(** ** Removal reasons *)

Inductive MemPoolRemovalReason :=
| UNKNOWN | EXPIRY | SIZELIMIT | REORG | BLOCK | CONFLICT | REPLACED.


(** ** CTxMemPool: the scalar state that the inline members touch *)

Record CTxMemPool := {
  nCheckFrequency : Z;        (* uint32_t *)
  nTransactionsUpdated : Z;   (* unsigned int *)
  totalTxSize : Z;            (* uint64_t *)
  pool_cachedInnerUsage : Z   (* uint64_t *)
}.

(** [void setSanityCheck(double dFrequency = 1.0)
      { nCheckFrequency = static_cast<uint32_t>(dFrequency * 4294967295.0); }] *)
Definition setSanityCheck (pool : CTxMemPool) (dFrequency : double)
  : option CTxMemPool :=
  match double_to_uint32 (dmul dFrequency (double_of_Z 4294967295)) with
  | Some n =>
      Some {| nCheckFrequency := n;
              nTransactionsUpdated := nTransactionsUpdated pool;
              totalTxSize := totalTxSize pool;
              pool_cachedInnerUsage := pool_cachedInnerUsage pool |}
  | None => None
  end.

(** The default argument [1.0]. *)
Definition dFrequency_default : double := double_of_Z 1.

(** [uint64_t GetTotalTxSize() const] (the lock is not modelled). *)
Definition GetTotalTxSize (pool : CTxMemPool) : Z := totalTxSize pool.

(** Modelled from the spec: [CTxMemPool::check], which draws the random
    number, is declared in the header and defined elsewhere. The frequency
    is "the probability of running the full invariant check per mutation",
    on the scale that the comment of the field fixes: "Value n means that
    n times in 2^32 we check". *)
Definition check_probability (pool : CTxMemPool) : Q :=
  Qmake (nCheckFrequency pool) (Z.to_pos (2 ^ 32)).

(** ** Feerates *)

(** A feerate as an exact fraction. *)
Definition feerate (fee size : Z) : Q := inject_Z fee / inject_Z size.

(** The ratio of a [(mod_fee, size)] pair of doubles. *)
Definition sort_value (p : double * double) : Q := SF2Q (fst p) / SF2Q (snd p).

(** The range in which the comparators compute without rounding: sizes
    are positive and at most [2^53], and so is every product of the
    magnitude of a fee with a size. *)
Definition in_exact_range (fees sizes : list Z) : Prop :=
  forall f s, In f fees -> In s sizes ->
              0 < s <= 2 ^ 53 /\ Z.abs f * s <= 2 ^ 53.

Definition exact_rangeb (fees sizes : list Z) : bool :=
  forallb (fun f =>
    forallb (fun s => (0 <? s) && (s <=? 2 ^ 53) && (Z.abs f * s <=? 2 ^ 53)) sizes)
    fees.

(** ** Entries and their comparators *)

Section Entries.

(** [CTransaction] is declared in primitives/transaction.h. A
    [CTransactionRef] is a shared pointer to an immutable transaction and
    is modelled by the transaction it points to. *)
Variable CTransaction : Type.
Variable GetHash : CTransaction -> uint256.
(** [operator<] of [uint256]. *)
Variable uint256_lt : uint256 -> uint256 -> bool.

Definition CTransactionRef : Type := CTransaction.

Record CTxMemPoolEntry := {
  tx : CTransactionRef;
  nFee : CAmount;                    (* int64_t *)
  nTxWeight : Z;                     (* size_t *)
  nUsageSize : Z;                    (* size_t *)
  nTime : Z;                         (* int64_t *)
  entryHeight : Z;                   (* unsigned int *)
  spendsCoinbase : bool;
  sigOpCost : Z;                     (* int64_t *)
  feeDelta : Z;                      (* int64_t *)
  lockPoints : LockPoints;
  nCountWithDescendants : Z;         (* uint64_t *)
  nSizeWithDescendants : Z;          (* uint64_t *)
  nModFeesWithDescendants : CAmount; (* int64_t *)
  nCountWithAncestors : Z;           (* uint64_t *)
  nSizeWithAncestors : Z;            (* uint64_t *)
  nModFeesWithAncestors : CAmount;   (* int64_t *)
  nSigOpCostWithAncestors : Z;       (* int64_t *)
  vTxHashesIdx : Z                   (* size_t *)
}.

(** [size_t GetTxSize() const;] is only declared in the header. *)
Variable GetTxSize : CTxMemPoolEntry -> Z.

Definition GetTx (e : CTxMemPoolEntry) : CTransaction := tx e.
Definition GetSharedTx (e : CTxMemPoolEntry) : CTransactionRef := tx e.
Definition GetFee (e : CTxMemPoolEntry) : CAmount := nFee e.
Definition GetTxWeight (e : CTxMemPoolEntry) : Z := nTxWeight e.
Definition GetTime (e : CTxMemPoolEntry) : Z := nTime e.
Definition GetHeight (e : CTxMemPoolEntry) : Z := entryHeight e.
Definition GetSigOpCost (e : CTxMemPoolEntry) : Z := sigOpCost e.
(** [int64_t GetModifiedFee() const { return nFee + feeDelta; }]; an
    overflow of the signed addition is read as two's-complement. *)
Definition GetModifiedFee (e : CTxMemPoolEntry) : Z :=
  to_int64 (nFee e + feeDelta e).
Definition DynamicMemoryUsage (e : CTxMemPoolEntry) : Z := nUsageSize e.
Definition GetLockPoints (e : CTxMemPoolEntry) : LockPoints := lockPoints e.
Definition GetCountWithDescendants (e : CTxMemPoolEntry) : Z :=
  nCountWithDescendants e.
Definition GetSizeWithDescendants (e : CTxMemPoolEntry) : Z :=
  nSizeWithDescendants e.
Definition GetModFeesWithDescendants (e : CTxMemPoolEntry) : CAmount :=
  nModFeesWithDescendants e.
Definition GetSpendsCoinbase (e : CTxMemPoolEntry) : bool := spendsCoinbase e.
Definition GetCountWithAncestors (e : CTxMemPoolEntry) : Z :=
  nCountWithAncestors e.
Definition GetSizeWithAncestors (e : CTxMemPoolEntry) : Z :=
  nSizeWithAncestors e.
Definition GetModFeesWithAncestors (e : CTxMemPoolEntry) : CAmount :=
  nModFeesWithAncestors e.
Definition GetSigOpCostWithAncestors (e : CTxMemPoolEntry) : Z :=
  nSigOpCostWithAncestors e.

(** [mempoolentry_txid]: the key of the hashed indices. *)
Definition mempoolentry_txid_entry (e : CTxMemPoolEntry) : uint256 :=
  GetHash (GetTx e).
Definition mempoolentry_txid (t : CTransactionRef) : uint256 := GetHash t.

(** [CompareTxMemPoolEntryByDescendantScore::GetModFeeAndSize]; the pair
    is [(mod_fee, size)]. *)
Definition DescendantScore_GetModFeeAndSize (a : CTxMemPoolEntry)
  : double * double :=
  let f1 := dmul (double_of_Z (GetModifiedFee a))
                 (double_of_Z (GetSizeWithDescendants a)) in
  let f2 := dmul (double_of_Z (GetModFeesWithDescendants a))
                 (double_of_Z (GetTxSize a)) in
  if dgtb f2 f1
  then (double_of_Z (GetModFeesWithDescendants a),
        double_of_Z (GetSizeWithDescendants a))
  else (double_of_Z (GetModifiedFee a), double_of_Z (GetTxSize a)).

(** [CompareTxMemPoolEntryByDescendantScore::operator()] *)
Definition CompareTxMemPoolEntryByDescendantScore (a b : CTxMemPoolEntry)
  : bool :=
  let '(a_mod_fee, a_size) := DescendantScore_GetModFeeAndSize a in
  let '(b_mod_fee, b_size) := DescendantScore_GetModFeeAndSize b in
  let f1 := dmul a_mod_fee b_size in
  let f2 := dmul a_size b_mod_fee in
  if deqb f1 f2 then GetTime b <=? GetTime a
  else dltb f1 f2.

(** [CompareTxMemPoolEntryByScore::operator()]: the raw fee, not the
    modified one. *)
Definition CompareTxMemPoolEntryByScore (a b : CTxMemPoolEntry) : bool :=
  let f1 := dmul (double_of_Z (GetFee a)) (double_of_Z (GetTxSize b)) in
  let f2 := dmul (double_of_Z (GetFee b)) (double_of_Z (GetTxSize a)) in
  if deqb f1 f2
  then uint256_lt (GetHash (GetTx b)) (GetHash (GetTx a))
  else dgtb f1 f2.

(** [CompareTxMemPoolEntryByEntryTime::operator()] *)
Definition CompareTxMemPoolEntryByEntryTime (a b : CTxMemPoolEntry) : bool :=
  GetTime a <? GetTime b.

(** [CompareTxMemPoolEntryByAncestorFee::GetModFeeAndSize] *)
Definition AncestorFee_GetModFeeAndSize (a : CTxMemPoolEntry)
  : double * double :=
  let f1 := dmul (double_of_Z (GetModifiedFee a))
                 (double_of_Z (GetSizeWithAncestors a)) in
  let f2 := dmul (double_of_Z (GetModFeesWithAncestors a))
                 (double_of_Z (GetTxSize a)) in
  if dgtb f1 f2
  then (double_of_Z (GetModFeesWithAncestors a),
        double_of_Z (GetSizeWithAncestors a))
  else (double_of_Z (GetModifiedFee a), double_of_Z (GetTxSize a)).

(** [CompareTxMemPoolEntryByAncestorFee::operator()] *)
Definition CompareTxMemPoolEntryByAncestorFee (a b : CTxMemPoolEntry)
  : bool :=
  let '(a_mod_fee, a_size) := AncestorFee_GetModFeeAndSize a in
  let '(b_mod_fee, b_size) := AncestorFee_GetModFeeAndSize b in
  let f1 := dmul a_mod_fee b_size in
  let f2 := dmul a_size b_mod_fee in
  if deqb f1 f2
  then uint256_lt (GetHash (GetTx a)) (GetHash (GetTx b))
  else dgtb f1 f2.

(** [CTxMemPool::CompareIteratorByHash] *)
Definition CompareIteratorByHash (a b : CTxMemPoolEntry) : bool :=
  uint256_lt (GetHash (GetTx a)) (GetHash (GetTx b)).

(** The sort values in the words of the specification and of the class
    comments, as exact fractions: the larger of the feerate of the entry
    and the feerate with its descendants, the smaller of the feerate of
    the entry and the feerate with its ancestors. *)
Definition descendant_score (a : CTxMemPoolEntry) : Q :=
  Qmax (feerate (GetModifiedFee a) (GetTxSize a))
       (feerate (GetModFeesWithDescendants a) (GetSizeWithDescendants a)).

Definition ancestor_score (a : CTxMemPoolEntry) : Q :=
  Qmin (feerate (GetModifiedFee a) (GetTxSize a))
       (feerate (GetModFeesWithAncestors a) (GetSizeWithAncestors a)).

(** The fees and the sizes that the two comparators multiply. *)
Definition descendant_fees (a : CTxMemPoolEntry) : list Z :=
  [GetModifiedFee a; GetModFeesWithDescendants a].
Definition descendant_sizes (a : CTxMemPoolEntry) : list Z :=
  [GetTxSize a; GetSizeWithDescendants a].
Definition ancestor_fees (a : CTxMemPoolEntry) : list Z :=
  [GetModifiedFee a; GetModFeesWithAncestors a].
Definition ancestor_sizes (a : CTxMemPoolEntry) : list Z :=
  [GetTxSize a; GetSizeWithAncestors a].

End Entries.

Arguments tx {CTransaction} _.
Arguments nFee {CTransaction} _.
Arguments nTime {CTransaction} _.
Arguments feeDelta {CTransaction} _.
Arguments nSizeWithDescendants {CTransaction} _.
Arguments nModFeesWithDescendants {CTransaction} _.
Arguments nSizeWithAncestors {CTransaction} _.
Arguments nModFeesWithAncestors {CTransaction} _.
Arguments GetTx {CTransaction} _.
Arguments GetFee {CTransaction} _.
Arguments GetTime {CTransaction} _.
Arguments GetModifiedFee {CTransaction} _.
Arguments GetSizeWithDescendants {CTransaction} _.
Arguments GetModFeesWithDescendants {CTransaction} _.
Arguments GetSizeWithAncestors {CTransaction} _.
Arguments GetModFeesWithAncestors {CTransaction} _.
Arguments DescendantScore_GetModFeeAndSize {CTransaction} GetTxSize a.
Arguments CompareTxMemPoolEntryByDescendantScore {CTransaction} GetTxSize a b.
Arguments CompareTxMemPoolEntryByScore {CTransaction} GetHash uint256_lt GetTxSize a b.
Arguments CompareTxMemPoolEntryByEntryTime {CTransaction} a b.
Arguments AncestorFee_GetModFeeAndSize {CTransaction} GetTxSize a.
Arguments descendant_score {CTransaction} GetTxSize a.
Arguments ancestor_score {CTransaction} GetTxSize a.
Arguments descendant_fees {CTransaction} a.
Arguments descendant_sizes {CTransaction} GetTxSize a.
Arguments ancestor_fees {CTransaction} a.
Arguments ancestor_sizes {CTransaction} GetTxSize a.
Arguments CompareTxMemPoolEntryByAncestorFee {CTransaction} GetHash uint256_lt GetTxSize a b.

(** ** DisconnectedBlockTransactions *)

(** The outcome of an [assert]. *)
Inductive assert_outcome := assert_passes | assert_fails.

Section Disconnected.

Variable CTransaction : Type.
Variable GetHash : CTransaction -> uint256.
(** [RecursiveDynamicUsage] (core_memusage.h) of a transaction
    reference, a [size_t]. *)
Variable RecursiveDynamicUsage : CTransaction -> Z.

(** [queuedTx] is a multi-index container with a [hashed_unique] index
    on the transaction hash and a [sequenced] index: the list holds the
    elements in the order of the sequenced index. *)
Record DisconnectedBlockTransactions := {
  queuedTx : list CTransaction;
  cachedInnerUsage : Z   (* uint64_t *)
}.

(** [uint64_t cachedInnerUsage = 0;] and an empty container. *)
Definition DisconnectedBlockTransactions_init : DisconnectedBlockTransactions :=
  {| queuedTx := []; cachedInnerUsage := 0 |}.

Definition has_hash (h : uint256) (t : CTransaction) : bool :=
  GetHash t =? h.

(** [queuedTx.find(hash)] on the hashed index: the position, in the
    sequenced index, of the element with that hash; [None] is [end()]. *)
Fixpoint queuedTx_find (h : uint256) (q : list CTransaction) : option nat :=
  match q with
  | [] => None
  | t :: q' =>
      if has_hash h t then Some O
      else match queuedTx_find h q' with
           | Some i => Some (S i)
           | None => None
           end
  end.

(** [queuedTx.erase(it)]: the other elements keep their order. *)
Fixpoint queuedTx_erase (i : nat) (q : list CTransaction) : list CTransaction :=
  match q, i with
  | [], _ => []
  | _ :: q', O => q'
  | t :: q', S i' => t :: queuedTx_erase i' q'
  end.

(** [queuedTx.insert(tx)]: refused by the [hashed_unique] index when an
    element with the same hash is there, otherwise appended to the
    sequenced index. *)
Definition queuedTx_insert (t : CTransaction) (q : list CTransaction)
  : list CTransaction :=
  match queuedTx_find (GetHash t) q with
  | Some _ => q
  | None => q ++ [t]
  end.

(** [~DisconnectedBlockTransactions() { assert(queuedTx.empty()); }] *)
Definition destructor (d : DisconnectedBlockTransactions) : assert_outcome :=
  match queuedTx d with
  | [] => assert_passes
  | _ :: _ => assert_fails
  end.

(** [void addTransaction(const CTransactionRef& tx)] *)
Definition addTransaction (d : DisconnectedBlockTransactions) (t : CTransaction)
  : DisconnectedBlockTransactions :=
  {| queuedTx := queuedTx_insert t (queuedTx d);
     cachedInnerUsage :=
       to_uint64 (cachedInnerUsage d + RecursiveDynamicUsage t) |}.

(** The body of the loop of [removeForBlock]. *)
Definition removeForBlock_step (d : DisconnectedBlockTransactions)
  (t : CTransaction) : DisconnectedBlockTransactions :=
  match queuedTx_find (GetHash t) (queuedTx d) with
  | Some i =>
      match nth_error (queuedTx d) i with
      | Some found =>
          {| queuedTx := queuedTx_erase i (queuedTx d);
             cachedInnerUsage :=
               to_uint64 (cachedInnerUsage d - RecursiveDynamicUsage found) |}
      | None => d
      end
  | None => d
  end.

(** [void removeForBlock(const std::vector<CTransactionRef>& vtx)] *)
Definition removeForBlock (d : DisconnectedBlockTransactions)
  (vtx : list CTransaction) : DisconnectedBlockTransactions :=
  match queuedTx d with
  | [] => d
  | _ :: _ => fold_left removeForBlock_step vtx d
  end.

(** [void removeEntry(insertion_order iterator entry)]: the iterator is
    the position in the sequenced index; dereferencing a position that
    holds no element is undefined ([None]). *)
Definition removeEntry (d : DisconnectedBlockTransactions) (entry : nat)
  : option DisconnectedBlockTransactions :=
  match nth_error (queuedTx d) entry with
  | Some t =>
      Some {| queuedTx := queuedTx_erase entry (queuedTx d);
              cachedInnerUsage :=
                to_uint64 (cachedInnerUsage d - RecursiveDynamicUsage t) |}
  | None => None
  end.

(** [void clear()] *)
Definition clear (d : DisconnectedBlockTransactions)
  : DisconnectedBlockTransactions :=
  {| queuedTx := []; cachedInnerUsage := 0 |}.

(** The sum the cached counter is meant to equal. *)
Definition inner_usage (q : list CTransaction) : Z :=
  fold_right (fun t acc => RecursiveDynamicUsage t + acc) 0 q.

(** The accounting invariant of the buffer, in [uint64_t] arithmetic. *)
Definition usage_consistent (d : DisconnectedBlockTransactions) : Prop :=
  cachedInnerUsage d = to_uint64 (inner_usage (queuedTx d)).

(** The [hashed_unique] index: no two queued transactions share a hash. *)
Definition unique_hashes (q : list CTransaction) : Prop :=
  NoDup (map GetHash q).

(** Membership of a hash in a vector of transactions. *)
Definition hash_in (vtx : list CTransaction) (t : CTransaction) : bool :=
  existsb (has_hash (GetHash t)) vtx.

End Disconnected.

Arguments queuedTx {CTransaction} _.
Arguments cachedInnerUsage {CTransaction} _.
Arguments destructor {CTransaction} d.
Arguments clear {CTransaction} d.
Arguments addTransaction {CTransaction} GetHash RecursiveDynamicUsage d t.
Arguments removeForBlock {CTransaction} GetHash RecursiveDynamicUsage d vtx.
Arguments removeForBlock_step {CTransaction} GetHash RecursiveDynamicUsage d t.
Arguments removeEntry {CTransaction} RecursiveDynamicUsage d entry.
Arguments usage_consistent {CTransaction} RecursiveDynamicUsage d.
Arguments inner_usage {CTransaction} RecursiveDynamicUsage q.
Arguments unique_hashes {CTransaction} GetHash q.
Arguments hash_in {CTransaction} GetHash vtx t.
Arguments has_hash {CTransaction} GetHash h t.
Arguments queuedTx_find {CTransaction} GetHash h q.
Arguments queuedTx_erase {CTransaction} i q.
Arguments queuedTx_insert {CTransaction} GetHash t q.

Arguments nTxWeight {CTransaction} _.

(** ** Sample data

    Concrete transactions, entries and a pool on which the statements
    below are exercised. A sample transaction carries its hash and its
    dynamic memory usage; the sample transaction size is the weight
    divided by four, rounded up. *)

Record SampleTx := { sample_hash : uint256; sample_usage : Z }.

Definition sample_GetTxSize (e : CTxMemPoolEntry SampleTx) : Z :=
  (nTxWeight e + 3) / 4.

Definition sample_entry (h fee delta weight t sizeD feesD sizeA feesA : Z)
  : CTxMemPoolEntry SampleTx :=
  {| tx := {| sample_hash := h; sample_usage := 1000 |};
     nFee := fee;
     nTxWeight := weight;
     nUsageSize := 1000;
     nTime := t;
     entryHeight := 500000;
     spendsCoinbase := false;
     sigOpCost := 4;
     feeDelta := delta;
     lockPoints := LockPoints_default;
     nCountWithDescendants := 1;
     nSizeWithDescendants := sizeD;
     nModFeesWithDescendants := feesD;
     nCountWithAncestors := 1;
     nSizeWithAncestors := sizeA;
     nModFeesWithAncestors := feesA;
     nSigOpCostWithAncestors := 4;
     vTxHashesIdx := 0 |}.

(** A parent (fee 1000, size 100) and its child (fee 3000, size 200). *)
Definition sample_parent : CTxMemPoolEntry SampleTx :=
  sample_entry 11 1000 0 400 1 300 4000 100 1000.
Definition sample_child : CTxMemPoolEntry SampleTx :=
  sample_entry 12 3000 0 800 2 200 3000 300 4000.

(** Two unrelated entries of size 100 that were prioritised by the same
    delta; their modified fees are [2^53 + 1] and [2^53]. *)
Definition sample_high : CTxMemPoolEntry SampleTx :=
  sample_entry 2 1001 9007199254739992 400 2
               100 9007199254740993 100 9007199254740993.
Definition sample_low : CTxMemPoolEntry SampleTx :=
  sample_entry 1 1000 9007199254739992 400 1
               100 9007199254740992 100 9007199254740992.

(** The same entry before and after a change of its fee delta. *)
Definition sample_plain : CTxMemPoolEntry SampleTx :=
  sample_entry 21 1000 0 400 1 100 1000 100 1000.
Definition sample_prioritised : CTxMemPoolEntry SampleTx :=
  sample_entry 21 1000 50000 400 1 100 51000 100 51000.

Definition sample_tx1 : SampleTx := {| sample_hash := 1; sample_usage := 500 |}.
Definition sample_tx2 : SampleTx := {| sample_hash := 2; sample_usage := 700 |}.
Definition sample_tx3 : SampleTx := {| sample_hash := 3; sample_usage := 900 |}.

(** A buffer that holds three disconnected transactions. *)
Definition sample_buffer : DisconnectedBlockTransactions SampleTx :=
  {| queuedTx := [sample_tx1; sample_tx2; sample_tx3];
     cachedInnerUsage := 2100 |}.

(** A pool as the constructor leaves it. *)
Definition sample_pool : CTxMemPool :=
  {| nCheckFrequency := 0; nTransactionsUpdated := 0;
     totalTxSize := 0; pool_cachedInnerUsage := 0 |}.

(** One half, and the largest double below one. *)
Definition double_half : double := S754_finite false 4503599627370496 (-53).
Definition double_below_one : double := S754_finite false 9007199254740991 (-53).
(** ** Further members of the header *)

(** Whether the two cross products of the descendant-score comparator
    compare equal ([f1 == f2] in its [operator()]). *)
Definition DescendantScore_tie {CTransaction : Type}
  (GetTxSize : CTxMemPoolEntry CTransaction -> Z)
  (a b : CTxMemPoolEntry CTransaction) : bool :=
  let '(a_mod_fee, a_size) := DescendantScore_GetModFeeAndSize GetTxSize a in
  let '(b_mod_fee, b_size) := DescendantScore_GetModFeeAndSize GetTxSize b in
  deqb (dmul a_mod_fee b_size) (dmul a_size b_mod_fee).

(** The feerate that the relay comparator sorts by, in the words of its
    class comment ("feerate of entry (fee/size)"). *)
Definition relay_score {CTransaction : Type}
  (GetTxSize : CTxMemPoolEntry CTransaction -> Z)
  (a : CTxMemPoolEntry CTransaction) : Q :=
  feerate (GetFee a) (GetTxSize a).

(** ** DisconnectedBlockTransactions: memory usage and sequences of calls *)

Section DisconnectedUsage.

Variable CTransaction : Type.
Variable GetHash : CTransaction -> uint256.
Variable RecursiveDynamicUsage : CTransaction -> Z.
(** [memusage::MallocUsage] (memusage.h) and the two [sizeof] that the
    estimate of the overhead uses; [size_t] has 64 bits. *)
Variable MallocUsage : Z -> Z.
Variable sizeof_CTransactionRef : Z.
Variable sizeof_pointer : Z.

(** [size_t DynamicMemoryUsage() const] of the buffer:
    the estimate [MallocUsage] of six pointers and one [CTransactionRef],
    times [queuedTx.size()], plus [cachedInnerUsage]. *)
Definition DisconnectedBlockTransactions_DynamicMemoryUsage
  (d : DisconnectedBlockTransactions CTransaction) : Z :=
  to_uint64
    (MallocUsage (sizeof_CTransactionRef + 6 * sizeof_pointer)
     * Z.of_nat (length (queuedTx d))
     + cachedInnerUsage d).

(** A call of one of the four mutating members. *)
Inductive buffer_call :=
| call_addTransaction (t : CTransaction)
| call_removeForBlock (vtx : list CTransaction)
| call_removeEntry (entry : nat)
| call_clear.

Definition run_call (c : buffer_call)
  (d : DisconnectedBlockTransactions CTransaction)
  : option (DisconnectedBlockTransactions CTransaction) :=
  match c with
  | call_addTransaction t =>
      Some (addTransaction GetHash RecursiveDynamicUsage d t)
  | call_removeForBlock vtx =>
      Some (removeForBlock GetHash RecursiveDynamicUsage d vtx)
  | call_removeEntry entry => removeEntry RecursiveDynamicUsage d entry
  | call_clear => Some (clear d)
  end.

(** A sequence of calls, undefined as soon as one of them is. *)
Fixpoint run_calls (cs : list buffer_call)
  (d : DisconnectedBlockTransactions CTransaction)
  : option (DisconnectedBlockTransactions CTransaction) :=
  match cs with
  | [] => Some d
  | c :: cs' =>
      match run_call c d with
      | Some d' => run_calls cs' d'
      | None => None
      end
  end.

End DisconnectedUsage.

Arguments DisconnectedBlockTransactions_DynamicMemoryUsage
  {CTransaction} MallocUsage sizeof_CTransactionRef sizeof_pointer d.
Arguments call_addTransaction {CTransaction} t.
Arguments call_removeForBlock {CTransaction} vtx.
Arguments call_removeEntry {CTransaction} entry.
Arguments call_clear {CTransaction}.
Arguments run_call {CTransaction} GetHash RecursiveDynamicUsage c d.
Arguments run_calls {CTransaction} GetHash RecursiveDynamicUsage cs d.

(** ** The frequencies that [setSanityCheck] can convert *)

(** [1 + 2^-32], the least double whose product with [4294967295.0] is
    rounded to [2^32]. *)
Definition frequency_upper : double :=
  S754_finite false 4503599628419072 (-52).

(** [- (2^-32 + 2^-64)], the negative double closest to zero whose
    product with [4294967295.0] is rounded to [-1]. *)
Definition frequency_lower : double :=
  S754_finite true 4503599628419072 (-84).

(** ** Further sample data *)

(** A fourth transaction, not in the sample buffer. *)
Definition sample_tx4 : SampleTx := {| sample_hash := 4; sample_usage := 300 |}.

(** The estimate of [memusage::MallocUsage] on a 64-bit platform: the
    allocation with its header, rounded up to sixteen bytes. *)
Definition sample_MallocUsage (alloc : Z) : Z :=
  if alloc =? 0 then 0 else Z.shiftl (Z.shiftr (alloc + 31) 4) 4.

(** Calls on a buffer: two insertions, a repeated one, a removal by
    position, a connected block, and one more insertion. *)
Definition sample_calls : list (buffer_call SampleTx) :=
  [call_addTransaction sample_tx1; call_addTransaction sample_tx2;
   call_addTransaction sample_tx1; call_removeEntry 0%nat;
   call_removeForBlock [sample_tx4; sample_tx2];
   call_addTransaction sample_tx3].

(** An entry of the same feerate as the parent, with a larger hash. *)
Definition sample_peer : CTxMemPoolEntry SampleTx :=
  sample_entry 31 2000 0 800 3 200 2000 200 2000.

(** The least double above one. *)
Definition double_above_one : double := S754_finite false 4503599627370497 (-52).

(** ** bitcoind.cpp: the entry point of the daemon *)

(** Every function that [bitcoind.cpp] calls is defined elsewhere. What
    a call does (the value it returns, or the exception it throws) is
    given by a [World]; the calls that act on the process are recorded, in
    order, in the trace of a run. The calls inside the [try] block of [AppInit] may
    throw; those outside it ([ParseParameters], [IsArgSet], [Interrupt],
    [MilliSleep], [ShutdownRequested], [Shutdown], and the C functions
    [fprintf] and [daemon]) are taken to return. *)

Section Daemon.

Import Ascii String.

(** An exception derived from [std::exception], or any other. *)
Inductive thrown := std_exception | other_exception.

Inductive outcome (A : Type) :=
| returns (a : A)
| throws (e : thrown).

Arguments returns {A} a.
Arguments throws {A} e.

(** What [AppInit] prints. *)
Inductive message :=
| msg_version_license          (* version line and [LicenseInfo()] *)
| msg_version_usage            (* version line, usage and [HelpMessage] *)
| msg_no_datadir
| msg_config_error
| msg_params_error
| msg_unexpected_token (token : string)
| msg_starting
| msg_daemon_failed
| msg_daemon_unsupported.

Inductive action :=
| act_SetupEnvironment
| act_noui_connect
| act_ParseParameters
| act_stdout (m : message)
| act_stderr (m : message)
| act_ReadConfigFile
| act_SelectParams
| act_SoftSetBoolArg
| act_InitLogging
| act_InitParameterInteraction
| act_AppInitBasicSetup
| act_AppInitParameterInteraction
| act_AppInitSanityChecks
| act_daemon
| act_AppInitLockDataDirectory
| act_AppInitMain
| act_PrintExceptionContinue (e : thrown)
| act_Interrupt
| act_MilliSleep (ms : Z)
| act_Shutdown.

Record World := {
  IsArgSet : string -> bool;            (* after [ParseParameters] *)
  is_directory_GetDataDir : outcome bool;
  ReadConfigFile : outcome unit;
  SelectParams : outcome unit;   (* [SelectParams(ChainNameFromCommandLine())] *)
  IsSwitchChar : Ascii.ascii -> bool;
  SoftSetBoolArg : outcome bool;
  InitLogging : outcome unit;
  InitParameterInteraction : outcome unit;
  AppInitBasicSetup : outcome bool;
  AppInitParameterInteraction : outcome bool;
  AppInitSanityChecks : outcome bool;
  GetBoolArg_daemon : outcome bool;
  HAVE_DECL_DAEMON : bool;
  daemon : Z;
  AppInitLockDataDirectory : outcome bool;
  AppInitMain : outcome bool;
  ShutdownRequested : nat -> bool       (* the successive calls *)
}.

(** How a statement ends. *)
Inductive flow (A : Type) :=
| normal (a : A)            (* it completes *)
| returned (b : bool)       (* by a [return] of [AppInit] *)
| thrown_out (e : thrown)   (* by an exception *)
| unfinished.               (* the loop is still running *)

Arguments normal {A} a.
Arguments returned {A} b.
Arguments thrown_out {A} e.
Arguments unfinished {A}.

(** A statement: the actions it makes, and how it ends. *)
Definition step (A : Type) : Type := (list action * flow A)%type.

Definition skip : step unit := ([], normal tt).

Definition after {A : Type} (tr : list action) (m : step A) : step A :=
  (tr ++ fst m, snd m).

Definition bind_step {A B : Type} (m : step A) (f : A -> step B) : step B :=
  match m with
  | (tr, normal a) => after tr (f a)
  | (tr, returned b) => (tr, returned b)
  | (tr, thrown_out e) => (tr, thrown_out e)
  | (tr, unfinished) => (tr, unfinished)
  end.

Definition act (a : action) : step unit := ([a], normal tt).

Definition result_of {A : Type} (o : outcome A) : flow A :=
  match o with
  | returns v => normal v
  | throws e => thrown_out e
  end.

(** A call that is recorded, and one that is not. *)
Definition call {A : Type} (a : action) (o : outcome A) : step A :=
  ([a], result_of o).
Definition query {A : Type} (o : outcome A) : step A := ([], result_of o).

Definition return_ {A : Type} (b : bool) : step A := ([], returned b).

(** [try { m } catch (const std::exception& e) { h }] *)
Definition catch_std {A : Type} (m h : step A) : step A :=
  match m with
  | (tr, thrown_out std_exception) => after tr h
  | r => r
  end.

(** [argv[i][0]]: the first character, or the terminating NUL. *)
Definition first_char (s : string) : Ascii.ascii :=
  match s with
  | EmptyString => Ascii.zero
  | String c _ => c
  end.

(** [void WaitForShutdown()]: [n] calls of [ShutdownRequested] were made
    before the one that decides the loop; [fuel] bounds the iterations. *)
Fixpoint WaitForShutdown_loop (w : World) (n fuel : nat) : step unit :=
  if ShutdownRequested w n then skip
  else
    match fuel with
    | O => ([], unfinished)
    | S fuel' =>
        bind_step (act (act_MilliSleep 200))
          (fun _ => WaitForShutdown_loop w (S n) fuel')
    end.

Definition WaitForShutdown (w : World) (fuel : nat) : step unit :=
  bind_step (WaitForShutdown_loop w 0 fuel) (fun _ => act act_Interrupt).

(** The loop over [argv[1]] ... [argv[argc - 1]]. *)
Fixpoint check_tokens (w : World) (tokens : list string) : step unit :=
  match tokens with
  | [] => skip
  | token :: rest =>
      if negb (IsSwitchChar w (first_char token))
      then bind_step (act (act_stderr (msg_unexpected_token token)))
             (fun _ => return_ false)
      else check_tokens w rest
  end.

Definition help_requested (w : World) : bool :=
  IsArgSet w "-?" || IsArgSet w "-h" || IsArgSet w "-help"
  || IsArgSet w "-version".

(** The [-daemon] clause. *)
Definition daemonize (w : World) : step unit :=
  bind_step (query (GetBoolArg_daemon w)) (fun fDaemon =>
  if fDaemon then
    if HAVE_DECL_DAEMON w then
      bind_step (act (act_stdout msg_starting)) (fun _ =>
      bind_step (act act_daemon) (fun _ =>
      if daemon w =? 0 then skip
      else bind_step (act (act_stderr msg_daemon_failed))
             (fun _ => return_ false)))
    else bind_step (act (act_stderr msg_daemon_unsupported))
           (fun _ => return_ false)
  else skip).

(** The body of the outer [try] block; its value is what is assigned to
    [fRet]. *)
Definition AppInit_try (w : World) (argv : list string) : step bool :=
  bind_step (query (is_directory_GetDataDir w)) (fun is_dir =>
  if negb is_dir
  then bind_step (act (act_stderr msg_no_datadir)) (fun _ => return_ false)
  else
  bind_step (catch_std (call act_ReadConfigFile (ReadConfigFile w))
               (bind_step (act (act_stderr msg_config_error))
                  (fun _ => return_ false))) (fun _ =>
  bind_step (catch_std (call act_SelectParams (SelectParams w))
               (bind_step (act (act_stderr msg_params_error))
                  (fun _ => return_ false))) (fun _ =>
  bind_step (check_tokens w (tl argv)) (fun _ =>
  bind_step (call act_SoftSetBoolArg (SoftSetBoolArg w)) (fun _ =>
  bind_step (call act_InitLogging (InitLogging w)) (fun _ =>
  bind_step (call act_InitParameterInteraction (InitParameterInteraction w))
    (fun _ =>
  bind_step (call act_AppInitBasicSetup (AppInitBasicSetup w)) (fun ok1 =>
  if negb ok1 then return_ false else
  bind_step (call act_AppInitParameterInteraction
               (AppInitParameterInteraction w)) (fun ok2 =>
  if negb ok2 then return_ false else
  bind_step (call act_AppInitSanityChecks (AppInitSanityChecks w)) (fun ok3 =>
  if negb ok3 then return_ false else
  bind_step (daemonize w) (fun _ =>
  bind_step (call act_AppInitLockDataDirectory (AppInitLockDataDirectory w))
    (fun ok4 =>
  if negb ok4 then return_ false else
  call act_AppInitMain (AppInitMain w))))))))))))).

(** What follows the [try] block: [fRet] decides between [Interrupt] and
    [WaitForShutdown]; then [Shutdown]. *)
Definition AppInit_finish (w : World) (fuel : nat) (fRet : bool) : step bool :=
  bind_step (if negb fRet then act act_Interrupt else WaitForShutdown w fuel)
    (fun _ =>
  bind_step (act act_Shutdown) (fun _ => return_ fRet)).

(** [bool AppInit(int argc, char* argv[])] *)
Definition AppInit_steps (w : World) (argv : list string) (fuel : nat)
  : step bool :=
  bind_step (act act_ParseParameters) (fun _ =>
  if help_requested w then
    bind_step (act (act_stdout (if IsArgSet w "-version"
                                then msg_version_license
                                else msg_version_usage)))
      (fun _ => return_ true)
  else
    match AppInit_try w argv with
    | (tr, normal fRet) => after tr (AppInit_finish w fuel fRet)
    | (tr, thrown_out e) =>
        after tr (bind_step (act (act_PrintExceptionContinue e))
                    (fun _ => AppInit_finish w fuel false))
    | r => r
    end).

(** The trace of a run of [AppInit] and the value it returns; [None] while
    [WaitForShutdown] is still running. *)
Definition AppInit (w : World) (argv : list string) (fuel : nat)
  : option (list action * bool) :=
  match AppInit_steps w argv fuel with
  | (tr, returned b) => Some (tr, b)
  | _ => None
  end.

(** [EXIT_SUCCESS] and [EXIT_FAILURE]. *)
Definition EXIT_SUCCESS : Z := 0.
Definition EXIT_FAILURE : Z := 1.

(** [int main(int argc, char* argv[])] *)
Definition main (w : World) (argv : list string) (fuel : nat)
  : option (list action * Z) :=
  match after [act_SetupEnvironment; act_noui_connect]
          (AppInit_steps w argv fuel) with
  | (tr, returned b) => Some (tr, if b then EXIT_SUCCESS else EXIT_FAILURE)
  | _ => None
  end.

(** The calls that end the node: [Interrupt] and [Shutdown]. *)
Definition is_cleanup (a : action) : bool :=
  match a with
  | act_Interrupt | act_Shutdown => true
  | _ => false
  end.

(** The run went as far as [AppInitMain], or met an exception that one
    of the outer handlers caught. *)
Definition passed_checks (a : action) : bool :=
  match a with
  | act_AppInitMain | act_PrintExceptionContinue _ => true
  | _ => false
  end.

(** Every check that stands before [AppInitMain] succeeds. *)
Definition checks_pass (w : World) (argv : list string) : Prop :=
  is_directory_GetDataDir w = returns true
  /\ ReadConfigFile w = returns tt
  /\ SelectParams w = returns tt
  /\ Forall (fun token => IsSwitchChar w (first_char token) = true) (tl argv)
  /\ (exists b, SoftSetBoolArg w = returns b)
  /\ InitLogging w = returns tt
  /\ InitParameterInteraction w = returns tt
  /\ AppInitBasicSetup w = returns true
  /\ AppInitParameterInteraction w = returns true
  /\ AppInitSanityChecks w = returns true
  /\ (GetBoolArg_daemon w = returns false
      \/ (GetBoolArg_daemon w = returns true
          /\ HAVE_DECL_DAEMON w = true /\ daemon w = 0))
  /\ AppInitLockDataDirectory w = returns true.

(** A world in which every stage of the initialisation succeeds and the
    shutdown is requested at the third poll, and the arguments of a plain
    start. *)
Definition sample_world : World :=
  {| IsArgSet := fun _ => false;
     is_directory_GetDataDir := returns true;
     ReadConfigFile := returns tt;
     SelectParams := returns tt;
     IsSwitchChar := fun c => Ascii.eqb c "-"%char;
     SoftSetBoolArg := returns true;
     InitLogging := returns tt;
     InitParameterInteraction := returns tt;
     AppInitBasicSetup := returns true;
     AppInitParameterInteraction := returns true;
     AppInitSanityChecks := returns true;
     GetBoolArg_daemon := returns false;
     HAVE_DECL_DAEMON := true;
     daemon := 0;
     AppInitLockDataDirectory := returns true;
     AppInitMain := returns true;
     ShutdownRequested := fun n => (2 <=? n)%nat |}.

Definition sample_argv : list string := ["bitcoind"%string; "-server"%string; "-txindex"%string].

End Daemon.

Arguments returns {A} a.
Arguments throws {A} e.
Arguments normal {A} a.
Arguments returned {A} b.
Arguments thrown_out {A} e.
Arguments unfinished {A}.

(* ===================================================================== *)
(** * Part II: properties                                                 *)
(* ===================================================================== *)

(** ** Binary digits and shifts *)

Lemma fexp_eq (x : Z) : fexp prec emax x = Z.max (x - 53) (-1074).
Proof. reflexivity. Qed.

Lemma digits2_pos_bounds (p : positive) :
  2 ^ (Zpos (digits2_pos p) - 1) <= Zpos p < 2 ^ Zpos (digits2_pos p).
Proof.
  induction p as [p IH | p IH | ]; simpl digits2_pos.
  - rewrite Pos2Z.inj_succ.
    replace (Z.succ (Zpos (digits2_pos p)) - 1) with (Zpos (digits2_pos p)) by lia.
    rewrite Z.pow_succ_r by lia.
    assert (H : 2 ^ Zpos (digits2_pos p) = 2 * 2 ^ (Zpos (digits2_pos p) - 1)).
    { rewrite <- Z.pow_succ_r by lia. f_equal. lia. }
    lia.
  - rewrite Pos2Z.inj_succ.
    replace (Z.succ (Zpos (digits2_pos p)) - 1) with (Zpos (digits2_pos p)) by lia.
    rewrite Z.pow_succ_r by lia.
    assert (H : 2 ^ Zpos (digits2_pos p) = 2 * 2 ^ (Zpos (digits2_pos p) - 1)).
    { rewrite <- Z.pow_succ_r by lia. f_equal. lia. }
    lia.
  - simpl. lia.
Qed.

(** The number of binary digits is determined by the enclosing powers of two. *)
Lemma digits2_pos_unique (p : positive) (d : Z) :
  2 ^ (d - 1) <= Zpos p < 2 ^ d -> Zpos (digits2_pos p) = d.
Proof.
  intros [Hlo Hhi].
  pose proof (digits2_pos_bounds p) as [Blo Bhi].
  set (k := Zpos (digits2_pos p)) in *.
  assert (0 < k) by (subst k; lia).
  destruct (Z.lt_trichotomy k d) as [Hlt | [Heq | Hgt]]; [ | exact Heq | ].
  - exfalso. assert (2 ^ k <= 2 ^ (d - 1)) by (apply Z.pow_le_mono_r; lia). lia.
  - exfalso.
    assert (0 <= d \/ d < 0) as [Hd | Hd] by lia.
    + assert (2 ^ d <= 2 ^ (k - 1)) by (apply Z.pow_le_mono_r; lia). lia.
    + rewrite (Z.pow_neg_r 2 d) in Hhi by lia. lia.
Qed.

Lemma shr_1_nonneg (m : Z) (r s : bool) :
  0 <= m ->
  shr_1 {| shr_m := m; shr_r := r; shr_s := s |} =
  {| shr_m := m / 2; shr_r := Z.odd m; shr_s := r || s |}.
Proof.
  intros Hm. rewrite <- Z.div2_div.
  destruct m as [ | [p | p | ] | p]; try reflexivity; lia.
Qed.

Lemma iter_pos_nat {A : Type} (f : A -> A) (p : positive) (x : A) :
  iter_pos f p x = Nat.iter (Pos.to_nat p) f x.
Proof.
  revert x. induction p as [p IH | p IH | ]; intros x; simpl iter_pos.
  - rewrite !IH. rewrite Pos2Nat.inj_xI.
    replace (S (2 * Pos.to_nat p))%nat with (Pos.to_nat p + (Pos.to_nat p + 1))%nat by lia.
    rewrite !Nat.iter_add. reflexivity.
  - rewrite !IH. rewrite Pos2Nat.inj_xO.
    replace (2 * Pos.to_nat p)%nat with (Pos.to_nat p + Pos.to_nat p)%nat by lia.
    rewrite Nat.iter_add. reflexivity.
  - reflexivity.
Qed.

Lemma low_bits_zero (m k : Z) :
  0 <= k ->
  (m mod 2 ^ (k + 1) =? 0) = negb (Z.testbit m k) && (m mod 2 ^ k =? 0).
Proof.
  intros Hk.
  rewrite Z.pow_add_r, Z.pow_1_r by lia.
  assert (H2k : 0 < 2 ^ k) by (apply Z.pow_pos_nonneg; lia).
  rewrite Z.rem_mul_r by lia.
  rewrite Z.testbit_odd, Z.shiftr_div_pow2 by lia.
  rewrite Zmod_odd.
  pose proof (Z.mod_pos_bound m (2 ^ k) H2k).
  destruct (Z.odd (m / 2 ^ k)); simpl.
  - apply Z.eqb_neq. lia.
  - rewrite Z.mul_0_r, Z.add_0_r. reflexivity.
Qed.

Lemma shr_iter_nat (m : Z) (k : nat) :
  0 <= m ->
  Nat.iter (S k) shr_1 {| shr_m := m; shr_r := false; shr_s := false |} =
  {| shr_m := m / 2 ^ Z.of_nat (S k);
     shr_r := Z.testbit m (Z.of_nat k);
     shr_s := negb (m mod 2 ^ Z.of_nat k =? 0) |}.
Proof.
  intros Hm. induction k as [ | k IH].
  - change (Nat.iter 1 shr_1 ?x) with (shr_1 x).
    rewrite shr_1_nonneg by assumption.
    change (Z.of_nat 1) with 1. change (Z.of_nat 0) with 0.
    rewrite Z.pow_1_r, Z.pow_0_r, Z.mod_1_r. simpl. reflexivity.
  - change (Nat.iter (S (S k)) shr_1 ?x) with (shr_1 (Nat.iter (S k) shr_1 x)).
    rewrite IH.
    rewrite shr_1_nonneg by (apply Z.div_pos; [assumption | apply Z.pow_pos_nonneg; lia]).
    f_equal.
    + rewrite Z.div_div by (try apply Z.pow_pos_nonneg; lia).
      f_equal. rewrite (Nat2Z.inj_succ (S k)), Z.pow_succ_r by lia. lia.
    + rewrite Z.testbit_odd, Z.shiftr_div_pow2 by lia. reflexivity.
    + rewrite (Nat2Z.inj_succ k). unfold Z.succ.
      rewrite low_bits_zero by lia.
      rewrite negb_andb, negb_involutive. reflexivity.
Qed.

Lemma pow2_pred (n : Z) : 0 < n -> 2 ^ n = 2 * 2 ^ (n - 1).
Proof.
  intros Hn. rewrite <- (Z.pow_succ_r 2 (n - 1)) by lia. f_equal. lia.
Qed.

Lemma pow2_pos (n : Z) : 0 <= n -> 0 < 2 ^ n.
Proof. intros. apply Z.pow_pos_nonneg; lia. Qed.

Lemma testbit_high_half (m n : Z) :
  0 < n -> 0 <= m ->
  Z.testbit m (n - 1) = (2 ^ (n - 1) <=? m mod 2 ^ n).
Proof.
  intros Hn Hm.
  assert (H2 : 0 < 2 ^ (n - 1)) by (apply Z.pow_pos_nonneg; lia).
  rewrite (pow2_pred n Hn), (Z.mul_comm 2).
  rewrite Z.rem_mul_r by lia.
  rewrite Z.testbit_odd, Z.shiftr_div_pow2 by lia.
  rewrite Zmod_odd.
  pose proof (Z.mod_pos_bound m (2 ^ (n - 1)) H2).
  destruct (Z.odd (m / 2 ^ (n - 1))); symmetry.
  - apply Z.leb_le. lia.
  - apply Z.leb_gt. lia.
Qed.

Lemma low_half_mod (m n : Z) :
  0 < n ->
  m mod 2 ^ (n - 1) = (m mod 2 ^ n) mod 2 ^ (n - 1).
Proof.
  intros Hn.
  assert (H2 : 0 < 2 ^ (n - 1)) by (apply Z.pow_pos_nonneg; lia).
  rewrite (pow2_pred n Hn), (Z.mul_comm 2).
  rewrite Z.rem_mul_r by lia.
  rewrite Z.mul_comm, Z.mod_add by lia.
  rewrite Z.mod_mod by lia. reflexivity.
Qed.

Lemma shr_round (m e : Z) (p : positive) :
  0 <= m ->
  let '(mrs, e') := shr {| shr_m := m; shr_r := false; shr_s := false |} e (Zpos p) in
  round_nearest_even (shr_m mrs) (loc_of_shr_record mrs) = rne m (Zpos p)
  /\ e' = e + Zpos p.
Proof.
  intros Hm. unfold shr. split; [ | reflexivity].
  rewrite iter_pos_nat.
  destruct (Pos.to_nat p) as [ | k] eqn:Ek; [lia | ].
  rewrite shr_iter_nat by assumption.
  assert (EZ : Zpos p = Z.of_nat (S k)) by lia.
  rewrite <- EZ.
  replace (Z.of_nat k) with (Zpos p - 1) by lia.
  set (n := Zpos p) in *.
  assert (Hn : 0 < n) by (subst n; lia).
  unfold rne. replace (n <=? 0) with false by (symmetry; apply Z.leb_gt; lia).
  rewrite testbit_high_half by lia.
  rewrite (low_half_mod m n) by lia.
  assert (H2 : 0 < 2 ^ (n - 1)) by (apply Z.pow_pos_nonneg; lia).
  pose proof (pow2_pred n Hn) as H2n.
  pose proof (Z.mod_pos_bound m (2 ^ n) ltac:(lia)) as HR.
  set (R := m mod 2 ^ n) in *. set (H := 2 ^ (n - 1)) in *.
  cbn [shr_m loc_of_shr_record].
  destruct (Z.compare_spec R H) as [HE | HL | HG].
  - subst R. rewrite HE. rewrite Z.leb_refl, Z.mod_same by lia.
    simpl. reflexivity.
  - replace (H <=? R) with false by (symmetry; apply Z.leb_gt; lia).
    rewrite Z.mod_small by lia.
    destruct (R =? 0); reflexivity.
  - replace (H <=? R) with true by (symmetry; apply Z.leb_le; lia).
    replace (R mod H =? 0) with false; [reflexivity | ].
    symmetry. apply Z.eqb_neq.
    replace R with ((R - H) + 1 * H) by lia.
    rewrite Z.mod_add by lia. rewrite Z.mod_small by lia. lia.
Qed.

(** ** Rounding to nearest even *)

Lemma rne_bounds (m n : Z) :
  0 < n -> m / 2 ^ n <= rne m n <= m / 2 ^ n + 1.
Proof.
  intros Hn. unfold rne.
  replace (n <=? 0) with false by (symmetry; apply Z.leb_gt; lia).
  destruct (m mod 2 ^ n ?= 2 ^ (n - 1)); [destruct (Z.even _) | | ]; lia.
Qed.

Lemma rne_error (m n : Z) :
  0 < n -> 2 * m - 2 ^ n <= 2 * (rne m n * 2 ^ n) <= 2 * m + 2 ^ n.
Proof.
  intros Hn. unfold rne.
  replace (n <=? 0) with false by (symmetry; apply Z.leb_gt; lia).
  pose proof (pow2_pos n ltac:(lia)) as H2.
  pose proof (pow2_pred n Hn) as H2n.
  pose proof (Z.div_mod m (2 ^ n) ltac:(lia)) as Hdm.
  pose proof (Z.mod_pos_bound m (2 ^ n) H2) as HR.
  destruct (Z.compare_spec (m mod 2 ^ n) (2 ^ (n - 1))); [destruct (Z.even _) | | ]; nia.
Qed.

Lemma rne_exact (m n : Z) :
  m mod 2 ^ n = 0 -> rne m n * 2 ^ n = m.
Proof.
  intros Hmod. unfold rne.
  destruct (Z.leb_spec n 0) as [Hn | Hn].
  - assert (n = 0 \/ n < 0) as [-> | Hneg] by lia.
    + rewrite Z.pow_0_r. lia.
    + rewrite Z.pow_neg_r in * by lia. rewrite Z.mod_0_r in Hmod. lia.
  - pose proof (pow2_pos n ltac:(lia)) as H2.
    pose proof (pow2_pos (n - 1) ltac:(lia)) as H2'.
    pose proof (Z.div_mod m (2 ^ n) ltac:(lia)) as Hdm.
    rewrite Hmod.
    destruct (Z.compare_spec 0 (2 ^ (n - 1))); lia.
Qed.

Lemma rne_nonneg (m n : Z) : 0 <= m -> 0 <= rne m n.
Proof.
  intros Hm. destruct (Z.leb_spec n 0) as [Hn | Hn].
  - unfold rne. replace (n <=? 0) with true by (symmetry; apply Z.leb_le; lia). lia.
  - pose proof (rne_bounds m n Hn).
    assert (0 <= m / 2 ^ n) by (apply Z.div_pos; [lia | apply pow2_pos; lia]).
    lia.
Qed.

(** The second alignment of [binary_round_aux]: it only acts when the
    rounding carried into a 54th digit. *)
Lemma renormalize (q s0 : Z) :
  0 <= q <= 2 ^ 53 -> -1074 <= s0 ->
  let '(mrs, e) := shr_fexp prec emax q s0 loc_Exact in
  (shr_m mrs, e) = if q =? 2 ^ 53 then (2 ^ 52, s0 + 1) else (q, s0).
Proof.
  intros Hq Hs. unfold shr_fexp. rewrite fexp_eq.
  destruct (Z.eqb_spec q (2 ^ 53)) as [-> | Hne].
  - change (Zdigits2 (2 ^ 53)) with 54.
    replace (Z.max (54 + s0 - 53) (-1074) - s0) with 1 by lia.
    reflexivity.
  - assert (Hd : Zdigits2 q <= 53).
    { destruct q as [ | p | p]; simpl Zdigits2; try lia.
      pose proof (digits2_pos_bounds p) as [Blo _].
      destruct (Z_le_gt_dec (Zpos (digits2_pos p)) 53) as [ | Hgt]; [assumption | exfalso].
      assert (2 ^ 53 <= 2 ^ (Zpos (digits2_pos p) - 1)) by (apply Z.pow_le_mono_r; lia).
      lia. }
    destruct (Z.max (Zdigits2 q + s0 - 53) (-1074) - s0) as [ | p | p] eqn:En;
      try reflexivity; lia.
Qed.

(** What [binary_round_aux] computes from an exact positive mantissa that
    has at least as many digits as the format keeps. *)
Lemma binary_round_aux_spec (sg : bool) (P : positive) (E : Z) :
  let s0 := fexp prec emax (Zpos (digits2_pos P) + E) in
  E <= s0 ->
  binary_round_aux prec emax sg (Zpos P) E loc_Exact =
  let q := rne (Zpos P) (s0 - E) in
  if q =? 0 then S754_zero sg
  else if q =? 2 ^ 53
       then if s0 + 1 <=? 971
            then S754_finite sg (Z.to_pos (2 ^ 52)) (s0 + 1)
            else S754_infinity sg
       else if s0 <=? 971
            then S754_finite sg (Z.to_pos q) s0
            else S754_infinity sg.
Proof.
  intros s0 HE.
  assert (Hs0 : s0 = Z.max (Zpos (digits2_pos P) + E - 53) (-1074)) by reflexivity.
  pose proof (digits2_pos_bounds P) as [_ Bhi].
  set (d := Zpos (digits2_pos P)) in *.
  (* the rounded mantissa has at most 53 digits, or is 2^53 *)
  assert (Hq : 0 <= rne (Zpos P) (s0 - E) <= 2 ^ 53).
  { split; [apply rne_nonneg; lia | ].
    destruct (Z.eq_dec s0 E) as [Heq | Hne].
    - unfold rne. replace (s0 - E <=? 0) with true by (symmetry; apply Z.leb_le; lia).
      assert (2 ^ d <= 2 ^ 53) by (apply Z.pow_le_mono_r; lia). lia.
    - pose proof (rne_bounds (Zpos P) (s0 - E) ltac:(lia)).
      assert (Zpos P / 2 ^ (s0 - E) < 2 ^ 53); [ | lia].
      apply Z.div_lt_upper_bound; [apply pow2_pos; lia | ].
      rewrite <- Z.pow_add_r by lia.
      assert (2 ^ d <= 2 ^ (s0 - E + 53)) by (apply Z.pow_le_mono_r; lia). lia. }
  unfold binary_round_aux.
  assert (Hfirst :
    let '(mrs, e') := shr_fexp prec emax (Zpos P) E loc_Exact in
    round_nearest_even (shr_m mrs) (loc_of_shr_record mrs) = rne (Zpos P) (s0 - E)
    /\ e' = s0).
  { unfold shr_fexp. cbn [Zdigits2 shr_record_of_loc]. fold d. fold s0.
    destruct (s0 - E) as [ | p | p] eqn:En; [ | | lia].
    - simpl. split; [reflexivity | lia].
    - pose proof (shr_round (Zpos P) E p ltac:(lia)) as Hsr.
      destruct (shr _ E (Zpos p)) as [mrs e']. destruct Hsr as [Hr He].
      split; [assumption | lia]. }
  destruct (shr_fexp prec emax (Zpos P) E loc_Exact) as [mrs e'].
  destruct Hfirst as [-> ->].
  set (q := rne (Zpos P) (s0 - E)) in *.
  pose proof (renormalize q s0 Hq ltac:(lia)) as Hsecond.
  destruct (shr_fexp prec emax q s0 loc_Exact) as [mrs'' e''].
  cbv zeta.
  destruct (Z.eqb_spec q (2 ^ 53)) as [Hq53 | Hq53].
  - injection Hsecond as -> ->.
    replace (q =? 0) with false by (symmetry; apply Z.eqb_neq; lia).
    reflexivity.
  - injection Hsecond as -> ->.
    destruct q as [ | p | p]; [reflexivity | | lia].
    simpl Z.eqb. rewrite Pos2Z.id. reflexivity.
Qed.

(** ** Canonical doubles and their order *)

Lemma valid_finite_inv (s : bool) (m : positive) (e : Z) :
  valid_binary prec emax (S754_finite s m e) = true ->
  e = Z.max (Zpos (digits2_pos m) + e - 53) (-1074) /\ e <= 971.
Proof.
  unfold valid_binary, bounded, canonical_mantissa. rewrite fexp_eq.
  intros H. apply andb_true_iff in H as [H1 H2].
  apply Z.eqb_eq in H1. apply Z.leb_le in H2.
  change (emax - prec) with 971 in H2. lia.
Qed.

Lemma valid_finite_intro (s : bool) (m : positive) (e : Z) :
  e = Z.max (Zpos (digits2_pos m) + e - 53) (-1074) -> e <= 971 ->
  valid_binary prec emax (S754_finite s m e) = true.
Proof.
  intros H1 H2.
  unfold valid_binary, bounded, canonical_mantissa. rewrite fexp_eq.
  apply andb_true_iff. split; [apply Z.eqb_eq; lia | apply Z.leb_le].
  change (emax - prec) with 971. lia.
Qed.

(** The order of canonical doubles is the order of their values. *)
Lemma canonical_lt (m1 m2 : positive) (e1 e2 : Z) :
  e1 = Z.max (Zpos (digits2_pos m1) + e1 - 53) (-1074) ->
  e2 = Z.max (Zpos (digits2_pos m2) + e2 - 53) (-1074) ->
  e1 < e2 ->
  Zpos m1 * 2 ^ (e1 + 1074) < Zpos m2 * 2 ^ (e2 + 1074).
Proof.
  intros C1 C2 Hlt.
  pose proof (digits2_pos_bounds m1) as [_ B1].
  pose proof (digits2_pos_bounds m2) as [B2 _].
  assert (D2 : Zpos (digits2_pos m2) = 53) by lia.
  rewrite D2 in B2. change (2 ^ (53 - 1)) with (2 ^ 52) in B2.
  assert (H1 : Zpos m1 < 2 ^ 53).
  { assert (2 ^ Zpos (digits2_pos m1) <= 2 ^ 53) by (apply Z.pow_le_mono_r; lia). lia. }
  pose proof (pow2_pos (e1 + 1074) ltac:(lia)) as P1.
  assert (P2 : 2 * 2 ^ (e1 + 1074) <= 2 ^ (e2 + 1074)).
  { rewrite <- Z.pow_succ_r by lia. apply Z.pow_le_mono_r; lia. }
  change (2 ^ 53) with (2 * 2 ^ 52) in H1.
  nia.
Qed.

Lemma SFcompare_scaled (x y : double) :
  wf_double x -> wf_double y ->
  SFcompare x y = Some (scaled x ?= scaled y).
Proof.
  intros [Vx Fx] [Vy Fy].
  destruct x as [sx | sx | | sx mx ex]; try discriminate Fx;
  destruct y as [sy | sy | | sy my ey]; try discriminate Fy.
  - reflexivity.
  - apply valid_finite_inv in Vy as [Cy _].
    pose proof (pow2_pos (ey + 1074) ltac:(lia)).
    destruct sy; cbn [SFcompare scaled cond_Zopp]; f_equal; symmetry.
    + apply Z.compare_gt_iff. lia.
    + apply Z.compare_lt_iff. lia.
  - apply valid_finite_inv in Vx as [Cx _].
    pose proof (pow2_pos (ex + 1074) ltac:(lia)).
    destruct sx; cbn [SFcompare scaled cond_Zopp]; f_equal; symmetry.
    + apply Z.compare_lt_iff. lia.
    + apply Z.compare_gt_iff. lia.
  - apply valid_finite_inv in Vx as [Cx _].
    apply valid_finite_inv in Vy as [Cy _].
    pose proof (pow2_pos (ex + 1074) ltac:(lia)) as Px.
    pose proof (pow2_pos (ey + 1074) ltac:(lia)) as Py.
    assert (Hsame : forall c, ex = ey ->
              (Zpos mx * 2 ^ (ex + 1074) ?= Zpos my * 2 ^ (ey + 1074)) = c ->
              Pos.compare_cont Eq mx my = c).
    { intros c -> <-. change (Pos.compare_cont Eq mx my) with (Zpos mx ?= Zpos my).
      apply Zmult_compare_compat_r. lia. }
    destruct sx, sy; cbn [SFcompare scaled cond_Zopp]; f_equal.
    + (* both negative *)
      destruct (Z.compare_spec ex ey) as [He | He | He].
      * rewrite (Hsame _ He eq_refl), Z.compare_opp. symmetry. apply Z.compare_antisym.
      * symmetry. apply Z.compare_gt_iff.
        pose proof (canonical_lt mx my ex ey Cx Cy He). lia.
      * symmetry. apply Z.compare_lt_iff.
        pose proof (canonical_lt my mx ey ex Cy Cx He). lia.
    + symmetry. apply Z.compare_lt_iff. lia.
    + symmetry. apply Z.compare_gt_iff. lia.
    + destruct (Z.compare_spec ex ey) as [He | He | He].
      * apply (Hsame _ He eq_refl).
      * symmetry. apply Z.compare_lt_iff. apply canonical_lt; assumption.
      * symmetry. apply Z.compare_gt_iff. apply canonical_lt; assumption.
Qed.

Lemma deqb_scaled (x y : double) :
  wf_double x -> wf_double y -> deqb x y = (scaled x =? scaled y).
Proof.
  intros Hx Hy. unfold deqb, SFeqb. rewrite (SFcompare_scaled x y Hx Hy).
  rewrite Z.eqb_compare. destruct (scaled x ?= scaled y); reflexivity.
Qed.

Lemma dltb_scaled (x y : double) :
  wf_double x -> wf_double y -> dltb x y = (scaled x <? scaled y).
Proof.
  intros Hx Hy. unfold dltb, SFltb. rewrite (SFcompare_scaled x y Hx Hy).
  unfold Z.ltb. destruct (scaled x ?= scaled y); reflexivity.
Qed.

Lemma dgtb_scaled (x y : double) :
  wf_double x -> wf_double y -> dgtb x y = (scaled y <? scaled x).
Proof. intros Hx Hy. unfold dgtb. apply (dltb_scaled y x Hy Hx). Qed.

(** Size of the mantissa that [binary_round_aux] keeps. *)
Lemma rne_mantissa (P : positive) (E : Z) :
  let s0 := fexp prec emax (Zpos (digits2_pos P) + E) in
  E <= s0 ->
  0 <= rne (Zpos P) (s0 - E) <= 2 ^ 53
  /\ (-1074 < s0 -> 2 ^ 52 <= rne (Zpos P) (s0 - E)).
Proof.
  intros s0 HE.
  assert (Hs0 : s0 = Z.max (Zpos (digits2_pos P) + E - 53) (-1074)) by reflexivity.
  pose proof (digits2_pos_bounds P) as [Blo Bhi].
  set (d := Zpos (digits2_pos P)) in *.
  destruct (Z.eq_dec s0 E) as [Heq | Hne].
  - unfold rne. replace (s0 - E <=? 0) with true by (symmetry; apply Z.leb_le; lia).
    assert (2 ^ d <= 2 ^ 53) by (apply Z.pow_le_mono_r; lia).
    split; [lia | ]. intros Hn.
    assert (2 ^ 52 <= 2 ^ (d - 1)) by (apply Z.pow_le_mono_r; lia). lia.
  - pose proof (rne_bounds (Zpos P) (s0 - E) ltac:(lia)) as Hb.
    pose proof (pow2_pos (s0 - E) ltac:(lia)) as H2.
    split; [split | ].
    + apply rne_nonneg. lia.
    + assert (Zpos P / 2 ^ (s0 - E) < 2 ^ 53); [ | lia].
      apply Z.div_lt_upper_bound; [assumption | ].
      rewrite <- Z.pow_add_r by lia.
      assert (2 ^ d <= 2 ^ (s0 - E + 53)) by (apply Z.pow_le_mono_r; lia). lia.
    + intros Hn.
      assert (2 ^ 52 <= Zpos P / 2 ^ (s0 - E)); [ | lia].
      apply Z.div_le_lower_bound; [assumption | ].
      rewrite <- Z.pow_add_r by lia.
      replace (s0 - E + 52) with (d - 1) by lia. assumption.
Qed.

Lemma digits_of_53 (q : Z) :
  0 < q < 2 ^ 53 ->
  Zpos (digits2_pos (Z.to_pos q)) <= 53
  /\ (2 ^ 52 <= q -> Zpos (digits2_pos (Z.to_pos q)) = 53).
Proof.
  intros Hq.
  pose proof (digits2_pos_bounds (Z.to_pos q)) as [Blo Bhi].
  rewrite Z2Pos.id in Blo, Bhi by lia.
  set (d := Zpos (digits2_pos (Z.to_pos q))) in *.
  assert (Hd : d <= 53).
  { destruct (Z_le_gt_dec d 53) as [ | Hgt]; [assumption | exfalso].
    assert (2 ^ 53 <= 2 ^ (d - 1)) by (apply Z.pow_le_mono_r; lia). lia. }
  split; [assumption | intros Hlo].
  destruct (Z.eq_dec d 53) as [ | Hne]; [assumption | exfalso].
  assert (2 ^ d <= 2 ^ 52) by (apply Z.pow_le_mono_r; subst d; lia). lia.
Qed.

(** The result of [binary_round_aux] is canonical and its value is the
    rounded mantissa at the exponent of the format. *)
Lemma binary_round_aux_wf (sg : bool) (P : positive) (E : Z) :
  let s0 := fexp prec emax (Zpos (digits2_pos P) + E) in
  E <= s0 -> s0 <= 970 ->
  wf_double (binary_round_aux prec emax sg (Zpos P) E loc_Exact)
  /\ scaled (binary_round_aux prec emax sg (Zpos P) E loc_Exact)
     = cond_Zopp sg (rne (Zpos P) (s0 - E) * 2 ^ (s0 + 1074)).
Proof.
  intros s0 HE Hmax.
  rewrite (binary_round_aux_spec sg P E HE). fold s0. cbv zeta.
  pose proof (rne_mantissa P E HE) as [Hq Hnormal]. fold s0 in Hq, Hnormal.
  assert (Hs0 : -1074 <= s0) by (unfold s0; rewrite fexp_eq; lia).
  set (q := rne (Zpos P) (s0 - E)) in *.
  destruct (Z.eqb_spec q 0) as [Hq0 | Hq0].
  - rewrite Hq0. split; [split; reflexivity | ]. destruct sg; reflexivity.
  - destruct (Z.eqb_spec q (2 ^ 53)) as [Hq53 | Hq53].
    + replace (s0 + 1 <=? 971) with true by (symmetry; apply Z.leb_le; lia).
      split; [split; [ | reflexivity] | ].
      * apply valid_finite_intro; [ | lia].
        change (Zpos (digits2_pos (Z.to_pos (2 ^ 52)))) with 53. lia.
      * cbn [scaled]. f_equal. rewrite Hq53.
        change (Zpos (Z.to_pos (2 ^ 52))) with (2 ^ 52).
        replace (s0 + 1 + 1074) with (Z.succ (s0 + 1074)) by lia.
        rewrite Z.pow_succ_r by lia. change (2 ^ 53) with (2 ^ 52 * 2). ring.
    + replace (s0 <=? 971) with true by (symmetry; apply Z.leb_le; lia).
      pose proof (digits_of_53 q ltac:(lia)) as [Hd Hd53].
      split; [split; [ | reflexivity] | ].
      * apply valid_finite_intro; [ | lia].
        destruct (Z.eq_dec s0 (-1074)) as [Hsub | Hnorm]; [lia | ].
        rewrite Hd53 by (apply Hnormal; lia). lia.
      * cbn [scaled]. rewrite Z2Pos.id by lia. reflexivity.
Qed.

(** When the discarded bits are all zero the result is exact. *)
Lemma binary_round_aux_exact (sg : bool) (P : positive) (E : Z) :
  let s0 := fexp prec emax (Zpos (digits2_pos P) + E) in
  E <= s0 -> s0 <= 970 -> -1074 <= E ->
  Zpos P mod 2 ^ (s0 - E) = 0 ->
  wf_double (binary_round_aux prec emax sg (Zpos P) E loc_Exact)
  /\ scaled (binary_round_aux prec emax sg (Zpos P) E loc_Exact)
     = cond_Zopp sg (Zpos P * 2 ^ (E + 1074)).
Proof.
  intros s0 HE Hmax Hmin Hmod.
  pose proof (binary_round_aux_wf sg P E HE Hmax) as [Hwf Hsc]. fold s0 in Hsc.
  split; [assumption | ]. rewrite Hsc. f_equal.
  rewrite <- (rne_exact (Zpos P) (s0 - E) Hmod) at 2.
  rewrite <- Z.mul_assoc, <- Z.pow_add_r by lia.
  do 2 f_equal. lia.
Qed.

(** ** Conversion of integers *)

Lemma iter_xO (m p : positive) :
  Zpos (Pos.iter xO m p) = Zpos m * 2 ^ Zpos p.
Proof.
  induction p as [ | p IH] using Pos.peano_ind.
  - simpl. lia.
  - rewrite Pos.iter_succ, Pos2Z.inj_xO, IH, Pos2Z.inj_succ, Z.pow_succ_r by lia.
    ring.
Qed.

Lemma digits_shift (m : positive) (k : Z) (P : positive) :
  0 <= k -> Zpos P = Zpos m * 2 ^ k ->
  Zpos (digits2_pos P) = Zpos (digits2_pos m) + k.
Proof.
  intros Hk HP. apply digits2_pos_unique. rewrite HP.
  pose proof (digits2_pos_bounds m) as [Blo Bhi].
  pose proof (pow2_pos k Hk) as H2.
  replace (Zpos (digits2_pos m) + k - 1) with (Zpos (digits2_pos m) - 1 + k) by lia.
  rewrite !Z.pow_add_r by lia. nia.
Qed.

Lemma shl_align_spec (mx : positive) (ex ex' : Z) :
  let '(mz, ez) := shl_align mx ex ex' in
  ez = Z.min ex ex' /\ Zpos mz = Zpos mx * 2 ^ (ex - ez).
Proof.
  unfold shl_align.
  destruct (ex' - ex) as [ | d | d] eqn:Ed.
  - split; [lia | ]. rewrite Z.sub_diag. simpl. lia.
  - split; [lia | ]. rewrite Z.sub_diag. simpl. lia.
  - split; [lia | ]. rewrite iter_xO. do 2 f_equal. lia.
Qed.

(** [binary_round] aligns the mantissa and then rounds it. *)
Lemma binary_round_spec (sg : bool) (mx : positive) (ex : Z) :
  let s0 := fexp prec emax (Zpos (digits2_pos mx) + ex) in
  exists (P : positive) (E : Z),
    binary_round prec emax sg mx ex
      = binary_round_aux prec emax sg (Zpos P) E loc_Exact
    /\ E = Z.min ex s0
    /\ Zpos P = Zpos mx * 2 ^ (ex - E)
    /\ fexp prec emax (Zpos (digits2_pos P) + E) = s0.
Proof.
  intros s0. unfold binary_round. fold s0.
  pose proof (shl_align_spec mx ex s0) as Hal.
  destruct (shl_align mx ex s0) as [mz ez]. destruct Hal as [Hez Hmz].
  exists mz, ez. repeat split; try assumption.
  rewrite (digits_shift mx (ex - ez) mz) by (assumption || lia).
  unfold s0. f_equal. lia.
Qed.

(** Integers of magnitude up to [2^53] convert to [double] exactly. *)
Lemma double_of_Z_represents (z : Z) :
  Z.abs z <= 2 ^ 53 -> represents (double_of_Z z) z.
Proof.
  intros Hz. unfold represents.
  assert (Hgen : forall (sg : bool) (m : positive),
            Zpos m <= 2 ^ 53 ->
            wf_double (binary_round prec emax sg m 0)
            /\ scaled (binary_round prec emax sg m 0)
               = cond_Zopp sg (Zpos m * 2 ^ 1074)).
  { intros sg m Hm.
    destruct (binary_round_spec sg m 0) as (P & E & -> & HE & HP & Hs0).
    rewrite fexp_eq in HE. rewrite Z.add_0_r in HE, Hs0.
    pose proof (digits2_pos_bounds m) as [Blo Bhi].
    set (d := Zpos (digits2_pos m)) in *.
    assert (Hd : 0 < d <= 54).
    { split; [subst d; lia | ].
      destruct (Z_le_gt_dec d 54) as [ | Hgt]; [assumption | exfalso].
      assert (2 ^ 54 <= 2 ^ (d - 1)) by (apply Z.pow_le_mono_r; lia). lia. }
    assert (Hs0' : fexp prec emax (Zpos (digits2_pos P) + E) = d - 53)
      by (rewrite Hs0, fexp_eq; lia).
    assert (Hexact :
      wf_double (binary_round_aux prec emax sg (Zpos P) E loc_Exact)
      /\ scaled (binary_round_aux prec emax sg (Zpos P) E loc_Exact)
         = cond_Zopp sg (Zpos P * 2 ^ (E + 1074))).
    { apply binary_round_aux_exact; rewrite ?Hs0'; try lia.
      destruct (Z.eq_dec d 54) as [H54 | H54].
      - (* the only integer with 54 digits in range is 2^53 *)
        replace (d - 53 - E) with 1 by lia.
        assert (Zpos m = 2 ^ 53).
        { rewrite H54 in Blo. change (2 ^ (54 - 1)) with (2 ^ 53) in Blo. lia. }
        replace E with 0 in HP by lia. rewrite HP. replace (Zpos m) with (2 ^ 53).
        reflexivity.
      - replace (d - 53 - E) with 0 by lia. apply Z.mod_1_r. }
    destruct Hexact as [Hwf Hsc]. split; [assumption | ].
    rewrite Hsc. f_equal. rewrite HP, <- Z.mul_assoc, <- Z.pow_add_r by lia.
    do 2 f_equal. lia. }
  destruct z as [ | m | m].
  - split; [split; reflexivity | reflexivity].
  - destruct (Hgen false m ltac:(lia)) as [Hwf Hsc]. split; assumption.
  - destruct (Hgen true m ltac:(lia)) as [Hwf Hsc]. split; [assumption | ].
    unfold double_of_Z, binary_normalize. rewrite Hsc. simpl cond_Zopp. lia.
Qed.

(** The conversion on the first integers that [double] cannot hold. *)
Example double_of_Z_exact_to_2_53 :
  double_of_Z (2 ^ 53) = S754_finite false (2 ^ 52) 1
  /\ double_of_Z (2 ^ 53 - 1) = S754_finite false (2 ^ 53 - 1) 0.
Proof. split; reflexivity. Qed.

Example double_of_Z_ties_to_even :
  double_of_Z (2 ^ 53 + 1) = double_of_Z (2 ^ 53)
  /\ double_of_Z (2 ^ 53 + 3) = double_of_Z (2 ^ 53 + 4)
  /\ double_of_Z (- (2 ^ 53 + 1)) = double_of_Z (- 2 ^ 53).
Proof. repeat split. Qed.

(** ** Exact products *)

Lemma digits_mul_lower (mx my : positive) :
  Zpos (digits2_pos mx) + Zpos (digits2_pos my) - 1
  <= Zpos (digits2_pos (mx * my)).
Proof.
  pose proof (digits2_pos_bounds mx) as [Bx _].
  pose proof (digits2_pos_bounds my) as [By _].
  pose proof (digits2_pos_bounds (mx * my)) as [_ Bp].
  rewrite Pos2Z.inj_mul in Bp.
  set (dx := Zpos (digits2_pos mx)) in *. set (dy := Zpos (digits2_pos my)) in *.
  set (dp := Zpos (digits2_pos (mx * my))) in *.
  assert (0 < dx /\ 0 < dy /\ 0 < dp) as (? & ? & ?) by (subst dx dy dp; lia).
  pose proof (pow2_pos (dx - 1) ltac:(lia)). pose proof (pow2_pos (dy - 1) ltac:(lia)).
  assert (Hlt : 2 ^ (dx - 1 + (dy - 1)) < 2 ^ dp) by (rewrite Z.pow_add_r by lia; nia).
  apply Z.pow_lt_mono_r_iff in Hlt; lia.
Qed.

(** A product with a normal factor never needs to be shifted left. *)
Lemma mul_aligned_normal (mx my : positive) (ex ey : Z) :
  Zpos (digits2_pos my) = 53 ->
  ex + ey <= fexp prec emax (Zpos (digits2_pos (mx * my)) + (ex + ey)).
Proof.
  intros Hy. rewrite fexp_eq.
  pose proof (digits_mul_lower mx my).
  assert (0 < Zpos (digits2_pos mx)) by lia. lia.
Qed.

Lemma dmul_finite (sx sy : bool) (mx my : positive) (ex ey : Z) :
  dmul (S754_finite sx mx ex) (S754_finite sy my ey)
  = binary_round_aux prec emax (xorb sx sy) (Zpos (mx * my)) (ex + ey) loc_Exact.
Proof. reflexivity. Qed.

Lemma represents_zero_inv (s : bool) (z : Z) :
  represents (S754_zero s) z -> z = 0.
Proof.
  intros [_ H]. cbn [scaled] in H.
  pose proof (pow2_pos 1074 ltac:(lia)). nia.
Qed.

(** The shape of a non-zero double that stands for an integer. *)
Lemma represents_finite_inv (s : bool) (m : positive) (e : Z) (z : Z) :
  represents (S754_finite s m e) z ->
  -52 <= e <= 971
  /\ Zpos (digits2_pos m) = 53
  /\ Zpos m * 2 ^ (e + 52) = Z.abs z * 2 ^ 52
  /\ z = cond_Zopp s (Z.abs z)
  /\ z <> 0.
Proof.
  intros [[Hv _] Hsc]. cbn [scaled] in Hsc.
  apply valid_finite_inv in Hv as [Hc Hmax].
  pose proof (digits2_pos_bounds m) as [Blo Bhi].
  set (d := Zpos (digits2_pos m)) in *.
  assert (Hd : d <= 53) by lia.
  assert (He : -1074 <= e) by lia.
  pose proof (pow2_pos (e + 1074) ltac:(lia)) as Hp.
  pose proof (pow2_pos 1074 ltac:(lia)) as Hq.
  assert (Habs : Zpos m * 2 ^ (e + 1074) = Z.abs z * 2 ^ 1074).
  { revert Hsc Hp Hq. generalize (2 ^ (e + 1074)) (2 ^ 1074). intros a b.
    destruct s; unfold cond_Zopp; nia. }
  assert (Hz : z <> 0).
  { intros ->. revert Habs Hp Hq. generalize (2 ^ (e + 1074)) (2 ^ 1074). intros a b.
    rewrite Z.abs_0. nia. }
  assert (Hm53 : Zpos m < 2 ^ 53).
  { assert (2 ^ d <= 2 ^ 53) by (apply Z.pow_le_mono_r; lia). lia. }
  assert (He52 : -52 <= e).
  { destruct (Z_le_gt_dec (-52) e) as [ | Hgt]; [assumption | exfalso].
    assert (2 ^ (e + 1074) <= 2 ^ 1021) by (apply Z.pow_le_mono_r; lia).
    change (2 ^ 1074) with (2 ^ 53 * 2 ^ 1021) in Habs.
    pose proof (pow2_pos 1021 ltac:(lia)). nia. }
  repeat split; try lia.
  - replace (e + 1074) with (e + 52 + 1022) in Habs by lia.
    rewrite Z.pow_add_r in Habs by lia.
    change (2 ^ 1074) with (2 ^ 52 * 2 ^ 1022) in Habs.
    pose proof (pow2_pos 1022 ltac:(lia)). nia.
  - revert Hsc Hp Hq. generalize (2 ^ (e + 1074)) (2 ^ 1074). intros a b.
    destruct s; unfold cond_Zopp; nia.
Qed.

(** A product of integers that stays within [2^53] is computed exactly. *)
Lemma dmul_represents (x y : double) (X Y : Z) :
  represents x X -> represents y Y -> Z.abs (X * Y) <= 2 ^ 53 ->
  represents (dmul x y) (X * Y).
Proof.
  intros Hx Hy Hxy.
  destruct x as [sx | sx | | sx mx ex]; try (destruct Hx as [[_ F] _]; discriminate F);
  destruct y as [sy | sy | | sy my ey]; try (destruct Hy as [[_ F] _]; discriminate F).
  - apply represents_zero_inv in Hx. subst X.
    split; [split; reflexivity | reflexivity].
  - apply represents_zero_inv in Hx. subst X.
    split; [split; reflexivity | reflexivity].
  - apply represents_zero_inv in Hy. subst Y.
    split; [split; reflexivity | ]. rewrite Z.mul_0_r. reflexivity.
  - apply represents_finite_inv in Hx as (Hex & Hdx & Hvx & Hsx & Hx0).
    apply represents_finite_inv in Hy as (Hey & Hdy & Hvy & Hsy & Hy0).
    rewrite dmul_finite.
    pose proof (mul_aligned_normal mx my ex ey Hdy) as Hal.
    pose proof (digits2_pos_bounds (mx * my)) as [Blo Bhi].
    rewrite fexp_eq in Hal.
    set (P := (mx * my)%positive) in *.
    set (d := Zpos (digits2_pos P)) in *.
    set (E := ex + ey) in *.
    (* the value of the product *)
    assert (Hval : Zpos P * 2 ^ (E + 104) = Z.abs (X * Y) * 2 ^ 104).
    { unfold P, E. rewrite Pos2Z.inj_mul, Z.abs_mul.
      replace (ex + ey + 104) with ((ex + 52) + (ey + 52)) by lia.
      rewrite Z.pow_add_r by lia. change (2 ^ 104) with (2 ^ 52 * 2 ^ 52).
      set (a := 2 ^ (ex + 52)) in *. set (b := 2 ^ (ey + 52)) in *.
      transitivity ((Zpos mx * a) * (Zpos my * b)); [ring | ].
      rewrite Hvx, Hvy. ring. }
    assert (Hxy1 : 1 <= Z.abs (X * Y)) by (rewrite Z.abs_mul; nia).
    pose proof (pow2_pos (E + 104) ltac:(lia)) as HpE.
    pose proof (pow2_pos (d - 1) ltac:(lia)) as Hpd.
    (* at most 54 digits in front of the binary point, at least one *)
    assert (Hd54 : d + E <= 54).
    { assert (H : 2 ^ (d - 1 + (E + 104)) < 2 ^ 158).
      { rewrite Z.pow_add_r by lia. change (2 ^ 158) with (2 * 2 ^ 53 * 2 ^ 104).
        nia. }
      apply Z.pow_lt_mono_r_iff in H; lia. }
    assert (Hd1 : 0 < d + E).
    { assert (H : 2 ^ 104 < 2 ^ (d + (E + 104))).
      { rewrite Z.pow_add_r by lia. nia. }
      apply Z.pow_lt_mono_r_iff in H; lia. }
    assert (Hs0 : fexp prec emax (d + E) = d + E - 53) by (rewrite fexp_eq; lia).
    assert (Hexact :
      wf_double (binary_round_aux prec emax (xorb sx sy) (Zpos P) E loc_Exact)
      /\ scaled (binary_round_aux prec emax (xorb sx sy) (Zpos P) E loc_Exact)
         = cond_Zopp (xorb sx sy) (Zpos P * 2 ^ (E + 1074))).
    { apply binary_round_aux_exact; fold d; rewrite ?Hs0; try lia.
      replace (d + E - 53 - E) with (d - 53) by lia.
      apply Z.mod_divide; [pose proof (pow2_pos (d - 53) ltac:(lia)); lia | ].
      destruct (Z_le_gt_dec (d + E) 53) as [Hle | Hgt].
      - (* the discarded bits lie below the binary point *)
        exists (Z.abs (X * Y) * 2 ^ (- E - (d - 53))).
        rewrite <- Z.mul_assoc, <- Z.pow_add_r by lia.
        replace (- E - (d - 53) + (d - 53)) with (- E) by lia.
        apply (Z.mul_reg_r _ _ (2 ^ (E + 104))); [lia | ].
        rewrite Hval, <- Z.mul_assoc, <- Z.pow_add_r by lia.
        do 2 f_equal. lia.
      - (* 54 digits: the product is 2^53 itself *)
        assert (d + E = 54) by lia.
        assert (HP : Zpos P * 2 ^ (E + 104) = 2 ^ (d - 1) * 2 ^ (E + 104)).
        { assert (Hge : 2 ^ 53 * 2 ^ 104 <= 2 ^ (d - 1) * 2 ^ (E + 104)).
          { rewrite <- !Z.pow_add_r by lia. apply Z.pow_le_mono_r; lia. }
          change (2 ^ 104) with (2 ^ 104) in Hval. nia. }
        apply Z.mul_reg_r in HP; [ | lia].
        exists (2 ^ 52). rewrite HP, <- Z.pow_add_r by lia. f_equal. lia. }
    destruct Hexact as [Hwf Hsc]. split; [assumption | ].
    rewrite Hsc.
    replace (E + 1074) with (E + 104 + 970) by lia.
    rewrite Z.pow_add_r, Z.mul_assoc, Hval by lia.
    change (2 ^ 1074) with (2 ^ 104 * 2 ^ 970).
    rewrite Z.abs_mul.
    rewrite Hsx at 2. rewrite Hsy at 2.
    generalize (2 ^ 104) (2 ^ 970) (Z.abs X) (Z.abs Y). intros a b u v.
    destruct sx, sy; cbn [xorb cond_Zopp]; ring.
Qed.

Lemma deqb_represents (x y : double) (X Y : Z) :
  represents x X -> represents y Y -> deqb x y = (X =? Y).
Proof.
  intros [Wx Sx] [Wy Sy]. rewrite (deqb_scaled x y Wx Wy), Sx, Sy.
  pose proof (pow2_pos 1074 ltac:(lia)).
  destruct (Z.eqb_spec X Y) as [-> | Hne]; [apply Z.eqb_refl | ].
  apply Z.eqb_neq. nia.
Qed.

Lemma dltb_represents (x y : double) (X Y : Z) :
  represents x X -> represents y Y -> dltb x y = (X <? Y).
Proof.
  intros [Wx Sx] [Wy Sy]. rewrite (dltb_scaled x y Wx Wy), Sx, Sy.
  pose proof (pow2_pos 1074 ltac:(lia)).
  destruct (Z.ltb_spec X Y); [apply Z.ltb_lt | apply Z.ltb_ge]; nia.
Qed.

Lemma dgtb_represents (x y : double) (X Y : Z) :
  represents x X -> represents y Y -> dgtb x y = (Y <? X).
Proof. intros Hx Hy. apply (dltb_represents y x Y X Hy Hx). Qed.

(** ** Products of arbitrary finite doubles *)

Lemma mul_aligned (sx sy : bool) (mx my : positive) (ex ey : Z) :
  valid_binary prec emax (S754_finite sx mx ex) = true ->
  valid_binary prec emax (S754_finite sy my ey) = true ->
  ex + ey <= fexp prec emax (Zpos (digits2_pos (mx * my)) + (ex + ey)).
Proof.
  intros Vx Vy.
  apply valid_finite_inv in Vx as [Cx _]. apply valid_finite_inv in Vy as [Cy _].
  pose proof (digits_mul_lower mx my). rewrite fexp_eq.
  assert (0 < Zpos (digits2_pos mx)) by lia.
  assert (0 < Zpos (digits2_pos my)) by lia.
  lia.
Qed.

Lemma binary_round_aux_not_nan (sg : bool) (P : positive) (E : Z) :
  E <= fexp prec emax (Zpos (digits2_pos P) + E) ->
  binary_round_aux prec emax sg (Zpos P) E loc_Exact <> S754_nan.
Proof.
  intros HE. rewrite (binary_round_aux_spec sg P E HE). cbv zeta.
  repeat match goal with |- context [if ?c then _ else _] => destruct c end;
    discriminate.
Qed.

Lemma dmul_not_nan (x y : double) :
  wf_double x -> wf_double y -> dmul x y <> S754_nan.
Proof.
  intros [Vx Fx] [Vy Fy].
  destruct x as [sx | sx | | sx mx ex]; try discriminate Fx;
  destruct y as [sy | sy | | sy my ey]; try discriminate Fy;
  try (simpl; discriminate).
  rewrite dmul_finite. apply binary_round_aux_not_nan.
  apply (mul_aligned sx sy); assumption.
Qed.

Lemma dmul_comm (x y : double) : dmul x y = dmul y x.
Proof.
  destruct x as [sx | sx | | sx mx ex], y as [sy | sy | | sy my ey];
    try reflexivity; cbn [dmul SFmul]; try (rewrite (xorb_comm sx sy); reflexivity).
  rewrite (xorb_comm sx sy), (Pos.mul_comm mx my), (Z.add_comm ex ey). reflexivity.
Qed.

Lemma deqb_refl (x : double) : x <> S754_nan -> deqb x x = true.
Proof.
  intros Hx. unfold deqb, SFeqb.
  destruct x as [s | s | | s m e]; [reflexivity | destruct s; reflexivity | congruence | ].
  cbn [SFcompare]. rewrite Z.compare_refl.
  change (Pos.compare_cont Eq m m) with (Pos.compare m m).
  rewrite Pos.compare_refl. destruct s; reflexivity.
Qed.

(** Every 64-bit integer converts to a finite double. *)
Lemma double_of_Z_wf (z : Z) :
  Z.abs z < 2 ^ 64 -> wf_double (double_of_Z z).
Proof.
  intros Hz.
  assert (Hgen : forall (sg : bool) (m : positive),
            Zpos m < 2 ^ 64 -> wf_double (binary_round prec emax sg m 0)).
  { intros sg m Hm.
    destruct (binary_round_spec sg m 0) as (P & E & -> & HE & HP & Hs0).
    pose proof (digits2_pos_bounds m) as [Blo _].
    assert (Hd : Zpos (digits2_pos m) <= 64).
    { destruct (Z_le_gt_dec (Zpos (digits2_pos m)) 64) as [ | Hgt]; [assumption | exfalso].
      assert (2 ^ 64 <= 2 ^ (Zpos (digits2_pos m) - 1)) by (apply Z.pow_le_mono_r; lia).
      lia. }
    apply binary_round_aux_wf; rewrite Hs0; [lia | ].
    rewrite fexp_eq. lia. }
  destruct z as [ | m | m].
  - split; reflexivity.
  - apply Hgen. lia.
  - apply Hgen. lia.
Qed.
(** ** Feerates as rationals *)

Lemma feerate_lt (f1 s1 f2 s2 : Z) :
  0 < s1 -> 0 < s2 ->
  (feerate f1 s1 < feerate f2 s2)%Q <-> f1 * s2 < f2 * s1.
Proof.
  intros H1 H2. unfold feerate, Qdiv, Qlt.
  destruct s1 as [ | p1 | p1]; try lia. destruct s2 as [ | p2 | p2]; try lia.
  cbn [inject_Z Qinv Qnum Qden Qmult]. rewrite !Z.mul_1_r, !Pos.mul_1_l. reflexivity.
Qed.

Lemma feerate_le (f1 s1 f2 s2 : Z) :
  0 < s1 -> 0 < s2 ->
  (feerate f1 s1 <= feerate f2 s2)%Q <-> f1 * s2 <= f2 * s1.
Proof.
  intros H1 H2. unfold feerate, Qdiv, Qle.
  destruct s1 as [ | p1 | p1]; try lia. destruct s2 as [ | p2 | p2]; try lia.
  cbn [inject_Z Qinv Qnum Qden Qmult]. rewrite !Z.mul_1_r, !Pos.mul_1_l. reflexivity.
Qed.

Lemma feerate_eq (f1 s1 f2 s2 : Z) :
  0 < s1 -> 0 < s2 ->
  (feerate f1 s1 == feerate f2 s2)%Q <-> f1 * s2 = f2 * s1.
Proof.
  intros H1 H2. unfold feerate, Qdiv, Qeq.
  destruct s1 as [ | p1 | p1]; try lia. destruct s2 as [ | p2 | p2]; try lia.
  cbn [inject_Z Qinv Qnum Qden Qmult]. rewrite !Z.mul_1_r, !Pos.mul_1_l. reflexivity.
Qed.

Lemma SF2Q_represents (x : double) (X : Z) :
  represents x X -> (SF2Q x == inject_Z X)%Q.
Proof.
  intros [_ Hs]. unfold SF2Q, Qeq. cbn [Qnum Qden inject_Z].
  rewrite Hs, Z.mul_1_r. rewrite Z2Pos.id by (apply pow2_pos; lia). reflexivity.
Qed.

Lemma sort_value_represents (fee size : double) (F S : Z) :
  represents fee F -> represents size S ->
  (sort_value (fee, size) == feerate F S)%Q.
Proof.
  intros HF HS. unfold sort_value, feerate. cbn [fst snd].
  rewrite (SF2Q_represents fee F HF), (SF2Q_represents size S HS). reflexivity.
Qed.

Lemma exact_rangeb_In (fees sizes : list Z) (f s : Z) :
  exact_rangeb fees sizes = true -> In f fees -> In s sizes ->
  0 < s <= 2 ^ 53 /\ Z.abs f * s <= 2 ^ 53.
Proof.
  intros H Hf Hs. unfold exact_rangeb in H.
  rewrite forallb_forall in H. specialize (H f Hf).
  rewrite forallb_forall in H. specialize (H s Hs).
  apply andb_true_iff in H as [H H3]. apply andb_true_iff in H as [H1 H2].
  apply Z.ltb_lt in H1. apply Z.leb_le in H2. apply Z.leb_le in H3. lia.
Qed.

Lemma exact_product (f s : Z) :
  0 < s <= 2 ^ 53 -> Z.abs f * s <= 2 ^ 53 ->
  represents (double_of_Z f) f /\ represents (double_of_Z s) s
  /\ represents (dmul (double_of_Z f) (double_of_Z s)) (f * s)
  /\ represents (dmul (double_of_Z s) (double_of_Z f)) (s * f).
Proof.
  intros Hs Hfs.
  assert (Hf : Z.abs f <= 2 ^ 53) by nia.
  assert (Hs' : Z.abs s <= 2 ^ 53) by lia.
  pose proof (double_of_Z_represents f Hf) as Rf.
  pose proof (double_of_Z_represents s Hs') as Rs.
  split; [exact Rf | split; [exact Rs | split]].
  - apply (dmul_represents _ _ f s Rf Rs). rewrite Z.abs_mul. lia.
  - apply (dmul_represents _ _ s f Rs Rf). rewrite Z.abs_mul. lia.
Qed.


(** ** Truncation *)

Lemma double_trunc_scaled (x : double) :
  wf_double x -> 0 <= scaled x ->
  double_trunc x = Some (scaled x / 2 ^ 1074).
Proof.
  intros [Vx Fx] Hs.
  destruct x as [s | s | | s m e]; try discriminate Fx.
  - reflexivity.
  - apply valid_finite_inv in Vx as [Cx _].
    assert (He : -1074 <= e) by lia.
    pose proof (pow2_pos (e + 1074) ltac:(lia)) as Hp.
    destruct s.
    + exfalso. cbn [scaled cond_Zopp] in Hs. nia.
    + cbn [double_trunc scaled cond_Zopp]. f_equal.
      destruct (Z_le_gt_dec 0 e) as [Hpos | Hneg].
      * rewrite Z.shiftl_mul_pow2 by lia.
        rewrite Z.pow_add_r, Z.mul_assoc by lia.
        rewrite Z.div_mul by (pose proof (pow2_pos 1074 ltac:(lia)); lia).
        reflexivity.
      * rewrite Z.shiftl_div_pow2 by lia.
        replace 1074 with (- e + (e + 1074)) at 2 by lia.
        rewrite (Z.pow_add_r 2 (- e) (e + 1074)) by lia.
        rewrite Z.div_mul_cancel_r
          by (pose proof (pow2_pos (- e) ltac:(lia)); lia).
        reflexivity.
Qed.

(** ** The sanity-check frequency *)

(** The literal [4294967295.0]. *)
Lemma sanity_scale_eq :
  double_of_Z 4294967295 = S754_finite false 9007199252643840 (-21).
Proof. reflexivity. Qed.

Lemma digits_mul_upper (mx my : positive) :
  Zpos (digits2_pos (mx * my))
  <= Zpos (digits2_pos mx) + Zpos (digits2_pos my).
Proof.
  pose proof (digits2_pos_bounds mx) as [_ Bx].
  pose proof (digits2_pos_bounds my) as [_ By].
  pose proof (digits2_pos_bounds (mx * my)) as [Bp _].
  rewrite Pos2Z.inj_mul in Bp.
  set (dx := Zpos (digits2_pos mx)) in *. set (dy := Zpos (digits2_pos my)) in *.
  set (dp := Zpos (digits2_pos (mx * my))) in *.
  assert (0 < dx /\ 0 < dy /\ 0 < dp) as (? & ? & ?) by (subst dx dy dp; lia).
  assert (Hlt : 2 ^ (dp - 1) < 2 ^ (dx + dy)).
  { rewrite Z.pow_add_r by lia.
    pose proof (Pos2Z.is_pos mx). pose proof (Pos2Z.is_pos my).
    apply Z.le_lt_trans with (1 := Bp).
    apply Z.mul_lt_mono_nonneg; lia. }
  apply Z.pow_lt_mono_r_iff in Hlt; lia.
Qed.

Lemma rne_zero (m : Z) : rne m 0 = m.
Proof. reflexivity. Qed.

(** The arithmetic of [setSanityCheck]: [m * 2^e <= 1] is the frequency,
    [q] the rounded mantissa of its product with [2^32 - 1] at exponent
    [- u], and [N] the truncated product. *)
Lemma sanity_arith (m e n u : Z) :
  1 <= m -> -1074 <= e <= 0 -> m <= 2 ^ (- e) ->
  0 <= n -> 21 <= u -> u + n = 21 - e ->
  (1 <= n -> 2 ^ (n - 1) <= m * 2 ^ 21) ->
  let P := m * (4294967295 * 2 ^ 21) in
  let N := rne P n / 2 ^ u in
  0 <= N <= 4294967295
  /\ N * 2 ^ (- e) <= m * 2 ^ 32
  /\ m * 2 ^ 32 < (N + 2) * 2 ^ (- e).
Proof.
  intros Hm He Hle Hn Hu Hun Hhalf P N.
  assert (HUT : 2 ^ u * 2 ^ n = 2 ^ 21 * 2 ^ (- e)).
  { rewrite <- !Z.pow_add_r by lia. f_equal. lia. }
  pose proof (pow2_pos (- e) ltac:(lia)) as HA.
  pose proof (pow2_pos u ltac:(lia)) as HU.
  pose proof (pow2_pos n ltac:(lia)) as HT.
  assert (HP : 0 <= P) by (unfold P; nia).
  assert (Hq0 : 0 <= rne P n) by (apply rne_nonneg; assumption).
  (* what rounding guarantees, with or without a shift *)
  assert (Hr : exists T', 0 <= T' <= 2 * (m * 2 ^ 21) /\ T' < 2 * 2 ^ n
            /\ 2 * P - T' <= 2 * (rne P n * 2 ^ n) <= 2 * P + T'
            /\ rne P n <= P / 2 ^ n + 1
            /\ (P mod 2 ^ n = 0 -> rne P n * 2 ^ n = P)).
  { destruct (Z.eq_dec n 0) as [-> | Hn0].
    - exists 0. rewrite rne_zero, Z.pow_0_r, Z.div_1_r.
      change (2 ^ 21) with 2097152. repeat split; lia.
    - exists (2 ^ n).
      pose proof (rne_error P n ltac:(lia)).
      pose proof (rne_bounds P n ltac:(lia)).
      pose proof (pow2_pred n ltac:(lia)) as Hpred.
      specialize (Hhalf ltac:(lia)).
      repeat split; try lia. apply rne_exact. }
  destruct Hr as (T' & HT' & HT'lt & Herr & Hup & Hex).
  set (q := rne P n) in *.
  pose proof (Z.div_mod q (2 ^ u) ltac:(lia)) as Hdm.
  pose proof (Z.mod_pos_bound q (2 ^ u) HU) as Hmod.
  fold N in Hdm.
  change (2 ^ 32) with (4294967295 + 1).
  set (A := 2 ^ (- e)) in *. set (U := 2 ^ u) in *. set (T := 2 ^ n) in *.
  change (2 ^ 21) with 2097152 in *.
  assert (HqU : q <= 4294967295 * U).
  { assert (HPle : P <= 4294967295 * U * T) by (unfold P; nia).
    destruct (Z.eq_dec P (4294967295 * U * T)) as [HPeq | HPne].
    - assert (Hmod0 : P mod T = 0).
      { rewrite HPeq. apply Z.mod_mul. lia. }
      specialize (Hex Hmod0). nia.
    - assert (P / T < 4294967295 * U).
      { apply Z.div_lt_upper_bound; [lia | nia]. }
      lia. }
  split; [split | split].
  - unfold N. apply Z.div_pos; lia.
  - unfold N. apply Z.div_le_upper_bound; [lia | nia].
  - nia.
  - unfold P in *. nia.
Qed.

(** The product of a frequency in (0, 1] with [4294967295.0], truncated. *)
Lemma sanity_product (m : positive) (e : Z) :
  valid_binary prec emax (S754_finite false m e) = true ->
  Zpos m * 2 ^ (e + 1074) <= 2 ^ 1074 ->
  exists N : Z,
    double_to_uint32 (dmul (S754_finite false m e) (double_of_Z 4294967295))
      = Some N
    /\ -1074 <= e <= 0
    /\ 0 <= N <= 4294967295
    /\ N * 2 ^ (- e) <= Zpos m * 2 ^ 32
    /\ Zpos m * 2 ^ 32 < (N + 2) * 2 ^ (- e).
Proof.
  intros Vf Hle.
  pose proof (mul_aligned false false m 9007199252643840 e (-21) Vf eq_refl) as HE.
  apply valid_finite_inv in Vf as [Cf _].
  pose proof (digits2_pos_bounds m) as [Bmlo Bmhi].
  pose proof (digits_mul_upper m 9007199252643840) as Hdup.
  change (Zpos (digits2_pos 9007199252643840)) with 53 in Hdup.
  pose proof (digits2_pos_bounds (m * 9007199252643840)) as [Bplo _].
  rewrite sanity_scale_eq, dmul_finite. cbn [xorb].
  set (P := (m * 9007199252643840)%positive) in *.
  set (dm := Zpos (digits2_pos m)) in *.
  set (dP := Zpos (digits2_pos P)) in *.
  assert (He : -1074 <= e <= 0).
  { split; [lia | ].
    destruct (Z_le_gt_dec e 0) as [ | Hgt]; [assumption | exfalso].
    assert (2 * 2 ^ 1074 <= 2 ^ (e + 1074)).
    { change (2 * 2 ^ 1074) with (2 ^ 1075). apply Z.pow_le_mono_r; lia. }
    pose proof (pow2_pos 1074 ltac:(lia)). nia. }
  pose proof (pow2_pos (e + 1074) ltac:(lia)) as Hp1.
  pose proof (pow2_pos (- e) ltac:(lia)) as Hp2.
  assert (Hsplit : 2 ^ 1074 = 2 ^ (- e) * 2 ^ (e + 1074)).
  { rewrite <- Z.pow_add_r by lia. f_equal. lia. }
  assert (Hm : Zpos m <= 2 ^ (- e)).
  { rewrite Hsplit in Hle. nia. }
  (* the product is below 2^32 *)
  assert (HdP : dP + e <= 53).
  { assert (H : 2 ^ (dP - 1 + (e + 1074)) < 2 ^ 1127).
    { rewrite Z.pow_add_r by (subst dP; lia).
      change (2 ^ 1127) with (2 ^ 53 * 2 ^ 1074).
      assert (Zpos P < 2 ^ 53 * Zpos m).
      { unfold P. rewrite Pos2Z.inj_mul. change (2 ^ 53) with 9007199254740992. lia. }
      pose proof (pow2_pos (dP - 1) ltac:(subst dP; lia)).
      pose proof (pow2_pos 1074 ltac:(lia)).
      generalize dependent (2 ^ 1074). generalize dependent (2 ^ (e + 1074)).
      generalize dependent (2 ^ (dP - 1)). intros. nia. }
    apply Z.pow_lt_mono_r_iff in H; lia. }
  rewrite fexp_eq in HE. fold dP in HE.
  set (s0 := Z.max (dP + (e + -21) - 53) (-1074)) in *.
  assert (Hs0 : fexp prec emax (dP + (e + -21)) = s0) by reflexivity.
  destruct (binary_round_aux_wf false P (e + -21)) as [Hwf Hsc];
    fold dP; rewrite ?Hs0; try lia.
  fold dP in Hsc. rewrite Hs0 in Hsc. cbn [cond_Zopp] in Hsc.
  set (r := binary_round_aux prec emax false (Zpos P) (e + -21) loc_Exact) in *.
  set (n := s0 - (e + -21)) in *.
  assert (Hq0 : 0 <= rne (Zpos P) n) by (apply rne_nonneg; lia).
  pose proof (pow2_pos (s0 + 1074) ltac:(lia)) as Hp3.
  assert (Htr : double_trunc r = Some (rne (Zpos P) n / 2 ^ (- s0))).
  { rewrite (double_trunc_scaled r Hwf) by (rewrite Hsc; nia).
    f_equal. rewrite Hsc.
    replace 1074 with (- s0 + (s0 + 1074)) at 2 by lia.
    rewrite (Z.pow_add_r 2 (- s0) (s0 + 1074)) by lia.
    apply Z.div_mul_cancel_r; [ | lia].
    pose proof (pow2_pos (- s0) ltac:(lia)). lia. }
  assert (Hhalf : 1 <= n -> 2 ^ (n - 1) <= Zpos m * 2 ^ 21).
  { intros Hn1. change (2 ^ 21) with 2097152.
    destruct (Z.eq_dec s0 (-1074)) as [Hsub | Hnorm].
    - assert (2 ^ (n - 1) <= 2 ^ 20) by (apply Z.pow_le_mono_r; lia).
      change (2 ^ 20) with 1048576 in *. lia.
    - assert (2 ^ (n - 1) <= 2 ^ (dm - 1)) by (apply Z.pow_le_mono_r; lia).
      lia. }
  pose proof (sanity_arith (Zpos m) e n (- s0) ltac:(lia) He Hm ltac:(lia)
                ltac:(lia) ltac:(lia) Hhalf) as Harith.
  cbv zeta in Harith.
  replace (Zpos m * (4294967295 * 2 ^ 21)) with (Zpos P) in Harith
    by (unfold P; rewrite Pos2Z.inj_mul; reflexivity).
  destruct Harith as (HN & Hlo & Hhi).
  exists (rne (Zpos P) n / 2 ^ (- s0)).
  split; [ | repeat split; try assumption; lia].
  unfold double_to_uint32. rewrite Htr.
  replace (0 <=? _) with true by (symmetry; apply Z.leb_le; lia).
  replace (_ <? 2 ^ 32) with true
    by (symmetry; apply Z.ltb_lt; change (2 ^ 32) with 4294967296; lia).
  reflexivity.
Qed.

Lemma setSanityCheck_one (pool : CTxMemPool) :
  setSanityCheck pool (double_of_Z 1)
  = Some {| nCheckFrequency := 4294967295;
            nTransactionsUpdated := nTransactionsUpdated pool;
            totalTxSize := totalTxSize pool;
            pool_cachedInnerUsage := pool_cachedInnerUsage pool |}.
Proof. reflexivity. Qed.

Lemma unit_interval_inv (f : double) :
  valid_binary prec emax f = true ->
  dleb (double_of_Z 0) f = true -> dleb f (double_of_Z 1) = true ->
  (exists s, f = S754_zero s)
  \/ (exists m e, f = S754_finite false m e
                  /\ Zpos m * 2 ^ (e + 1074) <= 2 ^ 1074).
Proof.
  intros Vf H0 H1.
  destruct f as [s | s | | s m e].
  - left. exists s. reflexivity.
  - destruct s; discriminate.
  - discriminate.
  - right. destruct s; [discriminate | ].
    exists m, e. split; [reflexivity | ].
    assert (W1 : wf_double (double_of_Z 1)) by (split; reflexivity).
    assert (Wf : wf_double (S754_finite false m e)) by (split; [assumption | reflexivity]).
    unfold dleb, SFleb in H1. rewrite (SFcompare_scaled _ _ Wf W1) in H1.
    change (scaled (double_of_Z 1)) with (2 ^ 52 * 2 ^ (-52 + 1074)) in H1.
    cbn [scaled cond_Zopp] in H1.
    rewrite <- Z.pow_add_r in H1 by lia. change (52 + (-52 + 1074)) with 1074 in H1.
    destruct (Z.compare_spec (Zpos m * 2 ^ (e + 1074)) (2 ^ 1074));
      [lia | lia | discriminate H1].
Qed.

Lemma check_probability_le (N : Z) (pool : CTxMemPool) (x : double) :
  nCheckFrequency pool = N ->
  N * 2 ^ 1074 <= scaled x * 2 ^ 32 ->
  (check_probability pool <= SF2Q x)%Q.
Proof.
  intros HN H. unfold check_probability, SF2Q, Qle. cbn [Qnum Qden].
  rewrite HN, !Z2Pos.id by (apply pow2_pos; lia). exact H.
Qed.

Lemma check_probability_gap (N : Z) (pool : CTxMemPool) (x : double) :
  nCheckFrequency pool = N ->
  scaled x * 2 ^ 32 < (N + 2) * 2 ^ 1074 ->
  (SF2Q x - check_probability pool < 1 # 2147483648)%Q.
Proof.
  intros HN H. unfold check_probability, SF2Q, Qminus, Qplus, Qopp, Qlt.
  cbn [Qnum Qden]. rewrite HN.
  rewrite !Pos2Z.inj_mul, !Z2Pos.id by (apply pow2_pos; lia).
  change (Zpos 2147483648) with (2 ^ 31).
  pose proof (pow2_pos 1074 ltac:(lia)) as Hp.
  change (2 ^ 32) with (2 * 2 ^ 31) in *.
  pose proof (pow2_pos 31 ltac:(lia)) as Hq.
  generalize dependent (2 ^ 1074). generalize dependent (2 ^ 31). intros. nia.
Qed.

(** C6, with the quantisation of the stored value. For every frequency [f] in [[0.0, 1.0]],
    [setSanityCheck(f)] stores a 32-bit value [nCheckFrequency], at most
    [2^32 - 1]; read as "[nCheckFrequency] times in [2^32]", the frequency
    of the check is at most [f] and less than [2^-31] below [f];
    [setSanityCheck(1.0)], the default, stores [4294967295], the largest
    value. *)
Theorem setSanityCheck_frequency (pool : CTxMemPool) (f : double) :
  valid_binary prec emax f = true ->
  dleb (double_of_Z 0) f = true -> dleb f (double_of_Z 1) = true ->
  exists pool',
    setSanityCheck pool f = Some pool'
    /\ 0 <= nCheckFrequency pool' <= 4294967295
    /\ (check_probability pool' <= SF2Q f)%Q
    /\ (SF2Q f - check_probability pool' < 1 # 2147483648)%Q
    /\ (f = dFrequency_default -> nCheckFrequency pool' = 4294967295).
Proof.
  intros Vf H0 H1.
  destruct (unit_interval_inv f Vf H0 H1) as [[s ->] | (m & e & -> & Hle)].
  - eexists. split; [reflexivity | ]. cbn [nCheckFrequency].
    split; [lia | ]. split; [ | split; [ | discriminate]].
    + apply (check_probability_le 0); [reflexivity | ]. cbn [scaled]. lia.
    + apply (check_probability_gap 0); [reflexivity | ]. cbn [scaled].
      pose proof (pow2_pos 1074 ltac:(lia)). lia.
  - destruct (sanity_product m e Vf Hle) as (N & HN & He & HNr & Hlo & Hhi).
    unfold setSanityCheck. rewrite HN.
    eexists. split; [reflexivity | ]. cbn [nCheckFrequency].
    pose proof (pow2_pos (e + 1074) ltac:(lia)) as Hp1.
    assert (Hsplit : 2 ^ 1074 = 2 ^ (- e) * 2 ^ (e + 1074)).
    { rewrite <- Z.pow_add_r by lia. f_equal. lia. }
    split; [lia | ]. split; [ | split].
    + apply (check_probability_le N); [reflexivity | ]. cbn [scaled cond_Zopp].
      rewrite Hsplit.
      generalize dependent (2 ^ (e + 1074)). generalize dependent (2 ^ (- e)).
      generalize dependent (2 ^ 32). intros. nia.
    + apply (check_probability_gap N); [reflexivity | ]. cbn [scaled cond_Zopp].
      rewrite Hsplit.
      generalize dependent (2 ^ (e + 1074)). generalize dependent (2 ^ (- e)).
      generalize dependent (2 ^ 32). intros. nia.
    + intros Hone. pose proof (setSanityCheck_one pool) as H.
      fold dFrequency_default in H. rewrite <- Hone in H. unfold setSanityCheck in H. rewrite HN in H.
      injection H as H. exact H.
Qed.

(** ** The comparators *)

Lemma exact_rangeb_range (fees sizes : list Z) :
  exact_rangeb fees sizes = true -> in_exact_range fees sizes.
Proof. intros H f s Hf Hs. exact (exact_rangeb_In fees sizes f s H Hf Hs). Qed.

Lemma in_exact_range_incl (fees sizes fees' sizes' : list Z) :
  incl fees' fees -> incl sizes' sizes ->
  in_exact_range fees sizes -> in_exact_range fees' sizes'.
Proof. intros Hf Hs H f s Inf Ins. apply H; [apply Hf | apply Hs]; assumption. Qed.

Lemma in_exact_range_swap (fa fb sa sb : list Z) :
  in_exact_range (fa ++ fb) (sa ++ sb) -> in_exact_range (fb ++ fa) (sb ++ sa).
Proof.
  apply in_exact_range_incl; intros x Hx; apply in_app_or in Hx;
    apply in_or_app; tauto.
Qed.

Lemma to_int64_range (z : Z) : in_int64 (to_int64 z).
Proof.
  unfold in_int64, to_int64.
  pose proof (Z.mod_pos_bound (z + 2 ^ 63) (2 ^ 64) ltac:(lia)).
  change (2 ^ 64) with (2 * 2 ^ 63) in *. lia.
Qed.

Section Comparators.

Variable CTransaction : Type.
Variable GetHash : CTransaction -> uint256.
Variable uint256_lt : uint256 -> uint256 -> bool.
Variable GetTxSize : CTxMemPoolEntry CTransaction -> Z.

(** Within the exact range, [GetModFeeAndSize] of the descendant score
    returns the fee and the size of the larger of the two feerates. *)
Lemma DescendantScore_GetModFeeAndSize_exact (a : CTxMemPoolEntry CTransaction) :
  in_exact_range (descendant_fees a) (descendant_sizes GetTxSize a) ->
  exists F S : Z,
    DescendantScore_GetModFeeAndSize GetTxSize a = (double_of_Z F, double_of_Z S)
    /\ In F (descendant_fees a) /\ In S (descendant_sizes GetTxSize a)
    /\ (feerate F S == descendant_score GetTxSize a)%Q.
Proof.
  intros Hr. unfold DescendantScore_GetModFeeAndSize, descendant_score.
  unfold descendant_fees, descendant_sizes in *.
  set (fee := GetModifiedFee a) in *. set (size := GetTxSize a) in *.
  set (feeD := GetModFeesWithDescendants a) in *.
  set (sizeD := GetSizeWithDescendants a) in *.
  destruct (Hr fee sizeD) as [HsD H1]; [simpl; auto | simpl; auto | ].
  destruct (Hr feeD size) as [Hs H2]; [simpl; auto | simpl; auto | ].
  destruct (exact_product fee sizeD HsD H1) as (_ & _ & R1 & _).
  destruct (exact_product feeD size Hs H2) as (_ & _ & R2 & _).
  rewrite (dgtb_represents _ _ _ _ R2 R1).
  destruct (Z.ltb_spec (fee * sizeD) (feeD * size)) as [Hlt | Hge].
  - exists feeD, sizeD. repeat split; simpl; auto.
    symmetry. apply Q.max_r. apply feerate_le; lia.
  - exists fee, size. repeat split; simpl; auto.
    symmetry. apply Q.max_l. apply feerate_le; lia.
Qed.

Lemma DescendantScore_sort_value (a : CTxMemPoolEntry CTransaction) :
  in_exact_range (descendant_fees a) (descendant_sizes GetTxSize a) ->
  (sort_value (DescendantScore_GetModFeeAndSize GetTxSize a)
   == descendant_score GetTxSize a)%Q.
Proof.
  intros Hr.
  destruct (DescendantScore_GetModFeeAndSize_exact a Hr) as (F & S & -> & HF & HS & <-).
  destruct (Hr F S HF HS) as [HS0 HFS].
  destruct (exact_product F S HS0 HFS) as (RF & RS & _).
  apply sort_value_represents; assumption.
Qed.

Lemma descendant_compare_exact (a b : CTxMemPoolEntry CTransaction) :
  in_exact_range (descendant_fees a ++ descendant_fees b)
                 (descendant_sizes GetTxSize a ++ descendant_sizes GetTxSize b) ->
  CompareTxMemPoolEntryByDescendantScore GetTxSize a b = true <->
  (descendant_score GetTxSize a < descendant_score GetTxSize b)%Q
  \/ ((descendant_score GetTxSize a == descendant_score GetTxSize b)%Q
      /\ GetTime b <= GetTime a).
Proof.
  intros Hr.
  assert (Hra : in_exact_range (descendant_fees a) (descendant_sizes GetTxSize a))
    by (revert Hr; apply in_exact_range_incl; apply incl_appl; apply incl_refl).
  assert (Hrb : in_exact_range (descendant_fees b) (descendant_sizes GetTxSize b))
    by (revert Hr; apply in_exact_range_incl; apply incl_appr; apply incl_refl).
  destruct (DescendantScore_GetModFeeAndSize_exact a Hra)
    as (Fa & Sa & Ea & HFa & HSa & Qa).
  destruct (DescendantScore_GetModFeeAndSize_exact b Hrb)
    as (Fb & Sb & Eb & HFb & HSb & Qb).
  unfold CompareTxMemPoolEntryByDescendantScore. rewrite Ea, Eb.
  destruct (Hr Fa Sb) as [HSb0 H1]; [apply in_or_app; auto | apply in_or_app; auto | ].
  destruct (Hr Fb Sa) as [HSa0 H2]; [apply in_or_app; auto | apply in_or_app; auto | ].
  destruct (exact_product Fa Sb HSb0 H1) as (_ & _ & R1 & _).
  destruct (exact_product Fb Sa HSa0 H2) as (_ & _ & _ & R2).
  rewrite (deqb_represents _ _ _ _ R1 R2), (dltb_represents _ _ _ _ R1 R2).
  rewrite <- Qa, <- Qb.
  rewrite feerate_lt, feerate_eq by lia.
  destruct (Z.eqb_spec (Fa * Sb) (Sa * Fb)) as [Heq | Hne].
  - rewrite Z.leb_le. split; [intros H; right; split; lia | intros [H | [_ H]]; lia].
  - rewrite Z.ltb_lt. split; [intros H; left; lia | intros [H | [H _]]; lia].
Qed.

(** C1, in the range where the comparator computes exactly. When the sizes of two entries are positive and at
    most [2^53] and every product of one of their fees (own or with
    descendants) with one of their sizes is at most [2^53] in magnitude,
    the descendant-score comparator orders them by
    [max(modified_fee/size, mod_fees_with_descendants/size_with_descendants)]:
    the pair [GetModFeeAndSize] returns has this ratio, [a] is placed
    before [b] exactly when its value is smaller, or equal with an entry
    time that is not earlier, and of two entries with equal values the one
    that entered later is placed first. *)
Theorem descendant_score_order (a b : CTxMemPoolEntry CTransaction) :
  exact_rangeb (descendant_fees a ++ descendant_fees b)
               (descendant_sizes GetTxSize a ++ descendant_sizes GetTxSize b)
  = true ->
  (sort_value (DescendantScore_GetModFeeAndSize GetTxSize a)
   == descendant_score GetTxSize a)%Q
  /\ (CompareTxMemPoolEntryByDescendantScore GetTxSize a b = true <->
      (descendant_score GetTxSize a < descendant_score GetTxSize b)%Q
      \/ ((descendant_score GetTxSize a == descendant_score GetTxSize b)%Q
          /\ GetTime b <= GetTime a))
  /\ ((descendant_score GetTxSize a == descendant_score GetTxSize b)%Q ->
      GetTime b < GetTime a ->
      CompareTxMemPoolEntryByDescendantScore GetTxSize a b = true
      /\ CompareTxMemPoolEntryByDescendantScore GetTxSize b a = false).
Proof.
  intros Hb. apply exact_rangeb_range in Hb.
  split; [ | split].
  - apply DescendantScore_sort_value.
    revert Hb. apply in_exact_range_incl; apply incl_appl; apply incl_refl.
  - apply descendant_compare_exact. assumption.
  - intros Heq Hlater. split.
    + apply descendant_compare_exact; [assumption | ]. right. split; [assumption | lia].
    + destruct (CompareTxMemPoolEntryByDescendantScore GetTxSize b a) eqn:Hc;
        [exfalso | reflexivity].
      apply descendant_compare_exact in Hc; [ | apply in_exact_range_swap; assumption].
      destruct Hc as [Hlt | [_ Hle]]; [ | lia].
      rewrite Heq in Hlt. exact (Qlt_irrefl _ Hlt).
Qed.

(** Within the exact range, [GetModFeeAndSize] of the ancestor score
    returns the fee and the size of the smaller of the two feerates. *)
Lemma AncestorFee_GetModFeeAndSize_exact (a : CTxMemPoolEntry CTransaction) :
  in_exact_range (ancestor_fees a) (ancestor_sizes GetTxSize a) ->
  exists F S : Z,
    AncestorFee_GetModFeeAndSize GetTxSize a = (double_of_Z F, double_of_Z S)
    /\ In F (ancestor_fees a) /\ In S (ancestor_sizes GetTxSize a)
    /\ (feerate F S == ancestor_score GetTxSize a)%Q.
Proof.
  intros Hr. unfold AncestorFee_GetModFeeAndSize, ancestor_score.
  unfold ancestor_fees, ancestor_sizes in *.
  set (fee := GetModifiedFee a) in *. set (size := GetTxSize a) in *.
  set (feeA := GetModFeesWithAncestors a) in *.
  set (sizeA := GetSizeWithAncestors a) in *.
  destruct (Hr fee sizeA) as [HsA H1]; [simpl; auto | simpl; auto | ].
  destruct (Hr feeA size) as [Hs H2]; [simpl; auto | simpl; auto | ].
  destruct (exact_product fee sizeA HsA H1) as (_ & _ & R1 & _).
  destruct (exact_product feeA size Hs H2) as (_ & _ & R2 & _).
  rewrite (dgtb_represents _ _ _ _ R1 R2).
  destruct (Z.ltb_spec (feeA * size) (fee * sizeA)) as [Hlt | Hge].
  - exists feeA, sizeA. repeat split; simpl; auto.
    symmetry. apply Q.min_r. apply feerate_le; lia.
  - exists fee, size. repeat split; simpl; auto.
    symmetry. apply Q.min_l. apply feerate_le; lia.
Qed.

(** C2, in the range where the comparator computes exactly. When the sizes of two entries are positive and at
    most [2^53] and every product of one of their fees (own or with
    ancestors) with one of their sizes is at most [2^53] in magnitude, the
    pair [GetModFeeAndSize] returns has the ratio
    [min(modified_fee/size, mod_fees_with_ancestors/size_with_ancestors)],
    and the ancestor-score comparator places [a] before [b] exactly when
    the value of [a] is larger, or the values are equal and the hash of
    [a] is below the hash of [b]. *)
Theorem ancestor_score_order (a b : CTxMemPoolEntry CTransaction) :
  exact_rangeb (ancestor_fees a ++ ancestor_fees b)
               (ancestor_sizes GetTxSize a ++ ancestor_sizes GetTxSize b)
  = true ->
  (sort_value (AncestorFee_GetModFeeAndSize GetTxSize a)
   == ancestor_score GetTxSize a)%Q
  /\ (CompareTxMemPoolEntryByAncestorFee GetHash uint256_lt GetTxSize a b = true <->
      (ancestor_score GetTxSize b < ancestor_score GetTxSize a)%Q
      \/ ((ancestor_score GetTxSize a == ancestor_score GetTxSize b)%Q
          /\ uint256_lt (GetHash (GetTx a)) (GetHash (GetTx b)) = true)).
Proof.
  intros Hb. apply exact_rangeb_range in Hb. rename Hb into Hr.
  assert (Hra : in_exact_range (ancestor_fees a) (ancestor_sizes GetTxSize a))
    by (revert Hr; apply in_exact_range_incl; apply incl_appl; apply incl_refl).
  assert (Hrb : in_exact_range (ancestor_fees b) (ancestor_sizes GetTxSize b))
    by (revert Hr; apply in_exact_range_incl; apply incl_appr; apply incl_refl).
  destruct (AncestorFee_GetModFeeAndSize_exact a Hra)
    as (Fa & Sa & Ea & HFa & HSa & Qa).
  destruct (AncestorFee_GetModFeeAndSize_exact b Hrb)
    as (Fb & Sb & Eb & HFb & HSb & Qb).
  destruct (Hr Fa Sb) as [HSb0 H1]; [apply in_or_app; auto | apply in_or_app; auto | ].
  destruct (Hr Fb Sa) as [HSa0 H2]; [apply in_or_app; auto | apply in_or_app; auto | ].
  destruct (exact_product Fa Sb HSb0 H1) as (_ & _ & R1 & _).
  destruct (exact_product Fb Sa HSa0 H2) as (_ & _ & _ & R2).
  split.
  - rewrite Ea, <- Qa.
    destruct (Hr Fa Sa) as [_ H3]; [apply in_or_app; auto | apply in_or_app; auto | ].
    destruct (exact_product Fa Sa HSa0 H3) as (RF & RS & _).
    apply sort_value_represents; assumption.
  - unfold CompareTxMemPoolEntryByAncestorFee. rewrite Ea, Eb.
    rewrite (deqb_represents _ _ _ _ R1 R2), (dgtb_represents _ _ _ _ R1 R2).
    rewrite <- Qa, <- Qb.
    rewrite feerate_lt, feerate_eq by lia.
    destruct (Z.eqb_spec (Fa * Sb) (Sa * Fb)) as [Heq | Hne].
    + split; [intros H; right; split; [lia | assumption] | intros [H | [_ H]]; [lia | assumption]].
    + rewrite Z.ltb_lt. split; [intros H; left; lia | intros [H | [H _]]; lia].
Qed.

(** C7. The descendant-score comparator is reflexive, hence no strict
    weak ordering: for every entry whose fields hold 64-bit values,
    [compare(e, e)] returns [true], because the two cross products are
    equal and the tie is settled by [a.GetTime() >= b.GetTime()]. *)
Theorem descendant_score_compare_reflexive (e : CTxMemPoolEntry CTransaction) :
  in_uint64 (GetTxSize e) ->
  in_uint64 (GetSizeWithDescendants e) ->
  in_int64 (GetModFeesWithDescendants e) ->
  CompareTxMemPoolEntryByDescendantScore GetTxSize e e = true.
Proof.
  intros Hsize HsizeD HfeeD.
  pose proof (to_int64_range (nFee e + feeDelta e)) as Hfee.
  fold (GetModifiedFee e) in Hfee.
  unfold in_uint64, in_int64 in *.
  assert (Hpair : exists F S : Z,
            DescendantScore_GetModFeeAndSize GetTxSize e
            = (double_of_Z F, double_of_Z S)
            /\ Z.abs F < 2 ^ 64 /\ Z.abs S < 2 ^ 64).
  { unfold DescendantScore_GetModFeeAndSize.
    change (2 ^ 64) with (2 * 2 ^ 63) in *.
    destruct (dgtb _ _); eexists; eexists; (split; [reflexivity | lia]). }
  destruct Hpair as (F & S & Hp & HF & HS).
  unfold CompareTxMemPoolEntryByDescendantScore. rewrite Hp.
  rewrite (dmul_comm (double_of_Z S) (double_of_Z F)).
  rewrite deqb_refl.
  - apply Z.leb_refl.
  - apply dmul_not_nan; apply double_of_Z_wf; assumption.
Qed.

(** C8. The relay comparator reads the raw fee, the transaction size and
    the hash of an entry and nothing else: two pairs of entries that agree
    on these three, whatever their fee deltas and modified fees, are
    ordered alike. *)
Theorem relay_score_ignores_prioritisation
  (a b a' b' : CTxMemPoolEntry CTransaction) :
  GetFee a = GetFee a' -> GetTxSize a = GetTxSize a' ->
  GetHash (GetTx a) = GetHash (GetTx a') ->
  GetFee b = GetFee b' -> GetTxSize b = GetTxSize b' ->
  GetHash (GetTx b) = GetHash (GetTx b') ->
  CompareTxMemPoolEntryByScore GetHash uint256_lt GetTxSize a b
  = CompareTxMemPoolEntryByScore GetHash uint256_lt GetTxSize a' b'.
Proof.
  intros Hfa Hsa Hha Hfb Hsb Hhb.
  unfold CompareTxMemPoolEntryByScore.
  rewrite Hfa, Hsa, Hha, Hfb, Hsb, Hhb. reflexivity.
Qed.

End Comparators.

(** ** The buffer of disconnected-block transactions *)

Lemma filter_twice {A : Type} (f g : A -> bool) (l : list A) :
  filter f (filter g l) = filter (fun x => g x && f x) l.
Proof.
  induction l as [ | x l IH]; [reflexivity | ].
  simpl. destruct (g x); simpl; [destruct (f x) | ]; rewrite IH; reflexivity.
Qed.

Lemma to_uint64_range (z : Z) : in_uint64 (to_uint64 z).
Proof. unfold in_uint64, to_uint64. apply Z.mod_pos_bound. lia. Qed.

Section DisconnectedProperties.

Variable CTransaction : Type.
Variable GetHash : CTransaction -> uint256.
Variable RecursiveDynamicUsage : CTransaction -> Z.

Lemma queuedTx_find_present (h : uint256) (q : list CTransaction) :
  In h (map GetHash q) -> exists i, queuedTx_find GetHash h q = Some i.
Proof.
  induction q as [ | t q IH]; simpl; [tauto | ].
  intros [Heq | Hin].
  - unfold has_hash. rewrite Heq, Z.eqb_refl. eexists. reflexivity.
  - destruct (has_hash GetHash h t); [eexists; reflexivity | ].
    destruct (IH Hin) as [i ->]. eexists. reflexivity.
Qed.

Lemma queuedTx_find_absent (h : uint256) (q : list CTransaction) :
  queuedTx_find GetHash h q = None -> ~ In h (map GetHash q).
Proof.
  intros Hnone Hin. destruct (queuedTx_find_present h q Hin) as [i Hi].
  congruence.
Qed.

Lemma queuedTx_find_nth (h : uint256) (q : list CTransaction) (i : nat) :
  queuedTx_find GetHash h q = Some i ->
  exists t, nth_error q i = Some t /\ GetHash t = h.
Proof.
  revert i. induction q as [ | t q IH]; intros i; simpl; [discriminate | ].
  destruct (has_hash GetHash h t) eqn:Hh.
  - intros [= <-]. exists t. split; [reflexivity | ]. apply Z.eqb_eq. exact Hh.
  - destruct (queuedTx_find GetHash h q) as [j | ]; [ | discriminate].
    intros [= <-]. apply (IH j eq_refl).
Qed.

(** Erasing the element found for a hash is filtering that hash out. *)
Lemma queuedTx_erase_found (h : uint256) (q : list CTransaction) (i : nat) :
  unique_hashes GetHash q ->
  queuedTx_find GetHash h q = Some i ->
  queuedTx_erase i q = filter (fun x => negb (has_hash GetHash h x)) q.
Proof.
  unfold unique_hashes. revert i.
  induction q as [ | t q IH]; intros i Hu; simpl; [discriminate | ].
  inversion Hu as [ | ? ? Hnotin Hu']; subst.
  destruct (has_hash GetHash h t) eqn:Hh.
  - intros [= <-]. simpl.
    apply Z.eqb_eq in Hh.
    symmetry. apply forallb_filter_id. apply forallb_forall.
    intros x Hx. unfold has_hash.
    destruct (Z.eqb_spec (GetHash x) h) as [Hxh | ]; [exfalso | reflexivity].
    apply Hnotin. rewrite Hh, <- Hxh. apply in_map. exact Hx.
  - destruct (queuedTx_find GetHash h q) as [j | ] eqn:Hf; [ | discriminate].
    intros [= <-]. simpl. f_equal. apply (IH j Hu' eq_refl).
Qed.

Lemma filter_hash_absent (h : uint256) (q : list CTransaction) :
  queuedTx_find GetHash h q = None ->
  filter (fun x => negb (has_hash GetHash h x)) q = q.
Proof.
  intros Hnone. apply forallb_filter_id. apply forallb_forall.
  intros x Hx. unfold has_hash.
  destruct (Z.eqb_spec (GetHash x) h) as [Hxh | ]; [exfalso | reflexivity].
  apply (queuedTx_find_absent h q Hnone). rewrite <- Hxh. apply in_map. exact Hx.
Qed.

Lemma unique_hashes_filter (f : CTransaction -> bool) (q : list CTransaction) :
  unique_hashes GetHash q -> unique_hashes GetHash (filter f q).
Proof.
  unfold unique_hashes. induction q as [ | t q IH]; simpl; [trivial | ].
  intros Hu. inversion Hu as [ | ? ? Hnotin Hu']; subst.
  destruct (f t); [ | apply IH; assumption].
  simpl. constructor; [ | apply IH; assumption].
  intros Hin. apply Hnotin. apply in_map_iff in Hin as (x & Hx & Hin).
  apply filter_In in Hin as [Hin _]. rewrite <- Hx. apply in_map. exact Hin.
Qed.

Lemma queuedTx_insert_unique (t : CTransaction) (q : list CTransaction) :
  unique_hashes GetHash q -> unique_hashes GetHash (queuedTx_insert GetHash t q).
Proof.
  unfold unique_hashes, queuedTx_insert. intros Hu.
  destruct (queuedTx_find GetHash (GetHash t) q) as [i | ] eqn:Hf; [assumption | ].
  rewrite map_app. apply NoDup_app; [assumption | | ].
  - simpl. constructor; [simpl; tauto | constructor].
  - intros h Hh [<- | []]. exact (queuedTx_find_absent _ _ Hf Hh).
Qed.

Lemma queuedTx_erase_unique (i : nat) (q : list CTransaction) :
  unique_hashes GetHash q -> unique_hashes GetHash (queuedTx_erase i q).
Proof.
  unfold unique_hashes. revert i.
  induction q as [ | t q IH]; intros i Hu; [destruct i; assumption | ].
  inversion Hu as [ | ? ? Hnotin Hu']; subst.
  destruct i as [ | i]; simpl; [assumption | ].
  constructor; [ | apply IH; assumption].
  intros Hin. apply Hnotin. clear - Hin.
  revert i Hin. induction q as [ | x q IHq]; intros i; destruct i; simpl; try tauto.
  intros [Heq | Hin]; [left; assumption | right; apply (IHq i Hin)].
Qed.

(** The operations keep the hash index unique. *)
Lemma addTransaction_unique (d : DisconnectedBlockTransactions CTransaction)
  (t : CTransaction) :
  unique_hashes GetHash (queuedTx d) ->
  unique_hashes GetHash
    (queuedTx (addTransaction GetHash RecursiveDynamicUsage d t)).
Proof. intros Hu. simpl. apply queuedTx_insert_unique. assumption. Qed.

Lemma removeEntry_unique (d d' : DisconnectedBlockTransactions CTransaction)
  (entry : nat) :
  unique_hashes GetHash (queuedTx d) ->
  removeEntry RecursiveDynamicUsage d entry = Some d' ->
  unique_hashes GetHash (queuedTx d').
Proof.
  unfold removeEntry. intros Hu.
  destruct (nth_error (queuedTx d) entry); [ | discriminate].
  intros [= <-]. simpl. apply queuedTx_erase_unique. assumption.
Qed.

Lemma removeForBlock_step_queue (d : DisconnectedBlockTransactions CTransaction)
  (t : CTransaction) :
  unique_hashes GetHash (queuedTx d) ->
  queuedTx (removeForBlock_step GetHash RecursiveDynamicUsage d t)
  = filter (fun x => negb (has_hash GetHash (GetHash t) x)) (queuedTx d).
Proof.
  intros Hu. unfold removeForBlock_step.
  destruct (queuedTx_find GetHash (GetHash t) (queuedTx d)) as [i | ] eqn:Hf.
  - destruct (queuedTx_find_nth _ _ _ Hf) as (found & -> & _). simpl.
    apply queuedTx_erase_found; assumption.
  - symmetry. apply filter_hash_absent. assumption.
Qed.

Lemma removeForBlock_loop_queue (vtx : list CTransaction)
  (d : DisconnectedBlockTransactions CTransaction) :
  unique_hashes GetHash (queuedTx d) ->
  queuedTx (fold_left (removeForBlock_step GetHash RecursiveDynamicUsage) vtx d)
  = filter (fun x => negb (hash_in GetHash vtx x)) (queuedTx d).
Proof.
  revert d. induction vtx as [ | t vtx IH]; intros d Hu; simpl fold_left.
  - symmetry. apply forallb_filter_id. apply forallb_forall. reflexivity.
  - rewrite IH
      by (rewrite removeForBlock_step_queue by assumption;
          apply unique_hashes_filter; assumption).
    rewrite removeForBlock_step_queue by assumption.
    rewrite filter_twice. apply filter_ext. intros x.
    unfold hash_in, has_hash. simpl existsb.
    rewrite negb_orb, (Z.eqb_sym (GetHash x) (GetHash t)). reflexivity.
Qed.

Lemma removeForBlock_queue (d : DisconnectedBlockTransactions CTransaction)
  (vtx : list CTransaction) :
  unique_hashes GetHash (queuedTx d) ->
  queuedTx (removeForBlock GetHash RecursiveDynamicUsage d vtx)
  = filter (fun x => negb (hash_in GetHash vtx x)) (queuedTx d).
Proof.
  intros Hu. unfold removeForBlock.
  destruct (queuedTx d) as [ | t q] eqn:Hq; [rewrite Hq; reflexivity | ].
  rewrite <- Hq in *. apply removeForBlock_loop_queue. assumption.
Qed.

Lemma removeForBlock_unique (d : DisconnectedBlockTransactions CTransaction)
  (vtx : list CTransaction) :
  unique_hashes GetHash (queuedTx d) ->
  unique_hashes GetHash
    (queuedTx (removeForBlock GetHash RecursiveDynamicUsage d vtx)).
Proof.
  intros Hu. rewrite removeForBlock_queue by assumption.
  apply unique_hashes_filter. assumption.
Qed.

Lemma hash_in_spec (vtx : list CTransaction) (t : CTransaction) :
  hash_in GetHash vtx t = true <-> exists v, In v vtx /\ GetHash v = GetHash t.
Proof.
  unfold hash_in, has_hash. rewrite existsb_exists.
  split; intros (v & Hin & Hv); exists v; (split; [assumption | ]);
    apply Z.eqb_eq; assumption.
Qed.

(** C5. On a buffer whose hash index is unique, [removeForBlock(vtx)]
    leaves exactly the queued transactions whose hash is the hash of no
    element of [vtx], in their insertion order: none of the hashes of
    [vtx] remains, and every other queued transaction is still there. *)
Theorem removeForBlock_removes_block_hashes
  (d : DisconnectedBlockTransactions CTransaction) (vtx : list CTransaction) :
  unique_hashes GetHash (queuedTx d) ->
  queuedTx (removeForBlock GetHash RecursiveDynamicUsage d vtx)
  = filter (fun t => negb (hash_in GetHash vtx t)) (queuedTx d)
  /\ (forall t v,
        In t (queuedTx (removeForBlock GetHash RecursiveDynamicUsage d vtx)) ->
        In v vtx -> GetHash v <> GetHash t)
  /\ (forall t,
        In t (queuedTx d) ->
        (forall v, In v vtx -> GetHash v <> GetHash t) ->
        In t (queuedTx (removeForBlock GetHash RecursiveDynamicUsage d vtx))).
Proof.
  intros Hu. rewrite (removeForBlock_queue d vtx Hu).
  split; [reflexivity | split].
  - intros t v Ht Hv Heq. apply filter_In in Ht as [_ Hneg].
    apply negb_true_iff in Hneg.
    assert (Hin : hash_in GetHash vtx t = true)
      by (apply hash_in_spec; exists v; split; assumption).
    congruence.
  - intros t Ht Hfresh. apply filter_In. split; [assumption | ].
    apply negb_true_iff.
    destruct (hash_in GetHash vtx t) eqn:Hin; [exfalso | reflexivity].
    apply hash_in_spec in Hin as (v & Hv & Heq). exact (Hfresh v Hv Heq).
Qed.

(** C4. [addTransaction] of a transaction whose hash is already queued
    stores nothing: the container is what it was. *)
Theorem addTransaction_duplicate_rejected
  (d : DisconnectedBlockTransactions CTransaction) (t : CTransaction) :
  In (GetHash t) (map GetHash (queuedTx d)) ->
  queuedTx (addTransaction GetHash RecursiveDynamicUsage d t) = queuedTx d.
Proof.
  intros Hin. unfold addTransaction, queuedTx_insert. simpl.
  destruct (queuedTx_find_present _ _ Hin) as [i ->]. reflexivity.
Qed.

(** *** The memory accounting *)

Lemma inner_usage_app (q1 q2 : list CTransaction) :
  inner_usage RecursiveDynamicUsage (q1 ++ q2)
  = inner_usage RecursiveDynamicUsage q1 + inner_usage RecursiveDynamicUsage q2.
Proof.
  induction q1 as [ | t q1 IH]; simpl; [reflexivity | ]. rewrite IH. lia.
Qed.

Lemma inner_usage_erase (q : list CTransaction) (i : nat) (t : CTransaction) :
  nth_error q i = Some t ->
  inner_usage RecursiveDynamicUsage (queuedTx_erase i q)
  = inner_usage RecursiveDynamicUsage q - RecursiveDynamicUsage t.
Proof.
  revert i. induction q as [ | x q IH]; intros i; destruct i as [ | i]; simpl;
    try discriminate.
  - intros [= ->]. lia.
  - intros Hn. rewrite (IH i Hn). lia.
Qed.

Lemma init_consistent :
  usage_consistent RecursiveDynamicUsage
    (DisconnectedBlockTransactions_init CTransaction).
Proof. reflexivity. Qed.

Lemma clear_consistent (d : DisconnectedBlockTransactions CTransaction) :
  usage_consistent RecursiveDynamicUsage (clear d).
Proof. reflexivity. Qed.

Lemma addTransaction_fresh_consistent
  (d : DisconnectedBlockTransactions CTransaction) (t : CTransaction) :
  usage_consistent RecursiveDynamicUsage d ->
  ~ In (GetHash t) (map GetHash (queuedTx d)) ->
  usage_consistent RecursiveDynamicUsage
    (addTransaction GetHash RecursiveDynamicUsage d t).
Proof.
  unfold usage_consistent, addTransaction, queuedTx_insert. simpl.
  intros Hc Hfresh.
  destruct (queuedTx_find GetHash (GetHash t) (queuedTx d)) as [i | ] eqn:Hf.
  - exfalso. apply Hfresh.
    destruct (queuedTx_find_nth _ _ _ Hf) as (x & Hx & Hh).
    rewrite <- Hh. apply in_map. apply (nth_error_In _ _ Hx).
  - rewrite inner_usage_app, Hc. simpl. unfold to_uint64.
    rewrite Z.add_0_r. apply Zplus_mod_idemp_l.
Qed.

Lemma removeEntry_consistent
  (d d' : DisconnectedBlockTransactions CTransaction) (entry : nat) :
  usage_consistent RecursiveDynamicUsage d ->
  removeEntry RecursiveDynamicUsage d entry = Some d' ->
  usage_consistent RecursiveDynamicUsage d'.
Proof.
  unfold usage_consistent, removeEntry. intros Hc.
  destruct (nth_error (queuedTx d) entry) as [t | ] eqn:Hn; [ | discriminate].
  intros [= <-]. simpl. rewrite (inner_usage_erase _ _ _ Hn), Hc.
  unfold to_uint64. apply Zminus_mod_idemp_l.
Qed.

Lemma removeForBlock_step_consistent
  (d : DisconnectedBlockTransactions CTransaction) (t : CTransaction) :
  usage_consistent RecursiveDynamicUsage d ->
  usage_consistent RecursiveDynamicUsage
    (removeForBlock_step GetHash RecursiveDynamicUsage d t).
Proof.
  unfold usage_consistent, removeForBlock_step. intros Hc.
  destruct (queuedTx_find GetHash (GetHash t) (queuedTx d)) as [i | ]; [ | assumption].
  destruct (nth_error (queuedTx d) i) as [found | ] eqn:Hn; [ | assumption].
  simpl. rewrite (inner_usage_erase _ _ _ Hn), Hc.
  unfold to_uint64. apply Zminus_mod_idemp_l.
Qed.

Lemma removeForBlock_consistent
  (d : DisconnectedBlockTransactions CTransaction) (vtx : list CTransaction) :
  usage_consistent RecursiveDynamicUsage d ->
  usage_consistent RecursiveDynamicUsage
    (removeForBlock GetHash RecursiveDynamicUsage d vtx).
Proof.
  intros Hc. unfold removeForBlock.
  destruct (queuedTx d) as [ | x q]; [assumption | ].
  revert d Hc. induction vtx as [ | t vtx IH]; intros d Hc; simpl; [assumption | ].
  apply IH. apply removeForBlock_step_consistent. assumption.
Qed.

(** C3. The accounting invariant does not survive every operation:
    [addTransaction] of a transaction whose hash is already queued and
    whose dynamic usage is not zero stores nothing and still adds the usage
    to [cachedInnerUsage], which then differs from the sum over
    [queuedTx]. (The lemmas above show the invariant kept by [clear],
    [removeEntry], [removeForBlock] and by [addTransaction] of a new
    hash.) *)
Theorem addTransaction_duplicate_breaks_usage
  (d : DisconnectedBlockTransactions CTransaction) (t : CTransaction) :
  usage_consistent RecursiveDynamicUsage d ->
  In (GetHash t) (map GetHash (queuedTx d)) ->
  0 < RecursiveDynamicUsage t < 2 ^ 64 ->
  queuedTx (addTransaction GetHash RecursiveDynamicUsage d t) = queuedTx d
  /\ ~ usage_consistent RecursiveDynamicUsage
         (addTransaction GetHash RecursiveDynamicUsage d t).
Proof.
  intros Hc Hin Hu.
  assert (Hq : queuedTx (addTransaction GetHash RecursiveDynamicUsage d t)
               = queuedTx d).
  { unfold addTransaction, queuedTx_insert. simpl.
    destruct (queuedTx_find_present _ _ Hin) as [i ->]. reflexivity. }
  split; [exact Hq | ].
  unfold usage_consistent. rewrite Hq, <- Hc.
  unfold addTransaction. simpl.
  pose proof (to_uint64_range (inner_usage RecursiveDynamicUsage (queuedTx d))) as Hr.
  rewrite <- Hc in Hr. unfold in_uint64 in Hr. unfold to_uint64.
  set (c := cachedInnerUsage d) in *. set (u := RecursiveDynamicUsage t) in *.
  intros Heq.
  destruct (Z_lt_ge_dec (c + u) (2 ^ 64)) as [Hsmall | Hbig].
  - rewrite Z.mod_small in Heq by lia. lia.
  - replace (c + u) with (c + u - 2 ^ 64 + 1 * 2 ^ 64) in Heq by lia.
    rewrite Z.mod_add in Heq by lia. rewrite Z.mod_small in Heq by lia. lia.
Qed.

(** C10. The destructor's assertion fails on a buffer whose queue is not
    empty, and passes on every buffer after [clear()]. *)
Theorem destructor_assertion (d : DisconnectedBlockTransactions CTransaction) :
  (queuedTx d <> [] -> destructor d = assert_fails)
  /\ destructor (clear d) = assert_passes.
Proof.
  split; [ | reflexivity].
  unfold destructor. destruct (queuedTx d); [congruence | reflexivity].
Qed.

End DisconnectedProperties.

(** ** Constants *)

(** C9. The fake height of mempool coins is [0x7FFFFFFF], that is
    [2^31 - 1], and the half-life of the rolling fee is 43,200 seconds. *)
Theorem sentinel_constants :
  MEMPOOL_HEIGHT = 2147483647
  /\ MEMPOOL_HEIGHT = 2 ^ 31 - 1
  /\ ROLLING_FEE_HALFLIFE = 43200.
Proof. repeat split. Qed.

(** ** The statements on the sample data *)

(** C1: the parent (score 40/3) sorts below its child (score 15). *)
Lemma descendant_score_order_witness :
  exact_rangeb (descendant_fees sample_parent ++ descendant_fees sample_child)
               (descendant_sizes sample_GetTxSize sample_parent
                ++ descendant_sizes sample_GetTxSize sample_child) = true
  /\ (sort_value (DescendantScore_GetModFeeAndSize sample_GetTxSize sample_parent)
      == descendant_score sample_GetTxSize sample_parent)%Q
  /\ CompareTxMemPoolEntryByDescendantScore sample_GetTxSize
       sample_parent sample_child = true.
Proof.
  split; [reflexivity | ].
  destruct (descendant_score_order SampleTx sample_GetTxSize
              sample_parent sample_child eq_refl) as (Hvalue & Horder & _).
  split; [exact Hvalue | ].
  apply Horder. left. reflexivity.
Defined.

(** C1 does not hold for all entries: take two whose modified fees are
    [2^53 + 1] and [2^53]. The conversion to [double] rounds the first to
    the second, the comparator sees a tie and places the entry of higher
    score, which entered later, first; the pair it returns for that entry
    does not have the ratio of the score. *)
Lemma descendant_score_order_rounding :
  (descendant_score sample_GetTxSize sample_low
   < descendant_score sample_GetTxSize sample_high)%Q
  /\ CompareTxMemPoolEntryByDescendantScore sample_GetTxSize
       sample_high sample_low = true
  /\ CompareTxMemPoolEntryByDescendantScore sample_GetTxSize
       sample_low sample_high = false
  /\ ~ (sort_value (DescendantScore_GetModFeeAndSize sample_GetTxSize sample_high)
        == descendant_score sample_GetTxSize sample_high)%Q.
Proof.
  split; [reflexivity | ].
  split; [reflexivity | ].
  split; [reflexivity | ].
  vm_compute. discriminate.
Qed.

(** C2: the child (score 40/3) sorts before its parent (score 10). *)
Lemma ancestor_score_order_witness :
  exact_rangeb (ancestor_fees sample_child ++ ancestor_fees sample_parent)
               (ancestor_sizes sample_GetTxSize sample_child
                ++ ancestor_sizes sample_GetTxSize sample_parent) = true
  /\ (sort_value (AncestorFee_GetModFeeAndSize sample_GetTxSize sample_child)
      == ancestor_score sample_GetTxSize sample_child)%Q
  /\ CompareTxMemPoolEntryByAncestorFee sample_hash Z.ltb sample_GetTxSize
       sample_child sample_parent = true.
Proof.
  split; [reflexivity | ].
  destruct (ancestor_score_order SampleTx sample_hash Z.ltb sample_GetTxSize
              sample_child sample_parent eq_refl) as (Hvalue & Horder).
  split; [exact Hvalue | ].
  apply Horder. left. reflexivity.
Defined.

(** C2 does not hold for all entries: on the same two the comparator
    sees a tie and lets the hashes decide, so the entry of lower score
    comes first, and the pair returned for the other entry does not have
    the ratio of its score. *)
Lemma ancestor_score_order_rounding :
  (ancestor_score sample_GetTxSize sample_low
   < ancestor_score sample_GetTxSize sample_high)%Q
  /\ CompareTxMemPoolEntryByAncestorFee sample_hash Z.ltb sample_GetTxSize
       sample_low sample_high = true
  /\ CompareTxMemPoolEntryByAncestorFee sample_hash Z.ltb sample_GetTxSize
       sample_high sample_low = false
  /\ ~ (sort_value (AncestorFee_GetModFeeAndSize sample_GetTxSize sample_high)
        == ancestor_score sample_GetTxSize sample_high)%Q.
Proof.
  split; [reflexivity | ].
  split; [reflexivity | ].
  split; [reflexivity | ].
  vm_compute. discriminate.
Qed.

(** C3: a second [addTransaction] of the first sample transaction. *)
Lemma addTransaction_duplicate_breaks_usage_witness :
  usage_consistent sample_usage sample_buffer
  /\ In (sample_hash sample_tx1) (map sample_hash (queuedTx sample_buffer))
  /\ 0 < sample_usage sample_tx1 < 2 ^ 64
  /\ queuedTx (addTransaction sample_hash sample_usage sample_buffer sample_tx1)
     = queuedTx sample_buffer
  /\ ~ usage_consistent sample_usage
         (addTransaction sample_hash sample_usage sample_buffer sample_tx1).
Proof.
  assert (Hc : usage_consistent sample_usage sample_buffer) by reflexivity.
  assert (Hin : In (sample_hash sample_tx1)
                   (map sample_hash (queuedTx sample_buffer)))
    by (simpl; auto).
  assert (Hu : 0 < sample_usage sample_tx1 < 2 ^ 64) by (split; reflexivity).
  split; [exact Hc | split; [exact Hin | split; [exact Hu | ]]].
  exact (addTransaction_duplicate_breaks_usage SampleTx sample_hash sample_usage
           sample_buffer sample_tx1 Hc Hin Hu).
Defined.

(** C4: the container after the refused insertion. *)
Lemma addTransaction_duplicate_rejected_witness :
  In (sample_hash sample_tx1) (map sample_hash (queuedTx sample_buffer))
  /\ queuedTx (addTransaction sample_hash sample_usage sample_buffer sample_tx1)
     = [sample_tx1; sample_tx2; sample_tx3].
Proof.
  assert (Hin : In (sample_hash sample_tx1)
                   (map sample_hash (queuedTx sample_buffer)))
    by (simpl; auto).
  split; [exact Hin | ].
  exact (addTransaction_duplicate_rejected SampleTx sample_hash sample_usage
           sample_buffer sample_tx1 Hin).
Defined.

Lemma sample_buffer_unique : unique_hashes sample_hash (queuedTx sample_buffer).
Proof.
  unfold unique_hashes. simpl.
  repeat constructor; simpl; intuition discriminate.
Defined.

(** C5: a block that confirms the second sample transaction and one that
    was never queued. *)
Lemma removeForBlock_removes_block_hashes_witness :
  unique_hashes sample_hash (queuedTx sample_buffer)
  /\ queuedTx (removeForBlock sample_hash sample_usage sample_buffer
                 [{| sample_hash := 9; sample_usage := 100 |}; sample_tx2])
     = [sample_tx1; sample_tx3].
Proof.
  split; [exact sample_buffer_unique | ].
  exact (proj1 (removeForBlock_removes_block_hashes SampleTx sample_hash
                  sample_usage sample_buffer
                  [{| sample_hash := 9; sample_usage := 100 |}; sample_tx2]
                  sample_buffer_unique)).
Defined.

(** C6: the frequency one half. *)
Lemma setSanityCheck_frequency_witness :
  valid_binary prec emax double_half = true
  /\ dleb (double_of_Z 0) double_half = true
  /\ dleb double_half (double_of_Z 1) = true
  /\ exists pool',
       setSanityCheck sample_pool double_half = Some pool'
       /\ 0 <= nCheckFrequency pool' <= 4294967295
       /\ (check_probability pool' <= SF2Q double_half)%Q
       /\ (SF2Q double_half - check_probability pool' < 1 # 2147483648)%Q
       /\ (double_half = dFrequency_default -> nCheckFrequency pool' = 4294967295).
Proof.
  split; [reflexivity | split; [reflexivity | split; [reflexivity | ]]].
  exact (setSanityCheck_frequency sample_pool double_half eq_refl eq_refl eq_refl).
Defined.

(** C6 does not hold with equality. At the frequency [1.0] the stored
    value is [2^32 - 1], which read as "times in [2^32]" is neither the
    frequency [1.0] nor a check on every mutation; at the frequency [0.5]
    the truncation stores [2^31 - 1], and [(2^31 - 1) / 2^32] is not one
    half. *)
Lemma setSanityCheck_one_not_certain :
  (setSanityCheck sample_pool dFrequency_default
   = Some {| nCheckFrequency := 4294967295; nTransactionsUpdated := 0;
             totalTxSize := 0; pool_cachedInnerUsage := 0 |}
   /\ (SF2Q dFrequency_default == 1)%Q
   /\ ~ (check_probability
           {| nCheckFrequency := 4294967295; nTransactionsUpdated := 0;
              totalTxSize := 0; pool_cachedInnerUsage := 0 |}
         == SF2Q dFrequency_default)%Q)
  /\ (setSanityCheck sample_pool double_half
      = Some {| nCheckFrequency := 2147483647; nTransactionsUpdated := 0;
                totalTxSize := 0; pool_cachedInnerUsage := 0 |}
      /\ (SF2Q double_half == 1 # 2)%Q
      /\ ~ (check_probability
              {| nCheckFrequency := 2147483647; nTransactionsUpdated := 0;
                 totalTxSize := 0; pool_cachedInnerUsage := 0 |}
            == SF2Q double_half)%Q).
Proof.
  split; (split; [reflexivity | split; [reflexivity | vm_compute; discriminate]]).
Qed.

(** C7: the comparator applied to the sample parent and itself. *)
Lemma descendant_score_compare_reflexive_witness :
  in_uint64 (sample_GetTxSize sample_parent)
  /\ in_uint64 (GetSizeWithDescendants sample_parent)
  /\ in_int64 (GetModFeesWithDescendants sample_parent)
  /\ CompareTxMemPoolEntryByDescendantScore sample_GetTxSize
       sample_parent sample_parent = true.
Proof.
  assert (H1 : in_uint64 (sample_GetTxSize sample_parent)) by (split; reflexivity || discriminate).
  assert (H2 : in_uint64 (GetSizeWithDescendants sample_parent)) by (split; reflexivity || discriminate).
  assert (H3 : in_int64 (GetModFeesWithDescendants sample_parent)) by (split; reflexivity || discriminate).
  split; [exact H1 | split; [exact H2 | split; [exact H3 | ]]].
  exact (descendant_score_compare_reflexive SampleTx sample_GetTxSize
           sample_parent H1 H2 H3).
Defined.

(** C8: an entry before and after prioritisation, against the child. *)
Lemma relay_score_ignores_prioritisation_witness :
  feeDelta sample_plain <> feeDelta sample_prioritised
  /\ GetModifiedFee sample_plain <> GetModifiedFee sample_prioritised
  /\ GetFee sample_plain = GetFee sample_prioritised
  /\ sample_GetTxSize sample_plain = sample_GetTxSize sample_prioritised
  /\ sample_hash (GetTx sample_plain) = sample_hash (GetTx sample_prioritised)
  /\ CompareTxMemPoolEntryByScore sample_hash Z.ltb sample_GetTxSize
       sample_plain sample_child
     = CompareTxMemPoolEntryByScore sample_hash Z.ltb sample_GetTxSize
         sample_prioritised sample_child.
Proof.
  split; [discriminate | split; [discriminate | ]].
  split; [reflexivity | split; [reflexivity | split; [reflexivity | ]]].
  exact (relay_score_ignores_prioritisation SampleTx sample_hash Z.ltb
           sample_GetTxSize sample_plain sample_child
           sample_prioritised sample_child
           eq_refl eq_refl eq_refl eq_refl eq_refl eq_refl).
Defined.

(** C10: destroying the sample buffer before it is drained. *)
Lemma destructor_assertion_witness :
  queuedTx sample_buffer <> []
  /\ destructor sample_buffer = assert_fails
  /\ destructor (clear sample_buffer) = assert_passes.
Proof.
  assert (Hne : queuedTx sample_buffer <> []) by discriminate.
  split; [exact Hne | ].
  split.
  - exact (proj1 (destructor_assertion SampleTx sample_buffer) Hne).
  - exact (proj2 (destructor_assertion SampleTx sample_buffer)).
Defined.

(* ===================================================================== *)
(** * Part III: further properties of the header                          *)
(* ===================================================================== *)

(** ** Comparison of doubles *)

Lemma SFcompare_antisym (x y : double) :
  SFcompare y x = match SFcompare x y with
                  | Some c => Some (CompOpp c)
                  | None => None
                  end.
Proof.
  destruct x as [sx | sx | | sx mx ex], y as [sy | sy | | sy my ey];
    try reflexivity; try (destruct sx, sy; reflexivity);
    try (destruct sx; reflexivity); try (destruct sy; reflexivity).
  cbn [SFcompare].
  rewrite (Z.compare_antisym ey ex).
  change (Pos.compare_cont Eq mx my) with (Pos.compare mx my).
  change (Pos.compare_cont Eq my mx) with (Pos.compare my mx).
  rewrite (Pos.compare_antisym my mx).
  destruct sx, sy; try reflexivity;
    destruct (ey ?= ex); simpl; try reflexivity;
    destruct (my ?= mx)%positive; reflexivity.
Qed.

Lemma deqb_sym (x y : double) : deqb x y = deqb y x.
Proof.
  unfold deqb, SFeqb. rewrite (SFcompare_antisym x y).
  destruct (SFcompare x y) as [[ | | ] | ]; reflexivity.
Qed.

Lemma dltb_asym (x y : double) : dltb x y = true -> dltb y x = false.
Proof.
  unfold dltb, SFltb. rewrite (SFcompare_antisym x y).
  destruct (SFcompare x y) as [[ | | ] | ]; simpl; congruence.
Qed.

Lemma dltb_not_eq (x y : double) : dltb x y = true -> deqb x y = false.
Proof.
  unfold dltb, deqb, SFltb, SFeqb.
  destruct (SFcompare x y) as [[ | | ] | ]; simpl; congruence.
Qed.

Lemma dltb_irrefl (x : double) : dltb x x = false.
Proof.
  destruct (dltb x x) eqn:H; [ | reflexivity].
  pose proof (dltb_asym x x H). congruence.
Qed.

(** Doubles that are not NaN are comparable. *)
Lemma SFcompare_defined (x y : double) :
  x <> S754_nan -> y <> S754_nan -> exists c, SFcompare x y = Some c.
Proof.
  intros Hx Hy.
  destruct x as [sx | sx | | sx mx ex]; try congruence;
  destruct y as [sy | sy | | sy my ey]; try congruence;
  cbn [SFcompare]; eexists; reflexivity.
Qed.

Lemma dltb_total (x y : double) :
  x <> S754_nan -> y <> S754_nan ->
  deqb x y = false -> dltb x y = false -> dltb y x = true.
Proof.
  intros Hx Hy. unfold deqb, dltb, SFeqb, SFltb.
  rewrite (SFcompare_antisym x y).
  destruct (SFcompare_defined x y Hx Hy) as [c ->].
  destruct c; simpl; congruence.
Qed.

(** ** The four comparators as orders *)

Lemma in_exact_range_3 (fa fb fc sa sb sc : list Z) :
  in_exact_range (fa ++ fb ++ fc) (sa ++ sb ++ sc) ->
  in_exact_range (fa ++ fb) (sa ++ sb)
  /\ in_exact_range (fb ++ fc) (sb ++ sc)
  /\ in_exact_range (fa ++ fc) (sa ++ sc).
Proof.
  intros H.
  split; [ | split]; intros x y Hx Hy; apply H;
    apply in_app_or in Hx; apply in_app_or in Hy;
    rewrite ?in_app_iff; tauto.
Qed.

Section ComparatorOrders.

Variable CTransaction : Type.
Variable GetHash : CTransaction -> uint256.
Variable uint256_lt : uint256 -> uint256 -> bool.
Variable GetTxSize : CTxMemPoolEntry CTransaction -> Z.

(** X1. [CompareTxMemPoolEntryByEntryTime] is a strict weak ordering:
    irreflexive, asymmetric, transitive, and two entries that it does not
    order are the entries with the same time, so that being unordered is
    transitive too. *)
Theorem entry_time_strict_weak_order (a b c : CTxMemPoolEntry CTransaction) :
  CompareTxMemPoolEntryByEntryTime a a = false
  /\ (CompareTxMemPoolEntryByEntryTime a b = true ->
      CompareTxMemPoolEntryByEntryTime b a = false)
  /\ (CompareTxMemPoolEntryByEntryTime a b = true ->
      CompareTxMemPoolEntryByEntryTime b c = true ->
      CompareTxMemPoolEntryByEntryTime a c = true)
  /\ (CompareTxMemPoolEntryByEntryTime a b = false
      /\ CompareTxMemPoolEntryByEntryTime b a = false
      <-> GetTime a = GetTime b)
  /\ (CompareTxMemPoolEntryByEntryTime a b = false ->
      CompareTxMemPoolEntryByEntryTime b a = false ->
      CompareTxMemPoolEntryByEntryTime b c = false ->
      CompareTxMemPoolEntryByEntryTime c b = false ->
      CompareTxMemPoolEntryByEntryTime a c = false
      /\ CompareTxMemPoolEntryByEntryTime c a = false).
Proof.
  unfold CompareTxMemPoolEntryByEntryTime.
  repeat split; intros;
    repeat match goal with
           | H : (_ <? _) = true |- _ => apply Z.ltb_lt in H
           | H : (_ <? _) = false |- _ => apply Z.ltb_ge in H
           | H : _ /\ _ |- _ => destruct H
           | |- (_ <? _) = true => apply Z.ltb_lt
           | |- (_ <? _) = false => apply Z.ltb_ge
           end; lia.
Qed.

(** X2. The relay comparator never orders an entry before itself and
    never orders two entries both ways, whatever their fees and sizes,
    as long as the order of the hashes is asymmetric. *)
Theorem relay_score_asymmetric (a b : CTxMemPoolEntry CTransaction) :
  (forall x y, uint256_lt x y = true -> uint256_lt y x = false) ->
  CompareTxMemPoolEntryByScore GetHash uint256_lt GetTxSize a a = false
  /\ (CompareTxMemPoolEntryByScore GetHash uint256_lt GetTxSize a b = true ->
      CompareTxMemPoolEntryByScore GetHash uint256_lt GetTxSize b a = false).
Proof.
  intros Hasym.
  assert (Hgen : forall u v,
            CompareTxMemPoolEntryByScore GetHash uint256_lt GetTxSize u v = true ->
            CompareTxMemPoolEntryByScore GetHash uint256_lt GetTxSize v u = false).
  { intros u v. unfold CompareTxMemPoolEntryByScore.
    set (f1 := dmul (double_of_Z (GetFee u)) (double_of_Z (GetTxSize v))).
    set (f2 := dmul (double_of_Z (GetFee v)) (double_of_Z (GetTxSize u))).
    rewrite (deqb_sym f2 f1).
    destruct (deqb f1 f2) eqn:Heq.
    - apply Hasym.
    - unfold dgtb. apply dltb_asym. }
  split; [ | apply Hgen].
  destruct (CompareTxMemPoolEntryByScore GetHash uint256_lt GetTxSize a a) eqn:H;
    [ | reflexivity].
  pose proof (Hgen a a H). congruence.
Qed.

(** X3. Where the arithmetic is exact (positive sizes up to [2^53], every
    product of a fee with a size at most [2^53] in magnitude) the relay
    comparator sorts by the feerate [fee/size] of the raw fee in
    descending order and, among equal feerates, puts the greater hash
    first. *)
Theorem relay_score_order (a b : CTxMemPoolEntry CTransaction) :
  exact_rangeb [GetFee a; GetFee b] [GetTxSize a; GetTxSize b] = true ->
  CompareTxMemPoolEntryByScore GetHash uint256_lt GetTxSize a b = true <->
  (relay_score GetTxSize b < relay_score GetTxSize a)%Q
  \/ ((relay_score GetTxSize a == relay_score GetTxSize b)%Q
      /\ uint256_lt (GetHash (GetTx b)) (GetHash (GetTx a)) = true).
Proof.
  intros Hb. apply exact_rangeb_range in Hb.
  destruct (Hb (GetFee a) (GetTxSize b)) as [Hsb H1]; [simpl; auto | simpl; auto | ].
  destruct (Hb (GetFee b) (GetTxSize a)) as [Hsa H2]; [simpl; auto | simpl; auto | ].
  destruct (exact_product _ _ Hsb H1) as (_ & _ & R1 & _).
  destruct (exact_product _ _ Hsa H2) as (_ & _ & R2 & _).
  unfold CompareTxMemPoolEntryByScore, relay_score.
  rewrite (deqb_represents _ _ _ _ R1 R2), (dgtb_represents _ _ _ _ R1 R2).
  rewrite feerate_lt, feerate_eq by lia.
  destruct (Z.eqb_spec (GetFee a * GetTxSize b) (GetFee b * GetTxSize a)) as [Heq | Hne].
  - split; [intros H; right; split; [lia | assumption]
           | intros [H | [_ H]]; [lia | assumption]].
  - rewrite Z.ltb_lt. split; [intros H; left; lia | intros [H | [H _]]; lia].
Qed.

(** X4. The ancestor-score comparator never orders an entry before itself
    and never orders two entries both ways, whatever their fees and
    sizes, as long as the order of the hashes is asymmetric: its ties are
    settled by a strict comparison. *)
Theorem ancestor_score_asymmetric (a b : CTxMemPoolEntry CTransaction) :
  (forall x y, uint256_lt x y = true -> uint256_lt y x = false) ->
  CompareTxMemPoolEntryByAncestorFee GetHash uint256_lt GetTxSize a a = false
  /\ (CompareTxMemPoolEntryByAncestorFee GetHash uint256_lt GetTxSize a b = true ->
      CompareTxMemPoolEntryByAncestorFee GetHash uint256_lt GetTxSize b a = false).
Proof.
  intros Hasym.
  assert (Hgen : forall u v,
            CompareTxMemPoolEntryByAncestorFee GetHash uint256_lt GetTxSize u v = true ->
            CompareTxMemPoolEntryByAncestorFee GetHash uint256_lt GetTxSize v u = false).
  { intros u v. unfold CompareTxMemPoolEntryByAncestorFee.
    destruct (AncestorFee_GetModFeeAndSize GetTxSize u) as [u_fee u_size].
    destruct (AncestorFee_GetModFeeAndSize GetTxSize v) as [v_fee v_size].
    rewrite (dmul_comm v_fee u_size), (dmul_comm v_size u_fee).
    set (f1 := dmul u_fee v_size). set (f2 := dmul u_size v_fee).
    rewrite (deqb_sym f2 f1).
    destruct (deqb f1 f2) eqn:Heq.
    - apply Hasym.
    - unfold dgtb. apply dltb_asym. }
  split; [ | apply Hgen].
  destruct (CompareTxMemPoolEntryByAncestorFee GetHash uint256_lt GetTxSize a a) eqn:H;
    [ | reflexivity].
  pose proof (Hgen a a H). congruence.
Qed.

Lemma ancestor_compare_exact (a b : CTxMemPoolEntry CTransaction) :
  in_exact_range (ancestor_fees a ++ ancestor_fees b)
                 (ancestor_sizes GetTxSize a ++ ancestor_sizes GetTxSize b) ->
  CompareTxMemPoolEntryByAncestorFee GetHash uint256_lt GetTxSize a b = true <->
  (ancestor_score GetTxSize b < ancestor_score GetTxSize a)%Q
  \/ ((ancestor_score GetTxSize a == ancestor_score GetTxSize b)%Q
      /\ uint256_lt (GetHash (GetTx a)) (GetHash (GetTx b)) = true).
Proof.
  intros Hr.
  assert (Hra : in_exact_range (ancestor_fees a) (ancestor_sizes GetTxSize a))
    by (revert Hr; apply in_exact_range_incl; apply incl_appl; apply incl_refl).
  assert (Hrb : in_exact_range (ancestor_fees b) (ancestor_sizes GetTxSize b))
    by (revert Hr; apply in_exact_range_incl; apply incl_appr; apply incl_refl).
  destruct (AncestorFee_GetModFeeAndSize_exact _ GetTxSize a Hra)
    as (Fa & Sa & Ea & HFa & HSa & Qa).
  destruct (AncestorFee_GetModFeeAndSize_exact _ GetTxSize b Hrb)
    as (Fb & Sb & Eb & HFb & HSb & Qb).
  destruct (Hr Fa Sb) as [HSb0 H1]; [apply in_or_app; auto | apply in_or_app; auto | ].
  destruct (Hr Fb Sa) as [HSa0 H2]; [apply in_or_app; auto | apply in_or_app; auto | ].
  destruct (exact_product Fa Sb HSb0 H1) as (_ & _ & R1 & _).
  destruct (exact_product Fb Sa HSa0 H2) as (_ & _ & _ & R2).
  unfold CompareTxMemPoolEntryByAncestorFee. rewrite Ea, Eb.
  rewrite (deqb_represents _ _ _ _ R1 R2), (dgtb_represents _ _ _ _ R1 R2).
  rewrite <- Qa, <- Qb.
  rewrite feerate_lt, feerate_eq by lia.
  destruct (Z.eqb_spec (Fa * Sb) (Sa * Fb)) as [Heq | Hne].
  - split; [intros H; right; split; [lia | assumption]
           | intros [H | [_ H]]; [lia | assumption]].
  - rewrite Z.ltb_lt. split; [intros H; left; lia | intros [H | [H _]]; lia].
Qed.

(** X5. Where the arithmetic is exact for three entries together, the
    ancestor-score comparator is transitive, provided the order of the
    hashes is. *)
Theorem ancestor_score_transitive (a b c : CTxMemPoolEntry CTransaction) :
  exact_rangeb (ancestor_fees a ++ ancestor_fees b ++ ancestor_fees c)
               (ancestor_sizes GetTxSize a ++ ancestor_sizes GetTxSize b
                ++ ancestor_sizes GetTxSize c) = true ->
  (forall x y z, uint256_lt x y = true -> uint256_lt y z = true ->
                 uint256_lt x z = true) ->
  CompareTxMemPoolEntryByAncestorFee GetHash uint256_lt GetTxSize a b = true ->
  CompareTxMemPoolEntryByAncestorFee GetHash uint256_lt GetTxSize b c = true ->
  CompareTxMemPoolEntryByAncestorFee GetHash uint256_lt GetTxSize a c = true.
Proof.
  intros Hb Htrans Hab Hbc. apply exact_rangeb_range in Hb.
  destruct (in_exact_range_3 _ _ _ _ _ _ Hb) as (Rab & Rbc & Rac).
  apply (ancestor_compare_exact a b Rab) in Hab.
  apply (ancestor_compare_exact b c Rbc) in Hbc.
  apply (ancestor_compare_exact a c Rac).
  destruct Hab as [Hab | [Eab Lab]], Hbc as [Hbc | [Ebc Lbc]].
  - left. apply (Qlt_trans _ _ _ Hbc Hab).
  - left. rewrite <- Ebc. exact Hab.
  - left. rewrite Eab. exact Hbc.
  - right. split; [rewrite Eab; exact Ebc | apply (Htrans _ _ _ Lab Lbc)].
Qed.

Lemma DescendantScore_pair_64 (e : CTxMemPoolEntry CTransaction) :
  in_uint64 (GetTxSize e) ->
  in_uint64 (GetSizeWithDescendants e) ->
  in_int64 (GetModFeesWithDescendants e) ->
  exists mod_fee size : double,
    DescendantScore_GetModFeeAndSize GetTxSize e = (mod_fee, size)
    /\ wf_double mod_fee /\ wf_double size.
Proof.
  intros Hsize HsizeD HfeeD.
  pose proof (to_int64_range (nFee e + feeDelta e)) as Hfee.
  fold (GetModifiedFee e) in Hfee.
  unfold in_uint64, in_int64 in *.
  change (2 ^ 64) with (2 * 2 ^ 63) in *.
  unfold DescendantScore_GetModFeeAndSize.
  destruct (dgtb _ _); eexists; eexists;
    (split; [reflexivity | split; apply double_of_Z_wf;
                           change (2 ^ 64) with (2 * 2 ^ 63); lia]).
Qed.

(** X6. On entries with 64-bit fields the descendant-score comparator
    orders every pair at least one way, and it orders a pair both ways
    exactly when the two cross products compare equal and the entry times
    are equal. *)
Theorem descendant_score_total (a b : CTxMemPoolEntry CTransaction) :
  in_uint64 (GetTxSize a) -> in_uint64 (GetSizeWithDescendants a) ->
  in_int64 (GetModFeesWithDescendants a) ->
  in_uint64 (GetTxSize b) -> in_uint64 (GetSizeWithDescendants b) ->
  in_int64 (GetModFeesWithDescendants b) ->
  (CompareTxMemPoolEntryByDescendantScore GetTxSize a b = true
   \/ CompareTxMemPoolEntryByDescendantScore GetTxSize b a = true)
  /\ (CompareTxMemPoolEntryByDescendantScore GetTxSize a b = true
      /\ CompareTxMemPoolEntryByDescendantScore GetTxSize b a = true
      <-> DescendantScore_tie GetTxSize a b = true /\ GetTime a = GetTime b).
Proof.
  intros Ha1 Ha2 Ha3 Hb1 Hb2 Hb3.
  destruct (DescendantScore_pair_64 a Ha1 Ha2 Ha3) as (af & asz & Ea & Waf & Was).
  destruct (DescendantScore_pair_64 b Hb1 Hb2 Hb3) as (bf & bsz & Eb & Wbf & Wbs).
  unfold CompareTxMemPoolEntryByDescendantScore, DescendantScore_tie.
  rewrite Ea, Eb.
  rewrite (dmul_comm bf asz), (dmul_comm bsz af).
  pose proof (dmul_not_nan af bsz Waf Wbs) as N1.
  pose proof (dmul_not_nan asz bf Was Wbf) as N2.
  set (f1 := dmul af bsz) in *. set (f2 := dmul asz bf) in *.
  rewrite (deqb_sym f2 f1).
  destruct (deqb f1 f2) eqn:Heq.
  - rewrite !Z.leb_le. split; [lia | ]. split; [intros [? ?]; split; [reflexivity | lia]
                                                | intros [_ ?]; lia].
  - split.
    + destruct (dltb f1 f2) eqn:Hlt; [left; reflexivity | right].
      apply dltb_total; assumption.
    + split; [intros [H1 H2] | intros [H _]; discriminate H].
      pose proof (dltb_asym _ _ H1). congruence.
Qed.

(** X7. Where the arithmetic is exact for three entries together, the
    descendant-score comparator is transitive. *)
Theorem descendant_score_transitive (a b c : CTxMemPoolEntry CTransaction) :
  exact_rangeb (descendant_fees a ++ descendant_fees b ++ descendant_fees c)
               (descendant_sizes GetTxSize a ++ descendant_sizes GetTxSize b
                ++ descendant_sizes GetTxSize c) = true ->
  CompareTxMemPoolEntryByDescendantScore GetTxSize a b = true ->
  CompareTxMemPoolEntryByDescendantScore GetTxSize b c = true ->
  CompareTxMemPoolEntryByDescendantScore GetTxSize a c = true.
Proof.
  intros Hb Hab Hbc. apply exact_rangeb_range in Hb.
  destruct (in_exact_range_3 _ _ _ _ _ _ Hb) as (Rab & Rbc & Rac).
  apply (descendant_compare_exact _ GetTxSize a b Rab) in Hab.
  apply (descendant_compare_exact _ GetTxSize b c Rbc) in Hbc.
  apply (descendant_compare_exact _ GetTxSize a c Rac).
  destruct Hab as [Hab | [Eab Lab]], Hbc as [Hbc | [Ebc Lbc]].
  - left. apply (Qlt_trans _ _ _ Hab Hbc).
  - left. rewrite <- Ebc. exact Hab.
  - left. rewrite Eab. exact Hbc.
  - right. split; [rewrite Eab; exact Ebc | lia].
Qed.

End ComparatorOrders.

(** ** The buffer of disconnected-block transactions, continued *)

Section DisconnectedComposition.

Variable CTransaction : Type.
Variable GetHash : CTransaction -> uint256.
Variable RecursiveDynamicUsage : CTransaction -> Z.

Lemma queuedTx_find_app_fresh (h : uint256) (q : list CTransaction)
  (t : CTransaction) :
  queuedTx_find GetHash h q = None ->
  queuedTx_find GetHash h (q ++ [t])
  = if has_hash GetHash h t then Some (length q) else None.
Proof.
  induction q as [ | x q IH]; simpl.
  - intros _. destruct (has_hash GetHash h t); reflexivity.
  - destruct (has_hash GetHash h x); [discriminate | ].
    destruct (queuedTx_find GetHash h q); [discriminate | ].
    intros _. rewrite (IH eq_refl).
    destruct (has_hash GetHash h t); reflexivity.
Qed.

Lemma queuedTx_find_app_old (h : uint256) (q : list CTransaction)
  (t : CTransaction) (i : nat) :
  queuedTx_find GetHash h q = Some i ->
  queuedTx_find GetHash h (q ++ [t]) = Some i.
Proof.
  revert i. induction q as [ | x q IH]; intros i; simpl; [discriminate | ].
  destruct (has_hash GetHash h x); [trivial | ].
  destruct (queuedTx_find GetHash h q) as [j | ]; [ | discriminate].
  intros [= <-]. rewrite (IH j eq_refl). reflexivity.
Qed.

Lemma queuedTx_erase_last (q : list CTransaction) (t : CTransaction) :
  queuedTx_erase (length q) (q ++ [t]) = q.
Proof. induction q as [ | x q IH]; simpl; [reflexivity | rewrite IH; reflexivity]. Qed.

Lemma queuedTx_erase_split (i : nat) (q : list CTransaction) :
  queuedTx_erase i q = firstn i q ++ skipn (S i) q.
Proof.
  revert i. induction q as [ | x q IH]; intros i.
  - destruct i; reflexivity.
  - destruct i as [ | i]; simpl; [reflexivity | ]. rewrite IH. reflexivity.
Qed.

Lemma has_hash_self (t : CTransaction) : has_hash GetHash (GetHash t) t = true.
Proof. unfold has_hash. apply Z.eqb_refl. Qed.

Lemma to_uint64_add_sub (c u : Z) :
  in_uint64 c -> to_uint64 (to_uint64 (c + u) - u) = c.
Proof.
  unfold in_uint64, to_uint64. intros Hc.
  rewrite Zminus_mod_idemp_l. replace (c + u - u) with c by lia.
  apply Z.mod_small. assumption.
Qed.

(** X8. [addTransaction] of a transaction whose hash is new appends it to
    the sequence: it is found, by its hash, at the last position, and the
    positions at which the other hashes are found do not change. *)
Theorem addTransaction_fresh_lookup
  (d : DisconnectedBlockTransactions CTransaction) (t : CTransaction) :
  ~ In (GetHash t) (map GetHash (queuedTx d)) ->
  queuedTx (addTransaction GetHash RecursiveDynamicUsage d t) = queuedTx d ++ [t]
  /\ queuedTx_find GetHash (GetHash t)
       (queuedTx (addTransaction GetHash RecursiveDynamicUsage d t))
     = Some (length (queuedTx d))
  /\ nth_error (queuedTx (addTransaction GetHash RecursiveDynamicUsage d t))
       (length (queuedTx d)) = Some t
  /\ (forall h, h <> GetHash t ->
        queuedTx_find GetHash h
          (queuedTx (addTransaction GetHash RecursiveDynamicUsage d t))
        = queuedTx_find GetHash h (queuedTx d)).
Proof.
  intros Hfresh.
  assert (Hnone : queuedTx_find GetHash (GetHash t) (queuedTx d) = None).
  { destruct (queuedTx_find GetHash (GetHash t) (queuedTx d)) as [i | ] eqn:Hf;
      [exfalso | reflexivity].
    destruct (queuedTx_find_nth _ GetHash _ _ _ Hf) as (x & Hx & Hh).
    apply Hfresh. rewrite <- Hh. apply in_map. apply (nth_error_In _ _ Hx). }
  assert (Hq : queuedTx (addTransaction GetHash RecursiveDynamicUsage d t)
               = queuedTx d ++ [t]).
  { unfold addTransaction, queuedTx_insert. simpl. rewrite Hnone. reflexivity. }
  rewrite Hq. split; [reflexivity | split; [ | split]].
  - rewrite (queuedTx_find_app_fresh _ _ _ Hnone), has_hash_self. reflexivity.
  - rewrite nth_error_app2 by lia. rewrite Nat.sub_diag. reflexivity.
  - intros h Hh.
    destruct (queuedTx_find GetHash h (queuedTx d)) as [i | ] eqn:Hf.
    + apply queuedTx_find_app_old. assumption.
    + rewrite (queuedTx_find_app_fresh _ _ _ Hf).
      unfold has_hash. destruct (Z.eqb_spec (GetHash t) h); [congruence | reflexivity].
Qed.

(** X9. [removeEntry] is defined exactly on the positions that hold an
    element; it removes the element at that position and no other, the
    rest keeps its order, and in a buffer with unique hashes the hash of
    the removed transaction is no longer found. *)
Theorem removeEntry_removes_position
  (d : DisconnectedBlockTransactions CTransaction) (entry : nat) :
  (removeEntry RecursiveDynamicUsage d entry = None
   <-> (length (queuedTx d) <= entry)%nat)
  /\ (forall d' t,
        removeEntry RecursiveDynamicUsage d entry = Some d' ->
        nth_error (queuedTx d) entry = Some t ->
        queuedTx d' = firstn entry (queuedTx d) ++ skipn (S entry) (queuedTx d)
        /\ S (length (queuedTx d')) = length (queuedTx d)
        /\ cachedInnerUsage d'
           = to_uint64 (cachedInnerUsage d - RecursiveDynamicUsage t)
        /\ (unique_hashes GetHash (queuedTx d) ->
            queuedTx_find GetHash (GetHash t) (queuedTx d') = None)).
Proof.
  unfold removeEntry. split.
  - destruct (nth_error (queuedTx d) entry) as [t | ] eqn:Hn.
    + split; [discriminate | ]. intros Hle.
      apply nth_error_None in Hle. congruence.
    + split; [intros _; apply nth_error_None; assumption | reflexivity].
  - intros d' t. intros H Hn. rewrite Hn in H. injection H as <-. simpl.
    rewrite queuedTx_erase_split.
    assert (Hlt : (entry < length (queuedTx d))%nat)
      by (apply nth_error_Some; congruence).
    split; [reflexivity | split; [ | split; [reflexivity | ]]].
    + rewrite length_app, length_firstn, length_skipn. lia.
    + intros Hu.
      destruct (queuedTx_find GetHash (GetHash t)
                  (firstn entry (queuedTx d) ++ skipn (S entry) (queuedTx d)))
        as [j | ] eqn:Hf; [exfalso | reflexivity].
      destruct (queuedTx_find_nth _ GetHash _ _ _ Hf) as (x & Hx & Hh).
      apply nth_error_In in Hx.
      (* the queue splits around the removed element *)
      pose proof (firstn_skipn entry (queuedTx d)) as Hsplit.
      assert (Hskip : skipn entry (queuedTx d) = t :: skipn (S entry) (queuedTx d)).
      { clear - Hn. revert entry Hn.
        induction (queuedTx d) as [ | y q IH]; intros [ | i]; simpl; try discriminate.
        - intros [= ->]. reflexivity.
        - intros Hn. apply (IH i Hn). }
      rewrite Hskip in Hsplit. unfold unique_hashes in Hu.
      rewrite <- Hsplit, map_app in Hu. simpl in Hu.
      apply NoDup_remove_2 in Hu. apply Hu.
      rewrite <- map_app, <- Hh. apply in_map. exact Hx.
Qed.

Lemma removeForBlock_step_empty
  (d : DisconnectedBlockTransactions CTransaction) (t : CTransaction) :
  queuedTx d = [] -> removeForBlock_step GetHash RecursiveDynamicUsage d t = d.
Proof. intros Hq. unfold removeForBlock_step. rewrite Hq. reflexivity. Qed.

Lemma removeForBlock_loop_empty (vtx : list CTransaction)
  (d : DisconnectedBlockTransactions CTransaction) :
  queuedTx d = [] ->
  fold_left (removeForBlock_step GetHash RecursiveDynamicUsage) vtx d = d.
Proof.
  intros Hq. induction vtx as [ | t vtx IH]; simpl; [reflexivity | ].
  rewrite (removeForBlock_step_empty d t Hq). exact IH.
Qed.

(** The early return of [removeForBlock] changes nothing: the loop does
    the same. *)
Lemma removeForBlock_loop (d : DisconnectedBlockTransactions CTransaction)
  (vtx : list CTransaction) :
  removeForBlock GetHash RecursiveDynamicUsage d vtx
  = fold_left (removeForBlock_step GetHash RecursiveDynamicUsage) vtx d.
Proof.
  unfold removeForBlock. destruct (queuedTx d) eqn:Hq; [ | reflexivity].
  symmetry. apply removeForBlock_loop_empty. assumption.
Qed.

(** X10. Adding a transaction with a new hash and removing it again,
    by its position or by a block that contains it, gives the buffer
    back, counter included. *)
Theorem addTransaction_then_remove
  (d : DisconnectedBlockTransactions CTransaction) (t : CTransaction) :
  ~ In (GetHash t) (map GetHash (queuedTx d)) ->
  in_uint64 (cachedInnerUsage d) ->
  removeEntry RecursiveDynamicUsage
    (addTransaction GetHash RecursiveDynamicUsage d t) (length (queuedTx d))
  = Some d
  /\ removeForBlock GetHash RecursiveDynamicUsage
       (addTransaction GetHash RecursiveDynamicUsage d t) [t]
     = d.
Proof.
  intros Hfresh Hc.
  assert (Hnone : queuedTx_find GetHash (GetHash t) (queuedTx d) = None).
  { destruct (queuedTx_find GetHash (GetHash t) (queuedTx d)) as [i | ] eqn:Hf;
      [exfalso | reflexivity].
    destruct (queuedTx_find_nth _ GetHash _ _ _ Hf) as (x & Hx & Hh).
    apply Hfresh. rewrite <- Hh. apply in_map. apply (nth_error_In _ _ Hx). }
  assert (Hq : queuedTx (addTransaction GetHash RecursiveDynamicUsage d t)
               = queuedTx d ++ [t]).
  { unfold addTransaction, queuedTx_insert. simpl. rewrite Hnone. reflexivity. }
  assert (Hnth : nth_error (queuedTx d ++ [t]) (length (queuedTx d)) = Some t).
  { rewrite nth_error_app2 by lia. rewrite Nat.sub_diag. reflexivity. }
  assert (Hback :
    {| queuedTx := queuedTx_erase (length (queuedTx d)) (queuedTx d ++ [t]);
       cachedInnerUsage :=
         to_uint64 (to_uint64 (cachedInnerUsage d + RecursiveDynamicUsage t)
                    - RecursiveDynamicUsage t) |} = d).
  { rewrite queuedTx_erase_last, (to_uint64_add_sub _ _ Hc).
    destruct d; reflexivity. }
  split.
  - unfold removeEntry. rewrite Hq, Hnth. f_equal. exact Hback.
  - rewrite removeForBlock_loop. simpl fold_left. unfold removeForBlock_step.
    rewrite Hq, (queuedTx_find_app_fresh _ _ _ Hnone), has_hash_self, Hnth.
    exact Hback.
Qed.

(** X11. Connecting two blocks one after the other is connecting their
    transactions at once: [removeForBlock] distributes over the
    concatenation of the vectors, and an empty vector changes nothing. *)
Theorem removeForBlock_app (d : DisconnectedBlockTransactions CTransaction)
  (vtx1 vtx2 : list CTransaction) :
  removeForBlock GetHash RecursiveDynamicUsage d (vtx1 ++ vtx2)
  = removeForBlock GetHash RecursiveDynamicUsage
      (removeForBlock GetHash RecursiveDynamicUsage d vtx1) vtx2
  /\ removeForBlock GetHash RecursiveDynamicUsage d [] = d.
Proof.
  split.
  - rewrite !removeForBlock_loop. apply fold_left_app.
  - rewrite removeForBlock_loop. reflexivity.
Qed.

Lemma removeForBlock_step_absent
  (d : DisconnectedBlockTransactions CTransaction) (t : CTransaction) :
  ~ In (GetHash t) (map GetHash (queuedTx d)) ->
  removeForBlock_step GetHash RecursiveDynamicUsage d t = d.
Proof.
  intros Habs. unfold removeForBlock_step.
  destruct (queuedTx_find GetHash (GetHash t) (queuedTx d)) as [i | ] eqn:Hf;
    [exfalso | reflexivity].
  destruct (queuedTx_find_nth _ GetHash _ _ _ Hf) as (x & Hx & Hh).
  apply Habs. rewrite <- Hh. apply in_map. apply (nth_error_In _ _ Hx).
Qed.

Lemma removeForBlock_loop_absent
  (d : DisconnectedBlockTransactions CTransaction) (vtx : list CTransaction) :
  (forall v, In v vtx -> ~ In (GetHash v) (map GetHash (queuedTx d))) ->
  fold_left (removeForBlock_step GetHash RecursiveDynamicUsage) vtx d = d.
Proof.
  intros Habs.
  induction vtx as [ | t vtx IH]; simpl; [reflexivity | ].
  rewrite removeForBlock_step_absent by (apply Habs; left; reflexivity).
  apply IH. intros v Hv. apply Habs. right. exact Hv.
Qed.

(** X12. A block none of whose transactions is queued leaves the buffer
    as it is, the counter included. *)
Theorem removeForBlock_unrelated_block
  (d : DisconnectedBlockTransactions CTransaction) (vtx : list CTransaction) :
  (forall v, In v vtx -> ~ In (GetHash v) (map GetHash (queuedTx d))) ->
  removeForBlock GetHash RecursiveDynamicUsage d vtx = d.
Proof.
  intros Habs. rewrite removeForBlock_loop.
  apply removeForBlock_loop_absent. exact Habs.
Qed.

(** X13. In a buffer with unique hashes, connecting the same block a
    second time changes nothing. *)
Theorem removeForBlock_idempotent
  (d : DisconnectedBlockTransactions CTransaction) (vtx : list CTransaction) :
  unique_hashes GetHash (queuedTx d) ->
  removeForBlock GetHash RecursiveDynamicUsage
    (removeForBlock GetHash RecursiveDynamicUsage d vtx) vtx
  = removeForBlock GetHash RecursiveDynamicUsage d vtx.
Proof.
  intros Hu. rewrite (removeForBlock_loop (removeForBlock _ _ d vtx) vtx).
  apply removeForBlock_loop_absent.
  intros v Hv Hin.
  rewrite (removeForBlock_queue _ GetHash RecursiveDynamicUsage d vtx Hu) in Hin.
  apply in_map_iff in Hin as (x & Hx & Hin).
  apply filter_In in Hin as [_ Hneg]. apply negb_true_iff in Hneg.
  assert (Hyes : hash_in GetHash vtx x = true).
  { apply (hash_in_spec _ GetHash). exists v. split; [assumption | congruence]. }
  congruence.
Qed.

(** X14. Draining: in a buffer with unique hashes whose counter is
    consistent, connecting a block that contains every queued
    transaction empties the queue, brings the counter to zero, and lets
    the destructor's assertion pass. *)
Theorem removeForBlock_drains
  (d : DisconnectedBlockTransactions CTransaction) (vtx : list CTransaction) :
  unique_hashes GetHash (queuedTx d) ->
  usage_consistent RecursiveDynamicUsage d ->
  (forall t, In t (queuedTx d) -> hash_in GetHash vtx t = true) ->
  removeForBlock GetHash RecursiveDynamicUsage d vtx
  = DisconnectedBlockTransactions_init CTransaction
  /\ destructor (removeForBlock GetHash RecursiveDynamicUsage d vtx)
     = assert_passes.
Proof.
  intros Hu Hc Hall.
  assert (Hq : queuedTx (removeForBlock GetHash RecursiveDynamicUsage d vtx) = []).
  { rewrite (removeForBlock_queue _ GetHash RecursiveDynamicUsage d vtx Hu).
    revert Hall. generalize (queuedTx d) as q.
    induction q as [ | x q IH]; intros Hall; simpl; [reflexivity | ].
    rewrite (Hall x (or_introl eq_refl)). simpl.
    apply IH. intros t Ht. apply Hall. right. exact Ht. }
  pose proof (removeForBlock_consistent _ GetHash RecursiveDynamicUsage d vtx Hc) as Hc'.
  unfold usage_consistent in Hc'. rewrite Hq in Hc'. simpl in Hc'.
  split.
  - destruct (removeForBlock GetHash RecursiveDynamicUsage d vtx) as [q' c'].
    simpl in *. subst. reflexivity.
  - unfold destructor. rewrite Hq. reflexivity.
Qed.

(** X15. The accounting equality [cachedInnerUsage] = sum of
    [RecursiveDynamicUsage] over [queuedTx] holds initially and is kept
    by [clear], by [removeForBlock], by [removeEntry], and by
    [addTransaction] of a transaction whose hash is not queued. *)
Theorem usage_accounting_kept
  (d : DisconnectedBlockTransactions CTransaction) :
  usage_consistent RecursiveDynamicUsage
    (DisconnectedBlockTransactions_init CTransaction)
  /\ usage_consistent RecursiveDynamicUsage (clear d)
  /\ (usage_consistent RecursiveDynamicUsage d ->
      (forall vtx,
          usage_consistent RecursiveDynamicUsage
            (removeForBlock GetHash RecursiveDynamicUsage d vtx))
      /\ (forall entry d',
            removeEntry RecursiveDynamicUsage d entry = Some d' ->
            usage_consistent RecursiveDynamicUsage d')
      /\ (forall t,
            ~ In (GetHash t) (map GetHash (queuedTx d)) ->
            usage_consistent RecursiveDynamicUsage
              (addTransaction GetHash RecursiveDynamicUsage d t))).
Proof.
  split; [reflexivity | split; [reflexivity | ]].
  intros Hc. split; [ | split].
  - intros vtx. apply removeForBlock_consistent. assumption.
  - intros entry d' H. apply (removeEntry_consistent _ _ d d' entry Hc H).
  - intros t Hfresh. apply addTransaction_fresh_consistent; assumption.
Qed.

(** X16. Whatever calls are made on a buffer whose hashes are unique,
    duplicates included, as long as they are all defined, the hashes of
    the queued transactions stay unique; so they are in every buffer that
    started empty. *)
Theorem unique_hashes_invariant
  (cs : list (buffer_call CTransaction))
  (d0 d : DisconnectedBlockTransactions CTransaction) :
  unique_hashes GetHash (queuedTx d0) ->
  run_calls GetHash RecursiveDynamicUsage cs d0 = Some d ->
  unique_hashes GetHash (queuedTx d).
Proof.
  revert d0. induction cs as [ | c cs IH]; intros d0 Hu; simpl.
  - intros [= <-]. assumption.
  - destruct (run_call GetHash RecursiveDynamicUsage c d0) as [d1 | ] eqn:Hc;
      [ | discriminate].
    apply IH. destruct c as [t | vtx | entry | ]; simpl in Hc.
    + injection Hc as <-. apply addTransaction_unique. assumption.
    + injection Hc as <-. apply removeForBlock_unique. assumption.
    + apply (removeEntry_unique _ GetHash RecursiveDynamicUsage d0 d1 entry Hu Hc).
    + injection Hc as <-. constructor.
Qed.

End DisconnectedComposition.

Section DisconnectedMemory.

Variable CTransaction : Type.
Variable RecursiveDynamicUsage : CTransaction -> Z.
Variable MallocUsage : Z -> Z.
Variable sizeof_CTransactionRef : Z.
Variable sizeof_pointer : Z.

(** X17. When the counter is consistent, [DynamicMemoryUsage] of the
    buffer is the sum, over the queued transactions, of the estimated
    overhead of one element and the transaction's own usage (in 64-bit
    arithmetic); after [clear] it is zero. *)
Theorem DynamicMemoryUsage_per_transaction
  (d : DisconnectedBlockTransactions CTransaction) :
  (usage_consistent RecursiveDynamicUsage d ->
   DisconnectedBlockTransactions_DynamicMemoryUsage
     MallocUsage sizeof_CTransactionRef sizeof_pointer d
   = to_uint64
       (inner_usage
          (fun t => MallocUsage (sizeof_CTransactionRef + 6 * sizeof_pointer)
                    + RecursiveDynamicUsage t)
          (queuedTx d)))
  /\ DisconnectedBlockTransactions_DynamicMemoryUsage
       MallocUsage sizeof_CTransactionRef sizeof_pointer (clear d) = 0.
Proof.
  split;
    [ | unfold DisconnectedBlockTransactions_DynamicMemoryUsage, clear; simpl;
        rewrite Z.mul_0_r; reflexivity].
  unfold usage_consistent, DisconnectedBlockTransactions_DynamicMemoryUsage.
  intros ->. unfold to_uint64. rewrite Zplus_mod_idemp_r. f_equal.
  set (M := MallocUsage (sizeof_CTransactionRef + 6 * sizeof_pointer)).
  induction (queuedTx d) as [ | t q IH]; [simpl; lia | ].
  change (length (t :: q)) with (S (length q)). rewrite Nat2Z.inj_succ.
  simpl inner_usage. rewrite <- IH. lia.
Qed.

End DisconnectedMemory.

(** ** The sanity-check frequency, continued *)

Lemma rne_mono (m1 m2 n : Z) : m1 <= m2 -> rne m1 n <= rne m2 n.
Proof.
  intros Hle. destruct (Z_le_gt_dec n 0) as [Hn | Hn].
  - unfold rne. replace (n <=? 0) with true by (symmetry; apply Z.leb_le; lia).
    assumption.
  - pose proof (pow2_pos n ltac:(lia)) as HT.
    pose proof (Z.div_le_mono m1 m2 (2 ^ n) HT Hle) as Hq.
    destruct (Z.eq_dec (m1 / 2 ^ n) (m2 / 2 ^ n)) as [Heq | Hne].
    + pose proof (Z.div_mod m1 (2 ^ n) ltac:(lia)) as D1.
      pose proof (Z.div_mod m2 (2 ^ n) ltac:(lia)) as D2.
      unfold rne. replace (n <=? 0) with false by (symmetry; apply Z.leb_gt; lia).
      cbv zeta. rewrite Heq in *.
      assert (Hr : m1 mod 2 ^ n <= m2 mod 2 ^ n) by lia.
      destruct (Z.compare_spec (m1 mod 2 ^ n) (2 ^ (n - 1)));
        destruct (Z.compare_spec (m2 mod 2 ^ n) (2 ^ (n - 1)));
        destruct (Z.even (m2 / 2 ^ n)); lia.
    + pose proof (rne_bounds m1 n ltac:(lia)).
      pose proof (rne_bounds m2 n ltac:(lia)). lia.
Qed.

Lemma rne_scale (m n k : Z) :
  0 <= n -> 0 <= k -> rne (m * 2 ^ k) (n + k) = rne m n.
Proof.
  intros Hn Hk.
  pose proof (pow2_pos k Hk) as HK.
  destruct (Z.eq_dec n 0) as [-> | Hn0].
  - rewrite rne_zero. rewrite Z.add_0_l.
    pose proof (rne_exact (m * 2 ^ k) k (Z.mod_mul m (2 ^ k) ltac:(lia))) as H.
    apply (Z.mul_cancel_r _ _ (2 ^ k)); [lia | exact H].
  - unfold rne.
    replace (n + k <=? 0) with false by (symmetry; apply Z.leb_gt; lia).
    replace (n <=? 0) with false by (symmetry; apply Z.leb_gt; lia).
    cbv zeta.
    pose proof (pow2_pos n Hn) as HN.
    rewrite (Z.pow_add_r 2 n k) by lia.
    replace (n + k - 1) with (n - 1 + k) by lia.
    rewrite (Z.pow_add_r 2 (n - 1) k) by lia.
    rewrite Z.div_mul_cancel_r by lia.
    rewrite Z.mul_mod_distr_r by lia.
    rewrite <- (Zmult_compare_compat_r (m mod 2 ^ n) (2 ^ (n - 1)) (2 ^ k))
      by lia.
    reflexivity.
Qed.

(** Multiplication by a positive constant is monotone on the positive
    doubles, as long as the larger product does not overflow. *)
Lemma dmul_scaled_mono (m1 m2 mc : positive) (e1 e2 ec : Z) :
  valid_binary prec emax (S754_finite false m1 e1) = true ->
  valid_binary prec emax (S754_finite false m2 e2) = true ->
  valid_binary prec emax (S754_finite false mc ec) = true ->
  Zpos m1 * 2 ^ (e1 + 1074) <= Zpos m2 * 2 ^ (e2 + 1074) ->
  fexp prec emax (Zpos (digits2_pos (m2 * mc)) + (e2 + ec)) <= 970 ->
  wf_double (dmul (S754_finite false m1 e1) (S754_finite false mc ec))
  /\ wf_double (dmul (S754_finite false m2 e2) (S754_finite false mc ec))
  /\ 0 <= scaled (dmul (S754_finite false m1 e1) (S754_finite false mc ec))
       <= scaled (dmul (S754_finite false m2 e2) (S754_finite false mc ec)).
Proof.
  intros V1 V2 Vc Hle Hs2.
  pose proof (mul_aligned false false m1 mc e1 ec V1 Vc) as A1.
  pose proof (mul_aligned false false m2 mc e2 ec V2 Vc) as A2.
  pose proof (rne_mantissa (m1 * mc) (e1 + ec)) as M1.
  pose proof (rne_mantissa (m2 * mc) (e2 + ec)) as M2.
  cbv zeta in M1, M2. specialize (M1 A1). specialize (M2 A2).
  rewrite !dmul_finite. cbn [xorb].
  pose proof (binary_round_aux_wf false (m1 * mc) (e1 + ec)) as R1.
  pose proof (binary_round_aux_wf false (m2 * mc) (e2 + ec)) as R2.
  cbv zeta in R1, R2. cbn [cond_Zopp] in R1, R2.
  apply valid_finite_inv in V1 as [C1 _]. apply valid_finite_inv in V2 as [C2 _].
  assert (He1 : 0 <= e1 + 1074) by lia.
  assert (He2 : 0 <= e2 + 1074) by lia.
  clear C1 C2 Vc.
  pose proof (digits2_pos_bounds (m1 * mc)) as [B1lo _].
  pose proof (digits2_pos_bounds (m2 * mc)) as [_ B2hi].
  rewrite Pos2Z.inj_mul in B1lo, B2hi.
  assert (Hd1 : 0 < Zpos (digits2_pos (m1 * mc))) by lia.
  assert (Hd2 : 0 < Zpos (digits2_pos (m2 * mc))) by lia.
  rewrite !fexp_eq in *.
  remember (Zpos (digits2_pos (m1 * mc))) as d1 eqn:Ed1.
  remember (Zpos (digits2_pos (m2 * mc))) as d2 eqn:Ed2.
  remember (Z.max (d1 + (e1 + ec) - 53) (-1074)) as s1 eqn:Es1.
  remember (Z.max (d2 + (e2 + ec) - 53) (-1074)) as s2 eqn:Es2.
  remember (rne (Zpos (m1 * mc)) (s1 - (e1 + ec))) as q1 eqn:Eq1.
  remember (rne (Zpos (m2 * mc)) (s2 - (e2 + ec))) as q2 eqn:Eq2.
  clear Ed1 Ed2.
  pose proof (Pos2Z.is_pos mc) as Hmc.
  pose proof (pow2_pos (e1 + 1074) He1) as PA1.
  pose proof (pow2_pos (e2 + 1074) He2) as PA2.
  (* the exponent of the smaller product is not the larger one *)
  assert (Hs12 : s1 <= s2).
  { destruct (Z_le_gt_dec s1 s2) as [ | Hgt]; [assumption | exfalso].
    assert (Hdd : d2 + (e2 + 1074) <= d1 - 1 + (e1 + 1074)) by lia.
    assert (Hpow : 2 ^ (d2 + (e2 + 1074)) <= 2 ^ (d1 - 1 + (e1 + 1074)))
      by (apply Z.pow_le_mono_r; lia).
    rewrite (Z.pow_add_r 2 d2 (e2 + 1074)) in Hpow by lia.
    rewrite (Z.pow_add_r 2 (d1 - 1) (e1 + 1074)) in Hpow by lia.
    assert (X1 : Zpos m2 * Zpos mc * 2 ^ (e2 + 1074) < 2 ^ d2 * 2 ^ (e2 + 1074))
      by (apply Z.mul_lt_mono_pos_r; [exact PA2 | apply B2hi]).
    assert (X2 : 2 ^ (d1 - 1) * 2 ^ (e1 + 1074)
                 <= Zpos m1 * Zpos mc * 2 ^ (e1 + 1074))
      by (apply Z.mul_le_mono_nonneg_r; [apply Z.lt_le_incl; exact PA1 | exact B1lo]).
    assert (X3 : Zpos m1 * 2 ^ (e1 + 1074) * Zpos mc
                 <= Zpos m2 * 2 ^ (e2 + 1074) * Zpos mc)
      by (apply Z.mul_le_mono_nonneg_r; [apply Z.lt_le_incl; exact Hmc | exact Hle]).
    clear - Hpow X1 X2 X3. lia. }
  assert (Hs1lo : -1074 <= s1) by (rewrite Es1; apply Z.le_max_r).
  assert (Hs2lo : -1074 <= s2) by (rewrite Es2; apply Z.le_max_r).
  destruct (R1 A1 ltac:(clear - Hs12 Hs2; lia)) as [W1 S1].
  destruct (R2 A2 Hs2) as [W2 S2].
  split; [exact W1 | split; [exact W2 | ]].
  rewrite S1, S2.
  pose proof (pow2_pos (s1 + 1074) ltac:(clear - Hs1lo; lia)) as P1.
  pose proof (pow2_pos (s2 + 1074) ltac:(clear - Hs2lo; lia)) as P2.
  destruct M1 as [[M1lo M1hi] _]. destruct M2 as [_ M2lo].
  split; [apply Z.mul_nonneg_nonneg; [exact M1lo | apply Z.lt_le_incl; exact P1] | ].
  destruct (Z.eq_dec s1 s2) as [Heq | Hne].
  - replace (2 ^ (s1 + 1074)) with (2 ^ (s2 + 1074)) by (rewrite Heq; reflexivity).
    apply Z.mul_le_mono_nonneg_r; [apply Z.lt_le_incl; exact P2 | ].
    rewrite Eq1, Eq2.
    rewrite <- (rne_scale (Zpos (m1 * mc)) (s1 - (e1 + ec)) (e1 + 1074))
      by (clear - A1 He1; lia).
    rewrite <- (rne_scale (Zpos (m2 * mc)) (s2 - (e2 + ec)) (e2 + 1074))
      by (clear - A2 He2; lia).
    replace (s2 - (e2 + ec) + (e2 + 1074)) with (s1 - (e1 + ec) + (e1 + 1074))
      by (clear - Heq; lia).
    apply rne_mono. rewrite !Pos2Z.inj_mul.
    replace (Zpos m1 * Zpos mc * 2 ^ (e1 + 1074))
      with (Zpos m1 * 2 ^ (e1 + 1074) * Zpos mc) by ring.
    replace (Zpos m2 * Zpos mc * 2 ^ (e2 + 1074))
      with (Zpos m2 * 2 ^ (e2 + 1074) * Zpos mc) by ring.
    apply Z.mul_le_mono_nonneg_r; [apply Z.lt_le_incl; exact Hmc | exact Hle].
  - specialize (M2lo ltac:(clear - Hs1lo Hs12 Hne; lia)).
    assert (Hpow : 2 * 2 ^ (s1 + 1074) <= 2 ^ (s2 + 1074)).
    { replace (s2 + 1074) with (s2 - s1 - 1 + (1 + (s1 + 1074)))
        by (clear; lia).
      rewrite (Z.pow_add_r 2 (s2 - s1 - 1)) by (clear - Hs1lo Hs12 Hne; lia).
      rewrite (Z.pow_add_r 2 1) by (clear - Hs1lo; lia). change (2 ^ 1) with 2.
      pose proof (pow2_pos (s2 - s1 - 1) ltac:(clear - Hs12 Hne; lia)) as Pd.
      rewrite <- (Z.mul_1_l (2 * 2 ^ (s1 + 1074))) at 1.
      apply Z.mul_le_mono_nonneg_r; [ | clear - Pd; lia].
      clear - P1. lia. }
    apply Z.le_trans with (2 ^ 53 * 2 ^ (s1 + 1074));
      [apply Z.mul_le_mono_nonneg_r; [apply Z.lt_le_incl; exact P1 | exact M1hi] | ].
    apply Z.le_trans with (2 ^ 52 * 2 ^ (s2 + 1074));
      [ | apply Z.mul_le_mono_nonneg_r; [apply Z.lt_le_incl; exact P2 | exact M2lo]].
    change (2 ^ 53) with 9007199254740992.
    change (2 ^ 52) with 4503599627370496. clear - Hpow. lia.
Qed.

Lemma unit_interval_pair (f1 f2 : double) :
  valid_binary prec emax f1 = true -> valid_binary prec emax f2 = true ->
  dleb (double_of_Z 0) f1 = true -> dleb f1 f2 = true ->
  dleb f2 (double_of_Z 1) = true ->
  dleb (double_of_Z 0) f2 = true /\ dleb f1 (double_of_Z 1) = true
  /\ scaled f1 <= scaled f2.
Proof.
  intros V1 V2 H0 H12 H1.
  assert (F : is_finite f1 = true /\ is_finite f2 = true).
  { destruct f1 as [s1 | s1 | | s1 m1 e1], f2 as [s2 | s2 | | s2 m2 e2];
      try (split; reflexivity); try discriminate;
      try (destruct s1; discriminate); try (destruct s2; discriminate);
      destruct s1, s2; discriminate. }
  destruct F as [F1 F2].
  assert (W0 : wf_double (double_of_Z 0)) by (split; reflexivity).
  assert (W1 : wf_double (double_of_Z 1)) by (split; reflexivity).
  assert (Wf1 : wf_double f1) by (split; assumption).
  assert (Wf2 : wf_double f2) by (split; assumption).
  unfold dleb, SFleb in *.
  rewrite (SFcompare_scaled _ _ W0 Wf1) in H0.
  rewrite (SFcompare_scaled _ _ Wf1 Wf2) in H12.
  rewrite (SFcompare_scaled _ _ Wf2 W1) in H1.
  rewrite (SFcompare_scaled _ _ W0 Wf2), (SFcompare_scaled _ _ Wf1 W1).
  change (scaled (double_of_Z 0)) with 0 in *.
  generalize dependent (scaled (double_of_Z 1)). intros one H1.
  destruct (Z.compare_spec 0 (scaled f1)); try discriminate H0;
    destruct (Z.compare_spec (scaled f1) (scaled f2)); try discriminate H12;
    destruct (Z.compare_spec (scaled f2) one); try discriminate H1;
    (split; [ | split; [ | lia]]);
    match goal with
    | |- context [?a ?= ?b] => destruct (Z.compare_spec a b); try reflexivity; lia
    end.
Qed.

(** What [setSanityCheck] stores for a positive frequency of at most one:
    the product with [4294967295.0], rounded, with its fraction dropped. *)
Lemma sanity_stored (m : positive) (e N : Z) :
  valid_binary prec emax (S754_finite false m e) = true ->
  Zpos m * 2 ^ (e + 1074) <= 2 ^ 1074 ->
  double_to_uint32 (dmul (S754_finite false m e) (double_of_Z 4294967295))
    = Some N ->
  fexp prec emax (Zpos (digits2_pos (m * 9007199252643840)) + (e + -21)) <= 970
  /\ N = scaled (dmul (S754_finite false m e) (double_of_Z 4294967295))
         / 2 ^ 1074.
Proof.
  intros Vf Hle HN.
  destruct (sanity_product m e Vf Hle) as (N' & _ & He & _).
  assert (Hs : fexp prec emax
                 (Zpos (digits2_pos (m * 9007199252643840)) + (e + -21)) <= 970).
  { pose proof (digits_mul_upper m 9007199252643840) as Hd.
    change (Zpos (digits2_pos 9007199252643840)) with 53 in Hd.
    pose proof (valid_finite_inv _ _ _ Vf) as [Cf _].
    rewrite fexp_eq. lia. }
  split; [exact Hs | ].
  rewrite sanity_scale_eq in *.
  destruct (dmul_scaled_mono m m 9007199252643840 e e (-21) Vf Vf eq_refl
              (Z.le_refl _) Hs) as (W & _ & Hpos & _).
  unfold double_to_uint32 in HN.
  rewrite (double_trunc_scaled _ W Hpos) in HN.
  destruct (_ && _) in HN; [ | discriminate]. congruence.
Qed.

(** X18. On [[0.0, 1.0]] the stored value is monotone in the frequency: a
    larger frequency never stores a smaller [nCheckFrequency]. *)
Theorem setSanityCheck_monotone (pool1 pool2 : CTxMemPool) (f1 f2 : double) :
  valid_binary prec emax f1 = true -> valid_binary prec emax f2 = true ->
  dleb (double_of_Z 0) f1 = true -> dleb f1 f2 = true ->
  dleb f2 (double_of_Z 1) = true ->
  exists pool1' pool2',
    setSanityCheck pool1 f1 = Some pool1'
    /\ setSanityCheck pool2 f2 = Some pool2'
    /\ nCheckFrequency pool1' <= nCheckFrequency pool2'.
Proof.
  intros V1 V2 H0 H12 H1.
  destruct (unit_interval_pair f1 f2 V1 V2 H0 H12 H1) as (H02 & H11 & Hle).
  destruct (unit_interval_inv f1 V1 H0 H11) as [[s1 ->] | (m1 & e1 & -> & Hu1)];
    destruct (unit_interval_inv f2 V2 H02 H1) as [[s2 ->] | (m2 & e2 & -> & Hu2)].
  - do 2 eexists. split; [reflexivity | split; [reflexivity | ]].
    cbn [nCheckFrequency]. lia.
  - destruct (sanity_product m2 e2 V2 Hu2) as (N2 & HN2 & _ & HR2 & _).
    unfold setSanityCheck at 2. rewrite HN2.
    do 2 eexists. split; [reflexivity | split; [reflexivity | ]].
    cbn [nCheckFrequency]. lia.
  - exfalso. cbn [scaled cond_Zopp] in Hle.
    pose proof (valid_finite_inv _ _ _ V1) as [C1 _].
    pose proof (pow2_pos (e1 + 1074) ltac:(lia)). nia.
  - destruct (sanity_product m1 e1 V1 Hu1) as (N1 & HN1 & _).
    destruct (sanity_product m2 e2 V2 Hu2) as (N2 & HN2 & _).
    destruct (sanity_stored m1 e1 N1 V1 Hu1 HN1) as [_ E1].
    destruct (sanity_stored m2 e2 N2 V2 Hu2 HN2) as [Hs2 E2].
    unfold setSanityCheck. rewrite HN1, HN2.
    do 2 eexists. split; [reflexivity | split; [reflexivity | ]].
    cbn [nCheckFrequency]. rewrite E1, E2.
    rewrite sanity_scale_eq in *.
    cbn [scaled cond_Zopp] in Hle.
    destruct (dmul_scaled_mono m1 m2 9007199252643840 e1 e2 (-21) V1 V2 eq_refl
                Hle Hs2) as (_ & _ & _ & Hmono).
    apply Z.div_le_mono; [apply pow2_pos; lia | exact Hmono].
Qed.

Lemma dmul_opp_finite (m mc : positive) (e ec : Z) :
  valid_binary prec emax (S754_finite false m e) = true ->
  valid_binary prec emax (S754_finite false mc ec) = true ->
  dmul (S754_finite true m e) (S754_finite false mc ec)
  = SFopp (dmul (S754_finite false m e) (S754_finite false mc ec)).
Proof.
  intros V Vc.
  pose proof (mul_aligned false false m mc e ec V Vc) as A.
  rewrite !dmul_finite. cbn [xorb].
  rewrite !binary_round_aux_spec by exact A. cbv zeta.
  destruct (_ =? 0); [reflexivity | ].
  destruct (_ =? 2 ^ 53); [destruct (_ <=? 971); reflexivity | ].
  destruct (_ <=? 971); reflexivity.
Qed.

Lemma double_trunc_opp (x : double) :
  double_trunc (SFopp x) = option_map Z.opp (double_trunc x).
Proof.
  destruct x as [s | s | | s m e]; try reflexivity.
  cbn [SFopp double_trunc option_map]. f_equal.
  destruct s; cbn [negb cond_Zopp]; lia.
Qed.

(** The product of a positive double with [4294967295.0], truncated. *)
Lemma product_trunc (m : positive) (e : Z) :
  valid_binary prec emax (S754_finite false m e) = true ->
  let r := dmul (S754_finite false m e) (double_of_Z 4294967295) in
  let s0 := fexp prec emax
              (Zpos (digits2_pos (m * 9007199252643840)) + (e + -21)) in
  (s0 <= 970 ->
   wf_double r /\ 0 <= scaled r /\ double_trunc r = Some (scaled r / 2 ^ 1074))
  /\ (970 < s0 -> forall z, double_trunc r = Some z -> 2 ^ 32 <= z).
Proof.
  intros V r s0. subst r. rewrite sanity_scale_eq. split.
  - intros Hs.
    destruct (dmul_scaled_mono m m 9007199252643840 e e (-21) V V eq_refl
                (Z.le_refl _) Hs) as (W & _ & Hpos & _).
    split; [exact W | split; [exact Hpos | ]].
    apply double_trunc_scaled; assumption.
  - intros Hs z.
    pose proof (mul_aligned false false m 9007199252643840 e (-21) V eq_refl) as A.
    pose proof (rne_mantissa (m * 9007199252643840) (e + -21)) as M.
    cbv zeta in M. specialize (M A). fold s0 in M, A.
    destruct M as [[_ Mhi] Mlo]. specialize (Mlo ltac:(lia)).
    rewrite dmul_finite. cbn [xorb].
    rewrite binary_round_aux_spec by exact A. cbv zeta. fold s0.
    set (q := rne (Zpos (m * 9007199252643840)) (s0 - (e + -21))) in *.
    change (2 ^ 52) with 4503599627370496 in Mlo.
    replace (q =? 0) with false by (symmetry; apply Z.eqb_neq; lia).
    replace (s0 + 1 <=? 971) with false by (symmetry; apply Z.leb_gt; lia).
    destruct (q =? 2 ^ 53); [discriminate | ].
    destruct (s0 <=? 971); [ | discriminate].
    cbn [double_trunc cond_Zopp]. intros [= <-].
    rewrite Z.shiftl_mul_pow2 by lia. rewrite Z2Pos.id by lia.
    pose proof (pow2_pos s0 ltac:(lia)).
    change (2 ^ 32) with 4294967296. nia.
Qed.

Lemma frequency_upper_product :
  dmul frequency_upper (double_of_Z 4294967295)
  = S754_finite false 4503599627370496 (-20)
  /\ dmul (S754_finite false 4503599628419071 (-52)) (double_of_Z 4294967295)
     = S754_finite false 9007199254740990 (-21)
  /\ dmul (S754_finite false 4503599627370496 (-52)) (double_of_Z 4294967295)
     = S754_finite false 9007199252643840 (-21).
Proof. vm_compute. repeat split. Qed.

Lemma frequency_lower_product :
  dmul (S754_finite false 4503599628419072 (-84)) (double_of_Z 4294967295)
  = S754_finite false 4503599627370496 (-52)
  /\ dmul (S754_finite false 4503599628419071 (-84)) (double_of_Z 4294967295)
     = S754_finite false 9007199254740990 (-53).
Proof. vm_compute. repeat split. Qed.

(** A double below a double with mantissa [m0 + 1] is at most the one with
    mantissa [m0] and the same exponent. *)
Lemma scaled_below (m m0 : positive) (e e0 : Z) :
  valid_binary prec emax (S754_finite false m e) = true ->
  valid_binary prec emax (S754_finite false m0 e0) = true ->
  valid_binary prec emax (S754_finite false (m0 + 1) e0) = true ->
  Zpos m * 2 ^ (e + 1074) < Zpos (m0 + 1) * 2 ^ (e0 + 1074) ->
  e <= e0 /\ Zpos m * 2 ^ (e + 1074) <= Zpos m0 * 2 ^ (e0 + 1074).
Proof.
  intros V V0 V1 Hlt.
  apply valid_finite_inv in V as [C _]. apply valid_finite_inv in V0 as [C0 _].
  apply valid_finite_inv in V1 as [C1 _].
  assert (He : e <= e0).
  { destruct (Z_le_gt_dec e e0) as [ | Hgt]; [assumption | exfalso].
    pose proof (canonical_lt (m0 + 1) m e0 e C1 C ltac:(lia)). lia. }
  split; [exact He | ].
  destruct (Z.eq_dec e e0) as [-> | Hne].
  - pose proof (pow2_pos (e0 + 1074) ltac:(lia)) as Hp.
    rewrite Pos2Z.inj_add in Hlt.
    apply Z.mul_le_mono_nonneg_r; [lia | ].
    apply Z.mul_lt_mono_pos_r in Hlt; lia.
  - pose proof (canonical_lt m m0 e e0 C C0 ltac:(lia)). lia.
Qed.

Lemma sanity_positive (m : positive) (e : Z) :
  valid_binary prec emax (S754_finite false m e) = true ->
  let r := dmul (S754_finite false m e) (double_of_Z 4294967295) in
  (scaled frequency_upper <= Zpos m * 2 ^ (e + 1074) ->
   double_to_uint32 r = None)
  /\ (Zpos m * 2 ^ (e + 1074) < scaled frequency_upper ->
      exists N, double_to_uint32 r = Some N
                /\ (scaled (double_of_Z 1) <= Zpos m * 2 ^ (e + 1074) ->
                    N = 4294967295)).
Proof.
  intros V r.
  destruct (product_trunc m e V) as [Hfit Hbig]. cbv zeta in Hfit, Hbig.
  fold r in Hfit, Hbig.
  destruct frequency_upper_product as (Eup & Epred & Eone).
  pose proof (pow2_pos 1053 ltac:(lia)) as P1053.
  assert (P1074 : 2 ^ 1074 = 2097152 * 2 ^ 1053).
  { change 1074 with (21 + 1053). rewrite (Z.pow_add_r 2 21 1053) by lia.
    reflexivity. }
  assert (P1054 : 2 ^ 1054 = 2 * 2 ^ 1053).
  { change 1054 with (1 + 1053). rewrite (Z.pow_add_r 2 1 1053) by lia.
    reflexivity. }
  unfold frequency_upper. cbn [scaled cond_Zopp].
  change (-52 + 1074) with 1022. split.
  - intros Hge.
    destruct (Z_le_gt_dec
                (fexp prec emax
                   (Zpos (digits2_pos (m * 9007199252643840)) + (e + -21))) 970)
      as [Hs | Hs].
    + destruct (Hfit Hs) as (W & Hpos & Htr).
      assert (Hmono : scaled (dmul frequency_upper (double_of_Z 4294967295))
                      <= scaled r).
      { subst r. rewrite sanity_scale_eq.
        apply (dmul_scaled_mono 4503599628419072 m 9007199252643840 (-52) e (-21)
                 eq_refl V eq_refl Hge Hs). }
      rewrite Eup in Hmono. cbn [scaled cond_Zopp] in Hmono.
      change (-20 + 1074) with 1054 in Hmono.
      unfold double_to_uint32. rewrite Htr.
      assert (4294967296 <= scaled r / 2 ^ 1074).
      { apply Z.div_le_lower_bound; lia. }
      replace (scaled r / 2 ^ 1074 <? 2 ^ 32) with false
        by (symmetry; apply Z.ltb_ge; change (2 ^ 32) with 4294967296; lia).
      rewrite andb_false_r. reflexivity.
    + unfold double_to_uint32.
      destruct (double_trunc r) as [z | ] eqn:Htr; [ | reflexivity].
      pose proof (Hbig ltac:(lia) z eq_refl) as Hz.
      replace (z <? 2 ^ 32) with false by (symmetry; apply Z.ltb_ge; lia).
      rewrite andb_false_r. reflexivity.
  - intros Hlt.
    destruct (scaled_below m 4503599628419071 e (-52) V eq_refl eq_refl)
      as [He Hle].
    { change (-52 + 1074) with 1022. exact Hlt. }
    change (-52 + 1074) with 1022 in Hle.
    assert (Hs : fexp prec emax
                   (Zpos (digits2_pos (m * 9007199252643840)) + (e + -21)) <= 970).
    { pose proof (digits_mul_upper m 9007199252643840) as Hd.
      change (Zpos (digits2_pos 9007199252643840)) with 53 in Hd.
      pose proof (valid_finite_inv _ _ _ V) as [Cf _].
      rewrite fexp_eq. lia. }
    destruct (Hfit Hs) as (W & Hpos & Htr).
    assert (Hmono : scaled r <= scaled (dmul (S754_finite false 4503599628419071 (-52))
                                          (double_of_Z 4294967295))).
    { subst r. rewrite sanity_scale_eq.
      apply (dmul_scaled_mono m 4503599628419071 9007199252643840 e (-52) (-21)
               V eq_refl eq_refl Hle). vm_compute. discriminate. }
    rewrite Epred in Hmono. cbn [scaled cond_Zopp] in Hmono.
    change (-21 + 1074) with 1053 in Hmono.
    assert (Hlo : 0 <= scaled r / 2 ^ 1074) by (apply Z.div_pos; lia).
    assert (Hhi : scaled r / 2 ^ 1074 < 4294967296).
    { apply Z.div_lt_upper_bound; lia. }
    exists (scaled r / 2 ^ 1074). split.
    + unfold double_to_uint32. rewrite Htr.
      replace (0 <=? scaled r / 2 ^ 1074) with true
        by (symmetry; apply Z.leb_le; lia).
      replace (scaled r / 2 ^ 1074 <? 2 ^ 32) with true
        by (symmetry; apply Z.ltb_lt; change (2 ^ 32) with 4294967296; lia).
      reflexivity.
    + change (scaled (double_of_Z 1)) with (4503599627370496 * 2 ^ (-52 + 1074)).
      change (-52 + 1074) with 1022. intros Hone.
      assert (Hmono1 : scaled (dmul (S754_finite false 4503599627370496 (-52))
                                 (double_of_Z 4294967295)) <= scaled r).
      { subst r. rewrite sanity_scale_eq.
        apply (dmul_scaled_mono 4503599627370496 m 9007199252643840 (-52) e (-21)
                 eq_refl V eq_refl Hone Hs). }
      rewrite Eone in Hmono1. cbn [scaled cond_Zopp] in Hmono1.
      change (-21 + 1074) with 1053 in Hmono1.
      assert (4294967295 <= scaled r / 2 ^ 1074).
      { apply Z.div_le_lower_bound; lia. }
      lia.
Qed.

Lemma sanity_negative (m : positive) (e : Z) :
  valid_binary prec emax (S754_finite true m e) = true ->
  let r := dmul (S754_finite true m e) (double_of_Z 4294967295) in
  (- (Zpos m * 2 ^ (e + 1074)) <= scaled frequency_lower ->
   double_to_uint32 r = None)
  /\ (scaled frequency_lower < - (Zpos m * 2 ^ (e + 1074)) ->
      double_to_uint32 r = Some 0).
Proof.
  intros V r.
  assert (Vp : valid_binary prec emax (S754_finite false m e) = true) by exact V.
  destruct (product_trunc m e Vp) as [Hfit Hbig]. cbv zeta in Hfit, Hbig.
  destruct frequency_lower_product as (Elow & Epred).
  assert (Er : r = SFopp (dmul (S754_finite false m e) (double_of_Z 4294967295))).
  { subst r. rewrite sanity_scale_eq. apply dmul_opp_finite; [exact Vp | reflexivity]. }
  set (rp := dmul (S754_finite false m e) (double_of_Z 4294967295)) in *.
  pose proof (pow2_pos 1021 ltac:(lia)) as P1021.
  assert (P1074 : 2 ^ 1074 = 9007199254740992 * 2 ^ 1021).
  { change 1074 with (53 + 1021). rewrite (Z.pow_add_r 2 53 1021) by lia.
    reflexivity. }
  assert (P1022 : 2 ^ 1022 = 2 * 2 ^ 1021).
  { change 1022 with (1 + 1021). rewrite (Z.pow_add_r 2 1 1021) by lia.
    reflexivity. }
  unfold frequency_lower. cbn [scaled cond_Zopp].
  change (-84 + 1074) with 990.
  unfold double_to_uint32. rewrite Er, double_trunc_opp. split.
  - intros Hge.
    assert (Hge' : 4503599628419072 * 2 ^ (-84 + 1074) <= Zpos m * 2 ^ (e + 1074))
      by (change (-84 + 1074) with 990; lia).
    destruct (Z_le_gt_dec
                (fexp prec emax
                   (Zpos (digits2_pos (m * 9007199252643840)) + (e + -21))) 970)
      as [Hs | Hs].
    + destruct (Hfit Hs) as (W & Hpos & Htr).
      assert (Hmono : scaled (dmul (S754_finite false 4503599628419072 (-84))
                                (double_of_Z 4294967295)) <= scaled rp).
      { subst rp. rewrite sanity_scale_eq.
        apply (dmul_scaled_mono 4503599628419072 m 9007199252643840 (-84) e (-21)
                 eq_refl Vp eq_refl Hge' Hs). }
      rewrite Elow in Hmono. cbn [scaled cond_Zopp] in Hmono.
      change (-52 + 1074) with 1022 in Hmono.
      rewrite Htr. cbn [option_map].
      assert (1 <= scaled rp / 2 ^ 1074).
      { apply Z.div_le_lower_bound; lia. }
      replace (0 <=? - (scaled rp / 2 ^ 1074)) with false
        by (symmetry; apply Z.leb_gt; lia).
      reflexivity.
    + destruct (double_trunc rp) as [z | ] eqn:Htr; [ | reflexivity].
      pose proof (Hbig ltac:(lia) z eq_refl) as Hz.
      cbn [option_map].
      replace (0 <=? - z) with false
        by (symmetry; apply Z.leb_gt; change (2 ^ 32) with 4294967296 in Hz; lia).
      reflexivity.
  - intros Hlt.
    destruct (scaled_below m 4503599628419071 e (-84) Vp eq_refl eq_refl)
      as [He Hle].
    { change (-84 + 1074) with 990. change (Zpos (4503599628419071 + 1))
        with 4503599628419072. lia. }
    assert (Hs : fexp prec emax
                   (Zpos (digits2_pos (m * 9007199252643840)) + (e + -21)) <= 970).
    { pose proof (digits_mul_upper m 9007199252643840) as Hd.
      change (Zpos (digits2_pos 9007199252643840)) with 53 in Hd.
      pose proof (valid_finite_inv _ _ _ Vp) as [Cf _].
      rewrite fexp_eq. lia. }
    destruct (Hfit Hs) as (W & Hpos & Htr).
    assert (Hmono : scaled rp <= scaled (dmul (S754_finite false 4503599628419071 (-84))
                                           (double_of_Z 4294967295))).
    { subst rp. rewrite sanity_scale_eq.
      apply (dmul_scaled_mono m 4503599628419071 9007199252643840 e (-84) (-21)
               Vp eq_refl eq_refl Hle). vm_compute. discriminate. }
    rewrite Epred in Hmono. cbn [scaled cond_Zopp] in Hmono.
    change (-53 + 1074) with 1021 in Hmono.
    rewrite Htr. cbn [option_map].
    assert (Hz : scaled rp / 2 ^ 1074 = 0).
    { apply Z.div_small. lia. }
    rewrite Hz. reflexivity.
Qed.

Lemma dleb_scaled (x y : double) :
  wf_double x -> wf_double y -> dleb x y = (scaled x <=? scaled y).
Proof.
  intros Wx Wy. unfold dleb, SFleb. rewrite (SFcompare_scaled _ _ Wx Wy).
  destruct (Z.compare_spec (scaled x) (scaled y)); symmetry;
    [apply Z.leb_le | apply Z.leb_le | apply Z.leb_gt]; lia.
Qed.

(** X19. The conversion in [setSanityCheck] is defined exactly for the
    frequencies strictly between [- (2^-32 + 2^-64)] and [1 + 2^-32]; for
    every other double, the infinities and the NaN included, the product
    does not fit a [uint32_t]. *)
Theorem setSanityCheck_defined_range (pool : CTxMemPool) (f : double) :
  valid_binary prec emax f = true ->
  (exists pool', setSanityCheck pool f = Some pool')
  <-> dltb frequency_lower f = true /\ dltb f frequency_upper = true.
Proof.
  intros V.
  assert (Wl : wf_double frequency_lower) by (split; reflexivity).
  assert (Wu : wf_double frequency_upper) by (split; reflexivity).
  destruct f as [s | s | | s m e].
  - split; [intros _; split; reflexivity | intros _].
    eexists. reflexivity.
  - split.
    + intros [pool' H]. destruct s; discriminate H.
    + intros [H1 H2]. destruct s; discriminate.
  - split.
    + intros [pool' H]. discriminate H.
    + intros [H1 H2]. discriminate.
  - assert (Wf : wf_double (S754_finite s m e)) by (split; [exact V | reflexivity]).
    rewrite (dltb_scaled _ _ Wl Wf), (dltb_scaled _ _ Wf Wu).
    unfold setSanityCheck. destruct s.
    + destruct (sanity_negative m e V) as [Hout Hin]. cbv zeta in Hout, Hin.
      unfold frequency_lower, frequency_upper in Hout, Hin |- *.
      cbn [scaled cond_Zopp] in Hout, Hin |- *. split.
      * intros [pool' H].
        destruct (Z_le_gt_dec (- (Zpos m * 2 ^ (e + 1074)))
                    (- (4503599628419072 * 2 ^ (-84 + 1074)))) as [Hle | Hgt].
        -- rewrite (Hout Hle) in H. discriminate H.
        -- split; [apply Z.ltb_lt; lia | apply Z.ltb_lt].
           pose proof (valid_finite_inv _ _ _ V) as [C _].
           pose proof (pow2_pos (e + 1074) ltac:(lia)).
           pose proof (pow2_pos (-52 + 1074) ltac:(lia)). nia.
      * intros [H1 _]. apply Z.ltb_lt in H1. rewrite (Hin H1).
        eexists. reflexivity.
    + destruct (sanity_positive m e V) as [Hout Hin]. cbv zeta in Hout, Hin.
      unfold frequency_lower, frequency_upper in Hout, Hin |- *.
      cbn [scaled cond_Zopp] in Hout, Hin |- *. split.
      * intros [pool' H].
        destruct (Z_le_gt_dec (4503599628419072 * 2 ^ (-52 + 1074))
                    (Zpos m * 2 ^ (e + 1074))) as [Hle | Hgt].
        -- rewrite (Hout Hle) in H. discriminate H.
        -- split; [apply Z.ltb_lt | apply Z.ltb_lt; lia].
           pose proof (valid_finite_inv _ _ _ V) as [C _].
           pose proof (pow2_pos (e + 1074) ltac:(lia)).
           pose proof (pow2_pos (-84 + 1074) ltac:(lia)). nia.
      * intros [_ H2]. apply Z.ltb_lt in H2.
        destruct (Hin H2) as (N & -> & _). eexists. reflexivity.
Qed.

(** X20. Saturation at the two ends: when the conversion is defined, a
    frequency of at most zero stores [0], and a frequency of at least one
    stores [4294967295]. *)
Theorem setSanityCheck_saturates (pool pool' : CTxMemPool) (f : double) :
  valid_binary prec emax f = true ->
  setSanityCheck pool f = Some pool' ->
  (dleb f (double_of_Z 0) = true -> nCheckFrequency pool' = 0)
  /\ (dleb (double_of_Z 1) f = true -> nCheckFrequency pool' = 4294967295).
Proof.
  intros V H.
  assert (W0 : wf_double (double_of_Z 0)) by (split; reflexivity).
  assert (W1 : wf_double (double_of_Z 1)) by (split; reflexivity).
  destruct f as [s | s | | s m e].
  - injection H as <-. split; [reflexivity | discriminate].
  - destruct s; discriminate H.
  - discriminate H.
  - assert (Wf : wf_double (S754_finite s m e)) by (split; [exact V | reflexivity]).
    unfold setSanityCheck in H. destruct s.
    + destruct (sanity_negative m e V) as [Hout Hin]. cbv zeta in Hout, Hin.
      destruct (Z_le_gt_dec (- (Zpos m * 2 ^ (e + 1074)))
                  (scaled frequency_lower)) as [Hle | Hgt].
      * rewrite (Hout Hle) in H. discriminate H.
      * rewrite (Hin ltac:(lia)) in H. injection H as <-.
        split; [reflexivity | discriminate].
    + destruct (sanity_positive m e V) as [Hout Hin]. cbv zeta in Hout, Hin.
      destruct (Z_le_gt_dec (scaled frequency_upper)
                  (Zpos m * 2 ^ (e + 1074))) as [Hle | Hgt].
      * rewrite (Hout Hle) in H. discriminate H.
      * destruct (Hin ltac:(lia)) as (N & HN & Hone).
        rewrite HN in H. injection H as <-. cbn [nCheckFrequency].
        split; [discriminate | ].
        rewrite (dleb_scaled _ _ W1 Wf). intros Hle1. apply Z.leb_le in Hle1.
        apply Hone. exact Hle1.
Qed.

(** ** The further statements on the sample data *)

Lemma Zltb_asym (x y : Z) : (x <? y) = true -> (y <? x) = false.
Proof. intros H. apply Z.ltb_lt in H. apply Z.ltb_ge. lia. Qed.

Lemma Zltb_trans (x y z : Z) :
  (x <? y) = true -> (y <? z) = true -> (x <? z) = true.
Proof.
  intros H1 H2. apply Z.ltb_lt in H1. apply Z.ltb_lt in H2. apply Z.ltb_lt. lia.
Qed.

(** X1: the parent entered before its child. *)
Lemma entry_time_strict_weak_order_witness :
  CompareTxMemPoolEntryByEntryTime sample_parent sample_child = true
  /\ CompareTxMemPoolEntryByEntryTime sample_child sample_parent = false.
Proof.
  split; [reflexivity | ].
  apply (proj1 (proj2 (entry_time_strict_weak_order SampleTx
                         sample_parent sample_child sample_child))).
  reflexivity.
Defined.

(** X2: the child (feerate 15) before the parent (feerate 10), not the
    other way round. *)
Lemma relay_score_asymmetric_witness :
  CompareTxMemPoolEntryByScore sample_hash Z.ltb sample_GetTxSize
    sample_child sample_parent = true
  /\ CompareTxMemPoolEntryByScore sample_hash Z.ltb sample_GetTxSize
       sample_parent sample_child = false.
Proof.
  split; [reflexivity | ].
  apply (proj2 (relay_score_asymmetric SampleTx sample_hash Z.ltb
                  sample_GetTxSize sample_child sample_parent Zltb_asym)).
  reflexivity.
Defined.

(** X3: the parent and an entry of the same feerate: the greater hash
    first. *)
Lemma relay_score_order_witness :
  exact_rangeb [GetFee sample_peer; GetFee sample_parent]
               [sample_GetTxSize sample_peer; sample_GetTxSize sample_parent]
  = true
  /\ CompareTxMemPoolEntryByScore sample_hash Z.ltb sample_GetTxSize
       sample_peer sample_parent = true.
Proof.
  split; [reflexivity | ].
  apply (proj2 (relay_score_order SampleTx sample_hash Z.ltb sample_GetTxSize
                  sample_peer sample_parent eq_refl)).
  right. split; reflexivity.
Defined.

(** X4: the child (score 40/3) before the parent (score 10). *)
Lemma ancestor_score_asymmetric_witness :
  CompareTxMemPoolEntryByAncestorFee sample_hash Z.ltb sample_GetTxSize
    sample_child sample_parent = true
  /\ CompareTxMemPoolEntryByAncestorFee sample_hash Z.ltb sample_GetTxSize
       sample_parent sample_child = false.
Proof.
  split; [reflexivity | ].
  apply (proj2 (ancestor_score_asymmetric SampleTx sample_hash Z.ltb
                  sample_GetTxSize sample_child sample_parent Zltb_asym)).
  reflexivity.
Defined.

(** X5: child, parent, and the peer of the parent's score and a larger
    hash. *)
Lemma ancestor_score_transitive_witness :
  CompareTxMemPoolEntryByAncestorFee sample_hash Z.ltb sample_GetTxSize
    sample_child sample_peer = true.
Proof.
  apply (ancestor_score_transitive SampleTx sample_hash Z.ltb sample_GetTxSize
           sample_child sample_parent sample_peer eq_refl Zltb_trans);
    reflexivity.
Defined.

(** X6: the parent and its child are ordered one way only. *)
Lemma descendant_score_total_witness :
  (CompareTxMemPoolEntryByDescendantScore sample_GetTxSize
     sample_parent sample_child = true
   \/ CompareTxMemPoolEntryByDescendantScore sample_GetTxSize
        sample_child sample_parent = true)
  /\ (CompareTxMemPoolEntryByDescendantScore sample_GetTxSize
        sample_parent sample_child = true
      /\ CompareTxMemPoolEntryByDescendantScore sample_GetTxSize
           sample_child sample_parent = true
      <-> DescendantScore_tie sample_GetTxSize sample_parent sample_child = true
          /\ GetTime sample_parent = GetTime sample_child).
Proof.
  apply (descendant_score_total SampleTx sample_GetTxSize
           sample_parent sample_child);
    unfold in_uint64, in_int64; vm_compute; split; congruence.
Defined.

(** X7: the parent (40/3), its child (15) and the prioritised entry
    (510). *)
Lemma descendant_score_transitive_witness :
  CompareTxMemPoolEntryByDescendantScore sample_GetTxSize
    sample_parent sample_prioritised = true.
Proof.
  apply (descendant_score_transitive SampleTx sample_GetTxSize
           sample_parent sample_child sample_prioritised eq_refl);
    reflexivity.
Defined.

Lemma sample_tx4_fresh :
  ~ In (sample_hash sample_tx4) (map sample_hash (queuedTx sample_buffer)).
Proof. simpl. lia. Defined.

Lemma sample_buffer_consistent : usage_consistent sample_usage sample_buffer.
Proof. reflexivity. Defined.

(** X8: the fourth transaction is appended to the sample buffer. *)
Lemma addTransaction_fresh_lookup_witness :
  queuedTx (addTransaction sample_hash sample_usage sample_buffer sample_tx4)
  = [sample_tx1; sample_tx2; sample_tx3; sample_tx4]
  /\ queuedTx_find sample_hash 4
       (queuedTx (addTransaction sample_hash sample_usage sample_buffer sample_tx4))
     = Some 3%nat.
Proof.
  destruct (addTransaction_fresh_lookup SampleTx sample_hash sample_usage
              sample_buffer sample_tx4 sample_tx4_fresh) as (Hq & Hf & _).
  split; [exact Hq | exact Hf].
Defined.

(** X9: the second of the three sample transactions is removed. *)
Lemma removeEntry_removes_position_witness :
  exists d',
    removeEntry sample_usage sample_buffer 1 = Some d'
    /\ queuedTx d' = [sample_tx1; sample_tx3]
    /\ cachedInnerUsage d' = 1400
    /\ queuedTx_find sample_hash 2 (queuedTx d') = None.
Proof.
  eexists. split; [reflexivity | ].
  destruct (proj2 (removeEntry_removes_position SampleTx sample_hash
                     sample_usage sample_buffer 1) _ sample_tx2 eq_refl eq_refl)
    as (Hq & _ & Hc & Hf).
  split; [exact Hq | split; [exact Hc | exact (Hf sample_buffer_unique)]].
Defined.

(** X10: the fourth transaction, added and removed again. *)
Lemma addTransaction_then_remove_witness :
  removeEntry sample_usage
    (addTransaction sample_hash sample_usage sample_buffer sample_tx4) 3
  = Some sample_buffer
  /\ removeForBlock sample_hash sample_usage
       (addTransaction sample_hash sample_usage sample_buffer sample_tx4)
       [sample_tx4]
     = sample_buffer.
Proof.
  apply (addTransaction_then_remove SampleTx sample_hash sample_usage
           sample_buffer sample_tx4 sample_tx4_fresh).
  unfold in_uint64. simpl. lia.
Defined.

(** X12: a block that holds the fourth transaction only. *)
Lemma removeForBlock_unrelated_block_witness :
  removeForBlock sample_hash sample_usage sample_buffer [sample_tx4]
  = sample_buffer.
Proof.
  apply (removeForBlock_unrelated_block SampleTx sample_hash sample_usage
           sample_buffer [sample_tx4]).
  intros v [<- | []]. simpl. lia.
Defined.

(** X13: the block of the second transaction, connected twice. *)
Lemma removeForBlock_idempotent_witness :
  removeForBlock sample_hash sample_usage
    (removeForBlock sample_hash sample_usage sample_buffer [sample_tx2])
    [sample_tx2]
  = removeForBlock sample_hash sample_usage sample_buffer [sample_tx2].
Proof.
  exact (removeForBlock_idempotent SampleTx sample_hash sample_usage
           sample_buffer [sample_tx2] sample_buffer_unique).
Defined.

(** X14: a block that holds the three sample transactions. *)
Lemma removeForBlock_drains_witness :
  removeForBlock sample_hash sample_usage sample_buffer
    [sample_tx3; sample_tx1; sample_tx2]
  = DisconnectedBlockTransactions_init SampleTx
  /\ destructor (removeForBlock sample_hash sample_usage sample_buffer
                   [sample_tx3; sample_tx1; sample_tx2])
     = assert_passes.
Proof.
  apply (removeForBlock_drains SampleTx sample_hash sample_usage sample_buffer
           [sample_tx3; sample_tx1; sample_tx2]
           sample_buffer_unique sample_buffer_consistent).
  intros t [<- | [<- | [<- | []]]]; reflexivity.
Defined.

(** X15: the sample buffer after the fourth transaction. *)
Lemma usage_accounting_kept_witness :
  usage_consistent sample_usage
    (addTransaction sample_hash sample_usage sample_buffer sample_tx4).
Proof.
  exact (proj2 (proj2 (proj2 (proj2
           (usage_accounting_kept SampleTx sample_hash sample_usage sample_buffer))
             sample_buffer_consistent))
           sample_tx4 sample_tx4_fresh).
Defined.

(** X16: the sample calls on the empty buffer. *)
Lemma unique_hashes_invariant_witness :
  exists d,
    run_calls sample_hash sample_usage sample_calls
      (DisconnectedBlockTransactions_init SampleTx) = Some d
    /\ unique_hashes sample_hash (queuedTx d).
Proof.
  eexists. split; [reflexivity | ].
  apply (unique_hashes_invariant SampleTx sample_hash sample_usage sample_calls
           (DisconnectedBlockTransactions_init SampleTx) _
           (NoDup_nil _) eq_refl).
Defined.

(** X17: the three sample transactions with 80 bytes of overhead each. *)
Lemma DynamicMemoryUsage_per_transaction_witness :
  DisconnectedBlockTransactions_DynamicMemoryUsage sample_MallocUsage 16 8
    sample_buffer
  = 2340.
Proof.
  rewrite (proj1 (DynamicMemoryUsage_per_transaction SampleTx sample_usage
                    sample_MallocUsage 16 8 sample_buffer)
             sample_buffer_consistent).
  reflexivity.
Defined.

(** X18: one half and the largest double below one. *)
Lemma setSanityCheck_monotone_witness :
  exists pool1' pool2',
    setSanityCheck sample_pool double_half = Some pool1'
    /\ setSanityCheck sample_pool double_below_one = Some pool2'
    /\ nCheckFrequency pool1' <= nCheckFrequency pool2'.
Proof.
  exact (setSanityCheck_monotone sample_pool sample_pool
           double_half double_below_one eq_refl eq_refl eq_refl eq_refl eq_refl).
Defined.

(** X19: the least double above one is converted; two is not. *)
Lemma setSanityCheck_defined_range_witness :
  (exists pool', setSanityCheck sample_pool double_above_one = Some pool')
  /\ ~ (exists pool', setSanityCheck sample_pool (double_of_Z 2) = Some pool').
Proof.
  split.
  - apply (proj2 (setSanityCheck_defined_range sample_pool double_above_one
                    eq_refl)).
    split; reflexivity.
  - intros H.
    apply (proj1 (setSanityCheck_defined_range sample_pool (double_of_Z 2)
                    eq_refl)) in H.
    destruct H as [_ H]. discriminate H.
Defined.

(** X20: the least double above one stores the largest value. *)
Lemma setSanityCheck_saturates_witness :
  exists pool',
    setSanityCheck sample_pool double_above_one = Some pool'
    /\ nCheckFrequency pool' = 4294967295.
Proof.
  eexists. split; [reflexivity | ].
  apply (proj2 (setSanityCheck_saturates sample_pool _ double_above_one
                  eq_refl eq_refl)).
  reflexivity.
Defined.

(* ===================================================================== *)
(** * Part IV: properties of the entry point of the daemon                 *)
(* ===================================================================== *)

Lemma after_nil {A : Type} (m : step A) : after [] m = m.
Proof. destruct m. reflexivity. Qed.

Lemma check_tokens_cases (w : World) (tokens : list String.string) :
  (check_tokens w tokens = skip
   /\ Forall (fun token => IsSwitchChar w (first_char token) = true) tokens)
  \/ (exists token,
        IsSwitchChar w (first_char token) = false
        /\ check_tokens w tokens
           = ([act_stderr (msg_unexpected_token token)], returned false)).
Proof.
  induction tokens as [ | t rest IH]; simpl.
  - left. split; [reflexivity | constructor].
  - destruct (IsSwitchChar w (first_char t)) eqn:Ht; simpl.
    + destruct IH as [[E F] | (t' & Ht' & E)].
      * left. split; [exact E | constructor; assumption].
      * right. exists t'. split; assumption.
    + right. exists t. split; [assumption | reflexivity].
Qed.

Lemma check_tokens_pass (w : World) (tokens : list String.string) :
  Forall (fun token => IsSwitchChar w (first_char token) = true) tokens ->
  check_tokens w tokens = skip.
Proof.
  induction 1 as [ | t rest Ht _ IH]; simpl; [reflexivity | ].
  rewrite Ht. exact IH.
Qed.

Lemma WaitForShutdown_loop_first (w : World) (k : nat) :
  forall n fuel,
    (forall i, (i < k)%nat -> ShutdownRequested w (n + i) = false) ->
    ShutdownRequested w (n + k) = true ->
    (k <= fuel)%nat ->
    WaitForShutdown_loop w n fuel = (repeat (act_MilliSleep 200) k, normal tt).
Proof.
  induction k as [ | k IH]; intros n fuel Hbefore Hk Hfuel.
  - rewrite Nat.add_0_r in Hk. destruct fuel; simpl; rewrite Hk; reflexivity.
  - destruct fuel as [ | fuel]; [lia | ].
    pose proof (Hbefore 0%nat ltac:(lia)) as H0. rewrite Nat.add_0_r in H0.
    simpl. rewrite H0.
    rewrite (IH (S n) fuel); [reflexivity | | | lia].
    + intros i Hi. replace (S n + i)%nat with (n + S i)%nat by lia.
      apply Hbefore. lia.
    + replace (S n + k)%nat with (n + S k)%nat by lia. exact Hk.
Qed.

Lemma WaitForShutdown_loop_cases (w : World) (fuel : nat) :
  forall n, exists j,
    (WaitForShutdown_loop w n fuel = (repeat (act_MilliSleep 200) j, normal tt)
     /\ ShutdownRequested w (n + j) = true)
    \/ (WaitForShutdown_loop w n fuel = (repeat (act_MilliSleep 200) j, unfinished)
        /\ forall i, (i <= fuel)%nat -> ShutdownRequested w (n + i) = false).
Proof.
  induction fuel as [ | fuel IH]; intros n; simpl.
  - destruct (ShutdownRequested w n) eqn:Hn.
    + exists 0%nat. left. rewrite Nat.add_0_r. split; [reflexivity | exact Hn].
    + exists 0%nat. right. split; [reflexivity | ].
      intros i Hi. replace i with 0%nat by lia. rewrite Nat.add_0_r. exact Hn.
  - destruct (ShutdownRequested w n) eqn:Hn.
    + exists 0%nat. left. rewrite Nat.add_0_r. split; [reflexivity | exact Hn].
    + destruct (IH (S n)) as [j [[E Hj] | [E Hno]]]; exists (S j); rewrite E.
      * left. split; [reflexivity | ].
        replace (n + S j)%nat with (S n + j)%nat by lia. exact Hj.
      * right. split; [reflexivity | ].
        intros [ | i] Hi; [rewrite Nat.add_0_r; exact Hn | ].
        replace (n + S i)%nat with (S n + i)%nat by lia. apply Hno. lia.
Qed.

Lemma repeat_sleep_calm (j : nat) :
  existsb is_cleanup (repeat (act_MilliSleep 200) j) = false
  /\ existsb passed_checks (repeat (act_MilliSleep 200) j) = false.
Proof. induction j as [ | j [IH1 IH2]]; simpl; auto. Qed.

(** X21. [WaitForShutdown] returns exactly when the shutdown is
    requested: if the first call of [ShutdownRequested] that answers
    [true] is the one after [k] earlier calls, the function sleeps [k]
    times for 200 ms, calls [Interrupt] once and returns; while no call
    answers [true] it neither returns nor calls [Interrupt]. *)
Theorem WaitForShutdown_until_requested (w : World) (k fuel : nat) :
  (forall i, (i < k)%nat -> ShutdownRequested w i = false) ->
  (ShutdownRequested w k = true ->
   (k <= fuel)%nat ->
   WaitForShutdown w fuel
   = (repeat (act_MilliSleep 200) k ++ [act_Interrupt], normal tt))
  /\ ((fuel < k)%nat ->
      snd (WaitForShutdown w fuel) = unfinished
      /\ ~ In act_Interrupt (fst (WaitForShutdown w fuel))).
Proof.
  intros Hbefore. split.
  - intros Hk Hfuel. unfold WaitForShutdown.
    rewrite (WaitForShutdown_loop_first w k 0 fuel); [reflexivity | | | ]; auto.
  - intros Hfuel. unfold WaitForShutdown.
    destruct (WaitForShutdown_loop_cases w fuel 0) as [j [[E _] | [E _]]].
    + exfalso.
      (* the loop cannot have ended: no call has answered [true] yet *)
      assert (Hloop : forall f n, (n + f < k)%nat ->
                snd (WaitForShutdown_loop w n f) = unfinished).
      { clear - Hbefore. induction f as [ | f IH]; intros n Hn; simpl.
        - rewrite (Hbefore n) by lia. reflexivity.
        - rewrite (Hbefore n) by lia.
          specialize (IH (S n) ltac:(lia)).
          destruct (WaitForShutdown_loop w (S n) f) as [tr fl]. simpl in *.
          subst fl. reflexivity. }
      specialize (Hloop fuel 0%nat ltac:(lia)). rewrite E in Hloop. discriminate.
    + rewrite E. simpl. split; [reflexivity | ].
      intros Hin. apply repeat_spec in Hin. discriminate.
Qed.

(** How the [try] block of [AppInit] can end. *)
Lemma AppInit_try_cases (w : World) (argv : list String.string) :
  existsb is_cleanup (fst (AppInit_try w argv)) = false
  /\ match snd (AppInit_try w argv) with
     | normal fRet =>
         checks_pass w argv /\ AppInitMain w = returns fRet
         /\ existsb passed_checks (fst (AppInit_try w argv)) = true
     | returned b =>
         b = false /\ ~ checks_pass w argv
         /\ existsb passed_checks (fst (AppInit_try w argv)) = false
     | thrown_out e =>
         ~ (checks_pass w argv /\ exists fRet, AppInitMain w = returns fRet)
     | unfinished => False
     end.
Proof.
  unfold AppInit_try, checks_pass, daemonize.
  destruct (check_tokens_cases w (tl argv)) as [[E F] | (t & Ht & E)]; rewrite E.
  - destruct w as [args dir conf params sw soft log inter basic par san dm have
                     dres lock main_ polls].
    cbn [is_directory_GetDataDir ReadConfigFile SelectParams IsSwitchChar
         SoftSetBoolArg InitLogging InitParameterInteraction AppInitBasicSetup
         AppInitParameterInteraction AppInitSanityChecks GetBoolArg_daemon
         HAVE_DECL_DAEMON daemon AppInitLockDataDirectory AppInitMain] in *.
    destruct dir as [[] | []]; cbn;
      try (split; [reflexivity | intuition congruence]).
    destruct conf as [[] | []]; cbn;
      try (split; [reflexivity | intuition congruence]).
    destruct params as [[] | []]; cbn;
      try (split; [reflexivity | intuition congruence]).
    destruct soft as [bs | []]; cbn;
      try (split; [reflexivity | intros (_ & _ & _ & _ & [b Hb] & _); congruence]);
      try (split; [reflexivity | intros [(_ & _ & _ & _ & [b Hb] & _) _]; congruence]).
    destruct log as [[] | []]; cbn;
      try (split; [reflexivity | intuition congruence]).
    destruct inter as [[] | []]; cbn;
      try (split; [reflexivity | intuition congruence]).
    destruct basic as [[] | []]; cbn;
      try (split; [reflexivity | intuition congruence]).
    destruct par as [[] | []]; cbn;
      try (split; [reflexivity | intuition congruence]).
    destruct san as [[] | []]; cbn;
      try (split; [reflexivity | intuition congruence]).
    destruct dm as [[] | []]; cbn;
      try (split; [reflexivity | intuition congruence]).
    + destruct have; cbn.
      * destruct (Z.eqb_spec dres 0) as [Hd | Hd]; cbn;
          try (split; [reflexivity | intuition congruence]).
        destruct lock as [[] | []]; cbn;
          try (split; [reflexivity | intuition congruence]).
        destruct main_ as [fRet | e]; cbn.
        -- split; [reflexivity | ]. split; [ | split; [reflexivity | reflexivity]].
           repeat split; eauto.
        -- split; [reflexivity | ]. intros [_ [fRet H]]. discriminate H.
      * split; [reflexivity | intuition congruence].
    + destruct lock as [[] | []]; cbn;
        try (split; [reflexivity | intuition congruence]).
      destruct main_ as [fRet | e]; cbn.
      * split; [reflexivity | ]. split; [ | split; [reflexivity | reflexivity]].
        repeat split; eauto.
      * split; [reflexivity | ]. intros [_ [fRet H]]. discriminate H.
  - assert (Hno : ~ Forall (fun token => IsSwitchChar w (first_char token) = true)
                      (tl argv)).
    { intros F. rewrite (check_tokens_pass w (tl argv) F) in E. discriminate E. }
    destruct (is_directory_GetDataDir w) as [[] | []]; cbn;
      try (split; [reflexivity | intuition congruence]).
    destruct (ReadConfigFile w) as [[] | []]; cbn;
      try (split; [reflexivity | intuition congruence]).
    destruct (SelectParams w) as [[] | []]; cbn;
      try (split; [reflexivity | intuition congruence]).
Qed.

Lemma WaitForShutdown_cases (w : World) (fuel : nat) :
  exists j,
    (WaitForShutdown w fuel
     = (repeat (act_MilliSleep 200) j ++ [act_Interrupt], normal tt)
     /\ ShutdownRequested w j = true)
    \/ (WaitForShutdown w fuel = (repeat (act_MilliSleep 200) j, unfinished)
        /\ forall i, (i <= fuel)%nat -> ShutdownRequested w i = false).
Proof.
  unfold WaitForShutdown.
  destruct (WaitForShutdown_loop_cases w fuel 0) as [j [[E Hj] | [E Hno]]];
    exists j; rewrite E; [left | right]; (split; [reflexivity | assumption]).
Qed.

Lemma existsb_sleep_app (p : action -> bool) (j : nat) (l : list action) :
  p (act_MilliSleep 200) = false ->
  existsb p (repeat (act_MilliSleep 200) j ++ l) = existsb p l.
Proof.
  intros Hp. induction j as [ | j IH]; simpl; [reflexivity | ].
  rewrite Hp. exact IH.
Qed.

(** X22. Every run of [AppInit] that goes as far as [AppInitMain], or in
    which one of the outer handlers catches an exception, ends with
    [Interrupt] and then [Shutdown], each called once; a run that stops
    at an earlier check, or prints the help, calls neither. *)
Theorem AppInit_cleanup (w : World) (argv : list String.string) (fuel : nat)
  (tr : list action) (b : bool) :
  AppInit w argv fuel = Some (tr, b) ->
  if existsb passed_checks tr
  then exists before,
         tr = before ++ [act_Interrupt; act_Shutdown]
         /\ existsb is_cleanup before = false
  else existsb is_cleanup tr = false.
Proof.
  unfold AppInit, AppInit_steps.
  destruct (help_requested w).
  - cbn. intros [= <- <-]. destruct (IsArgSet w _); reflexivity.
  - pose proof (AppInit_try_cases w argv) as [Hcalm Hend].
    destruct (AppInit_try w argv) as [tr0 fl]. cbn [fst snd] in Hcalm, Hend.
    destruct fl as [fRet | b0 | e | ]; [ | | | contradiction].
    + destruct Hend as (_ & _ & Hpassed).
      unfold AppInit_finish.
      destruct fRet; cbn [negb].
      * destruct (WaitForShutdown_cases w fuel) as [j [[E _] | [E _]]];
          rewrite E; cbn; [ | discriminate].
        intros [= <- <-]. cbn [existsb passed_checks orb].
        rewrite !existsb_app, Hpassed. cbn [orb].
        exists (act_ParseParameters :: tr0 ++ repeat (act_MilliSleep 200) j).
        split.
        -- cbn. rewrite <- ?app_assoc. reflexivity.
        -- cbn. rewrite existsb_app, Hcalm.
           apply (proj1 (repeat_sleep_calm j)).
      * cbn. intros [= <- <-]. cbn [existsb passed_checks orb].
        rewrite !existsb_app, Hpassed. cbn [orb].
        exists (act_ParseParameters :: tr0). split.
        -- cbn. rewrite <- ?app_assoc. reflexivity.
        -- cbn. exact Hcalm.
    + destruct Hend as (-> & _ & Hnot).
      cbn. intros [= <- <-]. cbn. rewrite Hnot. cbn. exact Hcalm.
    + cbn. intros [= <- <-]. cbn [existsb passed_checks orb].
      rewrite !existsb_app. cbn. rewrite orb_true_r.
      exists (act_ParseParameters :: tr0 ++ [act_PrintExceptionContinue e]).
      split.
      * cbn. rewrite <- ?app_assoc. reflexivity.
      * cbn. rewrite existsb_app, Hcalm. reflexivity.
Qed.

Lemma WaitForShutdown_reaches (w : World) (k fuel : nat) :
  ShutdownRequested w k = true -> (k <= fuel)%nat ->
  exists j, WaitForShutdown w fuel
            = (repeat (act_MilliSleep 200) j ++ [act_Interrupt], normal tt).
Proof.
  intros Hk Hfuel.
  destruct (WaitForShutdown_cases w fuel) as [j [[E _] | [_ Hno]]].
  - exists j. exact E.
  - rewrite (Hno k Hfuel) in Hk. discriminate Hk.
Qed.

(** X23. [AppInit] returns [true], and [main] exits with [EXIT_SUCCESS],
    in two cases only: the help or the version was asked for; or every
    check before [AppInitMain] passed, [AppInitMain] returned [true], and
    the shutdown was eventually requested. *)
Theorem AppInit_success (w : World) (argv : list String.string) :
  ((exists fuel tr, AppInit w argv fuel = Some (tr, true))
   <-> help_requested w = true
       \/ (checks_pass w argv /\ AppInitMain w = returns true
           /\ exists k, ShutdownRequested w k = true))
  /\ ((exists fuel tr, main w argv fuel = Some (tr, EXIT_SUCCESS))
      <-> exists fuel tr, AppInit w argv fuel = Some (tr, true)).
Proof.
  split.
  - unfold AppInit, AppInit_steps. split.
    + intros (fuel & tr & H).
      destruct (help_requested w); [left; reflexivity | right].
      pose proof (AppInit_try_cases w argv) as [_ Hend].
      destruct (AppInit_try w argv) as [tr0 fl]. cbn [fst snd] in Hend.
      destruct fl as [fRet | b0 | e | ]; [ | | | contradiction].
      * destruct Hend as (Hchecks & Hmain & _).
        unfold AppInit_finish in H. destruct fRet; cbn [negb] in H.
        -- split; [exact Hchecks | split; [exact Hmain | ]].
           destruct (WaitForShutdown_cases w fuel) as [j [[E Hj] | [E _]]].
           ++ exists j. exact Hj.
           ++ rewrite E in H. cbn in H. discriminate H.
        -- cbn in H. discriminate H.
      * destruct Hend as (-> & _). cbn in H. discriminate H.
      * cbn in H. discriminate H.
    + intros [Hhelp | (Hchecks & Hmain & k & Hk)].
      * rewrite Hhelp. exists 0%nat. cbn. eexists. reflexivity.
      * destruct (help_requested w); [exists 0%nat; cbn; eexists; reflexivity | ].
        pose proof (AppInit_try_cases w argv) as [_ Hend].
        destruct (AppInit_try w argv) as [tr0 fl]. cbn [fst snd] in Hend.
        destruct fl as [fRet | b0 | e | ]; [ | | | contradiction].
        -- destruct Hend as (_ & Hmain' & _).
           assert (fRet = true) by congruence. subst fRet.
           exists k. unfold AppInit_finish. cbn [negb].
           destruct (WaitForShutdown_reaches w k k Hk (Nat.le_refl k)) as [j E].
           rewrite E. cbn. eexists. reflexivity.
        -- destruct Hend as (_ & Hnot & _). contradiction.
        -- exfalso. apply Hend. split; [exact Hchecks | eauto].
  - unfold main, AppInit, after.
    split; intros (fuel & tr & H); exists fuel;
      destruct (AppInit_steps w argv fuel) as [tr0 fl]; cbn [fst snd] in *;
      destruct fl as [ | b0 | | ]; try discriminate H;
      destruct b0; try discriminate H; eexists; reflexivity.
Qed.


(** ** The statements on the sample world *)

Lemma sample_checks_pass : checks_pass sample_world sample_argv.
Proof.
  unfold checks_pass. cbn.
  repeat split; try reflexivity; eauto; repeat constructor.
Defined.

Lemma sample_world_polls (i : nat) :
  (i < 2)%nat -> ShutdownRequested sample_world i = false.
Proof. destruct i as [ | [ | i]]; intros Hi; [reflexivity | reflexivity | lia]. Defined.

(** X21: the shutdown is requested at the third call. *)
Lemma WaitForShutdown_until_requested_witness :
  WaitForShutdown sample_world 5
  = ([act_MilliSleep 200; act_MilliSleep 200; act_Interrupt], normal tt).
Proof.
  apply (proj1 (WaitForShutdown_until_requested sample_world 2 5
                  sample_world_polls)).
  - reflexivity.
  - repeat constructor.
Defined.

(** X22: a plain start that ends with the shutdown. *)
Lemma AppInit_cleanup_witness :
  exists tr b before,
    AppInit sample_world sample_argv 5 = Some (tr, b)
    /\ tr = before ++ [act_Interrupt; act_Shutdown]
    /\ existsb is_cleanup before = false.
Proof.
  destruct (AppInit_cleanup sample_world sample_argv 5 _ _ eq_refl)
    as (before & E & Hcalm).
  do 2 eexists. exists before.
  split; [reflexivity | split; [exact E | exact Hcalm]].
Defined.

(** X23: the plain start succeeds. *)
Lemma AppInit_success_witness :
  (exists fuel tr, AppInit sample_world sample_argv fuel = Some (tr, true))
  /\ (exists fuel tr, main sample_world sample_argv fuel = Some (tr, EXIT_SUCCESS)).
Proof.
  assert (H : exists fuel tr,
            AppInit sample_world sample_argv fuel = Some (tr, true)).
  { apply (proj2 (proj1 (AppInit_success sample_world sample_argv))).
    right. split; [exact sample_checks_pass | split; [reflexivity | ]].
    exists 2%nat. reflexivity. }
  split; [exact H | ].
  apply (proj2 (proj2 (AppInit_success sample_world sample_argv))). exact H.
Defined.

